(** * GraphBLAS: reduce-to-scalar, element-wise entry checks and
      masked multiply kernels, embedded and verified.

    The definitions follow the C sources:
    - [Source/GB_reduce_to_scalar.c]          (GB_reduce_to_scalar)
    - [Source/GB_eWise.c]                     (GB_eWise)
    - [Source/Template/GB_AxB_dot2_compmask.c] (the C<!M>=A'*B loop)
    - the generated semiring files for max_rminus_uint8 and min_rdiv_int8
      (the Gustavson, dot-product and heap macros)
    - [GraphBLAS/@GrB/nzmax.m]                (nzmax)
    - [Source/GrB_Monoid_wait.c]              (GrB_Monoid_wait)
    - GB_cblas_saxpy and GB_unop_apply__minv_uint32_uint32
    - [Source/Generated/GB_sel__triu_any.c]   (GB_SELECT_ENTRY)
    - gb_string_to_binop of the MATLAB interface

    C integers are carried as [Z] without wrap-around: they are counts and
    positions bounded by the number of entries.  The one 8-bit computation,
    the multiply of max_rminus_uint8, wraps explicitly.  Byte buffers
    ([GB_void *]) are lists of bytes; [memcpy] and [memcmp] act on their
    first [n] bytes.  What the sources call but do not contain is either a
    parameter ([GB_env]) or a definition marked as modelled from the
    spec. *)

From Stdlib Require Import ZArith Lia.
From Stdlib.Strings Require Import Byte.
From stdpp Require Import base decidable option list numbers sorting.

Local Open Scope Z_scope.

(** ** Status codes, type codes, types *)

Inductive GrB_Info : Type :=
  | GrB_SUCCESS
  | GrB_NO_VALUE
  | GrB_UNINITIALIZED_OBJECT
  | GrB_INVALID_OBJECT
  | GrB_NULL_POINTER
  | GrB_INVALID_VALUE
  | GrB_DOMAIN_MISMATCH
  | GrB_DIMENSION_MISMATCH
  | GrB_OUT_OF_MEMORY.

#[global] Instance GrB_Info_eq_dec : EqDecision GrB_Info.
Proof. solve_decision. Defined.

Inductive GB_Type_code : Type :=
  | GB_BOOL_code | GB_INT8_code | GB_UINT8_code | GB_INT16_code
  | GB_UINT16_code | GB_INT32_code | GB_UINT32_code | GB_INT64_code
  | GB_UINT64_code | GB_FP32_code | GB_FP64_code | GB_UDT_code.

#[global] Instance GB_Type_code_eq_dec : EqDecision GB_Type_code.
Proof. solve_decision. Defined.

(** A [GrB_Type] is a pointer to a type object; [type_obj] stands for the
    address, so that [==] on two [GrB_Type] is equality of the records. *)
Record GrB_Type : Type := {
  code : GB_Type_code;
  size : nat;
  type_obj : nat
}.

#[global] Instance GrB_Type_eq_dec : EqDecision GrB_Type.
Proof. solve_decision. Defined.

(** ** Byte buffers *)

Definition GB_void : Type := list byte.

#[global] Instance byte_eq_dec : EqDecision byte := Byte.byte_eq_dec.

(** [memcpy (dst, src, n)]: the new content of an [n]-byte buffer [dst]. *)
Definition memcpy (src : GB_void) (n : nat) : GB_void := take n src.

(** [memcmp (a, b, n) == 0]. *)
Definition memcmp_eq0 (a b : GB_void) (n : nat) : bool :=
  bool_decide (take n a = take n b).

(** ** nzmax.m *)

Module GrB.

(** The MATLAB object [G] wraps an opaque struct; [gbnvals] is a
    mexFunction. *)
Record GrB (opaque_t : Type) : Type := { opaque : opaque_t }.
Arguments opaque {_} _.

Section Nzmax.
Context {opaque_t : Type}.
(** Modelled from the spec: [gbnvals] (a compiled mexFunction, absent
    from the sources) returns the number of stored entries of the
    matrix. *)
Variable gbnvals : opaque_t -> Z.

(** [G = G.opaque ; e = max (gbnvals (G), 1) ;] *)
Definition nzmax (G : GrB opaque_t) : Z :=
  let G := opaque G in
  Z.max (gbnvals G) 1.
End Nzmax.

End GrB.

(** ** Task count of GB_reduce_to_scalar *)

(** Modelled from the spec: [GB_IMIN] and [GB_IMAX] are macros of a header
    that is not among the sources; the spec reads them as [min] and
    [max]. *)
Definition GB_IMIN (x y : Z) : Z := if x <? y then x else y.
Definition GB_IMAX (x y : Z) : Z := if x >? y then x else y.

(** [GB_ICEIL], by the expansion the source gives in a comment:
    [(anz + 8*blocksize - 1) / (8*blocksize)]. *)
Definition GB_ICEIL (a b : Z) : Z := (a + b - 1) / b.

(** Modelled from the spec: [GB_nthreads] is declared in a header that is
    not among the sources; the spec gives
    [nthreads = min(nthreads_max, ceil(nz / chunk))]. *)
Definition GB_nthreads (work chunk nthreads_max : Z) : Z :=
  Z.min nthreads_max ((work + chunk - 1) / chunk).

(** The thread budget carried by [Context]. *)
Record GB_Context : Type := {
  nthreads_max : Z;
  chunk : Z
}.

(** Lines 82-104 of GB_reduce_to_scalar.c: returns [(nthreads, ntasks)]. *)
Definition GB_reduce_ntasks (ngpus_to_use : Z) (Context : GB_Context)
    (anz : Z) : Z * Z :=
  if 0 <? ngpus_to_use then
    let blocksize := 512 in
    let ntasks := GB_ICEIL anz (8 * blocksize) in
    let ngpus_to_use := 1 in
    let nthreads := ngpus_to_use in
    (nthreads, ntasks)
  else
    let nthreads := GB_nthreads anz (chunk Context) (nthreads_max Context) in
    let ntasks := if nthreads =? 1 then 1 else 64 * nthreads in
    let ntasks := GB_IMIN ntasks anz in
    let ntasks := GB_IMAX ntasks 1 in
    (nthreads, ntasks).

(** ** Objects: operators, monoids, matrices *)

(** Every object starts with a [magic] word telling whether it is valid. *)
Inductive GB_magic : Type := GB_MAGIC | GB_MAGIC2 | GB_UNINIT.

Definition GB_Opcode : Type := Z.

Record GrB_BinaryOp : Type := {
  op_magic : GB_magic;
  xtype : GrB_Type;
  ytype : GrB_Type;
  ztype : GrB_Type;
  function : GB_void -> GB_void -> GB_void;   (* z = f (x, y) *)
  opcode : GB_Opcode
}.

(** [f->ztype], for use where a local [ztype] is in scope. *)
Definition op_ztype (f : GrB_BinaryOp) : GrB_Type := ztype f.

Record GrB_Monoid : Type := {
  monoid_magic : GB_magic;
  op : GrB_BinaryOp;
  identity : GB_void;
  terminal : option GB_void                   (* NULL if none *)
}.

(** The sparse matrix of section 3 of the spec: [m_p], [m_h], [m_i], [m_x]
    are [A->p], [A->h], [A->i], [A->x]; an element of [m_x] is one value of
    [size (m_type A)] bytes. *)
Record GrB_Matrix : Type := {
  m_magic : GB_magic;
  m_type : GrB_Type;
  m_nrows : Z;
  m_ncols : Z;
  is_csc : bool;
  is_hyper : bool;
  m_nvec : Z;
  m_h : list Z;
  m_p : list Z;
  m_i : list Z;
  m_x : list GB_void;
  m_npending : Z;
  m_nzombies : Z
}.

(** Modelled from the spec: [GB_NROWS] and [GB_NCOLS] are macros of a
    header that is not among the sources; the data model gives a matrix
    its [nrows] and [ncols]. *)
Definition GB_NROWS (A : GrB_Matrix) : Z := m_nrows A.
Definition GB_NCOLS (A : GrB_Matrix) : Z := m_ncols A.

(** Array read [X [k]] of an [int64_t] array. *)
Definition arr (X : list Z) (k : Z) : Z := X !!! Z.to_nat k.

(** Modelled from the spec: the macro [GB_NNZ] is not among the sources; by
    invariant 3 of the data model the number of entries held in [(i, x)] is
    [p [nvec]]. *)
Definition GB_NNZ (A : GrB_Matrix) : Z := arr (m_p A) (m_nvec A).

(** The entries of a matrix as [(row, column, value)] triples, in storage
    order: vector [k] is column (CSC) or row (CSR) [h [k]] when hypersparse
    and [k] otherwise, and holds positions [p [k] .. p [k+1] - 1]. *)
Definition GB_vector_entries (A : GrB_Matrix) (k : Z)
    : list (Z * Z * GB_void) :=
  let j := if is_hyper A then arr (m_h A) k else k in
  (fun pA : Z =>
     let i := arr (m_i A) pA in
     let v := m_x A !!! Z.to_nat pA in
     if is_csc A then (i, j, v) else (j, i, v))
  <$> seqZ (arr (m_p A) k) (arr (m_p A) (k + 1) - arr (m_p A) k).

Definition GB_entries (A : GrB_Matrix) : list (Z * Z * GB_void) :=
  mbind (GB_vector_entries A) (seqZ 0 (m_nvec A)).

(** ** Functions of the library that the sources call but do not contain *)

(** Outcome of the entry checks [GB_compatible] and
    [GB_BinaryOp_compatible]: the spec says they detect type and dimension
    mismatches. *)
Inductive GB_check : Type :=
  | GB_check_ok
  | GB_domain_mismatch
  | GB_dimension_mismatch.

Definition GB_check_info (r : GB_check) : GrB_Info :=
  match r with
  | GB_check_ok => GrB_SUCCESS
  | GB_domain_mismatch => GrB_DOMAIN_MISMATCH
  | GB_dimension_mismatch => GrB_DIMENSION_MISMATCH
  end.

(** The callees are parameters.  Those that allocate return [None] when
    they run out of memory (section 7 of the spec: allocation failures
    propagate as [OutOfMemory]). *)
Record GB_env : Type := {
  GB_Type_compatible : GrB_Type -> GrB_Type -> bool;
  GB_compatible :
    GrB_Type -> option GrB_Matrix -> option GrB_Matrix ->
    option GrB_BinaryOp -> GrB_Type -> GB_check;
  GB_BinaryOp_compatible :
    GrB_BinaryOp -> option GrB_Type -> GrB_Type -> GrB_Type ->
    GB_Type_code -> GB_check;
  GB_Matrix_wait : GrB_Matrix -> option GrB_Matrix;
  GB_ngpus_to_use : Z -> Z;
  GB_MALLOC : Z -> bool;                     (* does the allocation succeed *)
  GB_cast_factory :
    GB_Type_code -> GB_Type_code -> GB_void -> nat -> GB_void;
  (** Modelled from the spec: [GB_red_factory.c] and the workers it
      selects are not among the sources.  [None] when the switch has no
      case for the pair, [Some false] when the worker exists but was
      disabled when generated and returns [GrB_NO_VALUE], [Some true] when
      it does the work. *)
  GB_red_factory : GB_Opcode -> GB_Type_code -> option bool;
  (** Modelled from the spec: the number of entries a task handles
      between two reads of the early-exit flag (the inner block). *)
  GB_red_block : nat;
  GB_clear : GrB_Matrix -> option GrB_Matrix;
  GB_transpose :
    option GrB_Type -> bool -> GrB_Matrix -> option GrB_Matrix;
  GB_add :
    GrB_Type -> bool -> option GrB_Matrix -> bool ->
    GrB_Matrix -> GrB_Matrix -> GrB_BinaryOp -> option GrB_Matrix;
  GB_emult :
    GrB_Type -> bool -> GrB_Matrix -> GrB_Matrix -> GrB_BinaryOp ->
    option GrB_Matrix;
  GB_accum_mask :
    GrB_Matrix -> option GrB_Matrix -> option GrB_Matrix ->
    option GrB_BinaryOp -> GrB_Matrix -> bool -> bool -> option GrB_Matrix
}.

(** ** A state-and-early-return monad for the orchestrators *)

(** A computation either returns early with a status ([inl]) or goes on
    with a value ([inr]); the state is threaded through both. *)
Definition GB_M (S X : Type) : Type := S -> (GrB_Info + X) * S.

#[global] Instance GB_M_ret {S} : MRet (GB_M S) :=
  fun X (x : X) s => (inr x, s).

#[global] Instance GB_M_bind {S} : MBind (GB_M S) :=
  fun X Y (k : X -> GB_M S Y) (m : GB_M S X) s =>
    match m s with
    | (inl info, s') => (inl info, s')
    | (inr x, s') => k x s'
    end.

(** [return (info) ;] *)
Definition GB_return {S X} (info : GrB_Info) : GB_M S X :=
  fun s => (inl info, s).

(** [GB_OK (info)]: return on anything but success. *)
Definition GB_OK {S} (info : GrB_Info) : GB_M S unit :=
  if decide (info = GrB_SUCCESS) then mret tt else GB_return info.

Definition GB_get {S} : GB_M S S := fun s => (inr s, s).
Definition GB_modify {S} (f : S -> S) : GB_M S unit := fun s => (inr tt, f s).

(** The status a call hands back to its caller, and the final state. *)
Definition GB_run {S} (m : GB_M S GrB_Info) (s : S) : GrB_Info * S :=
  match m s with
  | (inl info, s') => (info, s')
  | (inr info, s') => (info, s')
  end.

(** Modelled from the spec: the object checks are macros of a header that
    is not among the sources; the spec lists their statuses
    ([NullPointer], [InvalidObject], [UninitializedObject]). *)
Definition GB_RETURN_IF_NULL {S X} (arg : option X) : GB_M S X :=
  match arg with
  | None => GB_return GrB_NULL_POINTER
  | Some a => mret a
  end.

(** Modelled from the spec: the status of an object that is not valid,
    [InvalidObject] or [UninitializedObject]. *)
Definition GB_faulty (m : GB_magic) : option GrB_Info :=
  match m with
  | GB_MAGIC => None
  | GB_MAGIC2 => Some GrB_INVALID_OBJECT
  | GB_UNINIT => Some GrB_UNINITIALIZED_OBJECT
  end.

(** Modelled from the spec: a NULL argument passes, a faulty object
    returns its status. *)
Definition GB_RETURN_IF_FAULTY {S X} (magic : X -> GB_magic)
    (arg : option X) : GB_M S unit :=
  match arg with
  | None => mret tt
  | Some a =>
      match GB_faulty (magic a) with
      | Some info => GB_return info
      | None => mret tt
      end
  end.

(** Modelled from the spec: both checks, NULL first. *)
Definition GB_RETURN_IF_NULL_OR_FAULTY {S X} (magic : X -> GB_magic)
    (arg : option X) : GB_M S X :=
  a ← GB_RETURN_IF_NULL arg;
  GB_RETURN_IF_FAULTY magic arg;;
  mret a.

(** What an orchestrator does besides computing, in program order. *)
Inductive GB_worker : Type :=
  | GB_red_worker                 (* a specialized GB_red_scalar_* *)
  | GB_generic_worker             (* generic, no typecasting *)
  | GB_generic_typecast_worker.   (* generic, with typecasting *)

Inductive GB_event : Type :=
  | Ev_wait                       (* pending work of an input assembled *)
  | Ev_malloc (n : Z)             (* workspace or a new matrix allocated *)
  | Ev_free
  | Ev_worker (w : GB_worker) (info : GrB_Info)
  | Ev_write.                     (* the output (c or C) is written *)

(** ** Reduction to a scalar *)

(** The macros GB_reduce_to_scalar.c defines before it includes the
    reduction template. *)
Record GB_reduce_macros : Type := {
  (* t = identity *)
  GB_SCALAR_IDENTITY : GB_void;
  (* t += (ztype) Ax [p] *)
  GB_ADD_CAST_ARRAY_TO_SCALAR : GB_void -> GB_void -> GB_void;
  (* W [tid] = t *)
  GB_COPY_SCALAR_TO_ARRAY : GB_void -> GB_void;
  (* s += W [k] *)
  GB_ADD_ARRAY_TO_SCALAR : GB_void -> GB_void -> GB_void;
  (* the condition under which it sets early_exit and breaks *)
  GB_PARALLEL_BREAK_IF_TERMINAL : GB_void -> bool
}.

(** [terminal != NULL] and [memcmp (s, terminal, zsize) == 0]. *)
Definition GB_terminal_reached (terminal : option GB_void) (zsize : nat)
    (s : GB_void) : bool :=
  match terminal with
  | Some terminal => memcmp_eq0 s terminal zsize
  | None => false
  end.

(** The generic worker without typecasting (lines 185-246). *)
Definition GB_generic_macros (reduce : GrB_Monoid) (zsize : nat)
    : GB_reduce_macros :=
  let freduce := function (op reduce) in
  {| GB_SCALAR_IDENTITY := memcpy (identity reduce) zsize;
     GB_ADD_CAST_ARRAY_TO_SCALAR := fun t a => freduce t a;
     GB_COPY_SCALAR_TO_ARRAY := fun t => memcpy t zsize;
     GB_ADD_ARRAY_TO_SCALAR := fun s w => freduce s w;
     GB_PARALLEL_BREAK_IF_TERMINAL :=
       GB_terminal_reached (terminal reduce) zsize |}.

(** The generic worker with typecasting (lines 261-275): only the two
    array-to-scalar macros are redefined. *)
Definition GB_typecast_macros (reduce : GrB_Monoid) (zsize asize : nat)
    (cast_A_to_Z : GB_void -> nat -> GB_void) : GB_reduce_macros :=
  let freduce := function (op reduce) in
  {| GB_SCALAR_IDENTITY := memcpy (identity reduce) zsize;
     GB_ADD_CAST_ARRAY_TO_SCALAR := fun t a =>
       let awork := cast_A_to_Z a asize in
       freduce t awork;
     GB_COPY_SCALAR_TO_ARRAY := fun t => memcpy t zsize;
     GB_ADD_ARRAY_TO_SCALAR := fun s w => freduce s w;
     GB_PARALLEL_BREAK_IF_TERMINAL :=
       GB_terminal_reached (terminal reduce) zsize |}.

(** Modelled from the spec: [GB_PARTITION] is not among the sources; the
    spec asks for [ntasks] contiguous slices of the entries, here the even
    split: task [tid] owns positions [pstart .. pend-1]. *)
Definition GB_PARTITION (anz tid ntasks : nat) : nat * nat :=
  ((tid * anz) `div` ntasks, (S tid * anz) `div` ntasks)%nat.

(** Modelled from the spec: the inner blocks of a slice, [n] entries each,
    the last one possibly shorter. *)
Fixpoint GB_blocks {X} (fuel n : nat) (l : list X) : list (list X) :=
  match fuel, l with
  | S fuel', _ :: _ => take n l :: GB_blocks fuel' n (drop n l)
  | _, _ => []
  end.

Section Template.
Variable mac : GB_reduce_macros.
(** [sched tid b]: the atomic read of [early_exit] that task [tid] does
    before its block [b] returned true. *)
Variable sched : nat -> nat -> bool.

(** Modelled from the spec: one block of the template.  The entries are
    added one by one ([GB_ADD_CAST_ARRAY_TO_SCALAR]); the task stops, and
    reports it, when the running value is the terminal value
    ([GB_PARALLEL_BREAK_IF_TERMINAL]). *)
Fixpoint GB_reduce_block (blk : list GB_void) (t : GB_void)
    : GB_void * bool :=
  match blk with
  | [] => (t, false)
  | a :: blk' =>
      let t := GB_ADD_CAST_ARRAY_TO_SCALAR mac t a in
      if GB_PARALLEL_BREAK_IF_TERMINAL mac t then (t, true)
      else GB_reduce_block blk' t
  end.

(** Modelled from the spec: the blocks of one task.  The flag is read
    again before each block ([GB_IF_NOT_EARLY_EXIT]), and the rest of the
    slice is skipped once it is seen set.  The boolean tells whether this
    task wrote the flag. *)
Fixpoint GB_reduce_blocks (tid b : nat) (blocks : list (list GB_void))
    (t : GB_void) : GB_void * bool :=
  match blocks with
  | [] => (t, false)
  | blk :: blocks' =>
      let my_exit := sched tid b in
      if negb my_exit then
        match GB_reduce_block blk t with
        | (t, true) => (t, true)
        | (t, false) => GB_reduce_blocks tid (S b) blocks' t
        end
      else (t, false)
  end.

(** Modelled from the spec: one task of the template, from
    [GB_SCALAR_IDENTITY] to [GB_COPY_SCALAR_TO_ARRAY]. *)
Definition GB_reduce_task (blocksz : nat) (Ax : list GB_void)
    (anz ntasks tid : nat) : GB_void * bool :=
  let '(pstart, pend) := GB_PARTITION anz tid ntasks in
  let slice := take (pend - pstart) (drop pstart Ax) in
  let t := GB_SCALAR_IDENTITY mac in
  let '(t, wrote) :=
    GB_reduce_blocks tid 0
      (GB_blocks (length slice) (Nat.max 1 blocksz) slice) t in
  (GB_COPY_SCALAR_TO_ARRAY mac t, wrote).

(** Modelled from the spec: [GB_reduce_to_scalar_template.c] is not among
    the sources.  Section 4.5: the entries are cut into [ntasks] contiguous
    slices; each task reduces its slice into its own [W [tid]], starting
    from the identity; a task whose running value is the terminal value
    sets [early_exit] and stops, the others look at the flag between
    blocks; then [W [0 .. ntasks-1]] is combined into [s] in order.
    Returns [s] and the final value of [early_exit]. *)
Definition GB_reduce_to_scalar_template (blocksz : nat) (s : GB_void)
    (Ax : list GB_void) (anz ntasks : nat) : GB_void * bool :=
  let tasks := GB_reduce_task blocksz Ax anz ntasks <$> seq 0 ntasks in
  let W := tasks.*1 in
  let early_exit := existsb snd tasks in
  (foldl (GB_ADD_ARRAY_TO_SCALAR mac) s W, early_exit).

End Template.

Arguments GB_reduce_task : simpl never.
Arguments GB_reduce_to_scalar_template : simpl never.

(** State of a call of [GB_reduce_to_scalar]: the scalar behind [c] (absent
    when [c] is NULL), the matrix behind [A], the early-exit flag of the
    workers and the log. *)
Record GB_reduce_state : Type := {
  st_c : option GB_void;
  st_A : GrB_Matrix;
  st_early_exit : bool;
  st_log : list GB_event
}.

Definition GB_log (e : GB_event) : GB_M GB_reduce_state unit :=
  GB_modify (fun st =>
    {| st_c := st_c st; st_A := st_A st;
       st_early_exit := st_early_exit st; st_log := st_log st ++ [e] |}).

Definition GB_set_A (A : GrB_Matrix) : GB_M GB_reduce_state unit :=
  GB_modify (fun st =>
    {| st_c := st_c st; st_A := A;
       st_early_exit := st_early_exit st; st_log := st_log st |}).

Definition GB_set_c (c : GB_void) : GB_M GB_reduce_state unit :=
  GB_modify (fun st =>
    {| st_c := Some c; st_A := st_A st;
       st_early_exit := st_early_exit st; st_log := st_log st ++ [Ev_write] |}).

Definition GB_set_early_exit (b : bool) : GB_M GB_reduce_state unit :=
  GB_modify (fun st =>
    {| st_c := st_c st; st_A := st_A st;
       st_early_exit := b; st_log := st_log st |}).

(** Modelled from the spec: the macro [GB_MATRIX_WAIT] is not among the
    sources; finalization (section 4.1) has work to do only when the
    matrix has pending tuples or zombies, and fails with out-of-memory. *)
Definition GB_MATRIX_WAIT (env : GB_env) : GB_M GB_reduce_state unit :=
  st ← GB_get;
  let A := st_A st in
  if (0 <? m_npending A) || (0 <? m_nzombies A) then
    match GB_Matrix_wait env A with
    | None => GB_return GrB_OUT_OF_MEMORY
    | Some A' => GB_set_A A';; GB_log Ev_wait
    end
  else mret tt.

(** Running the included template under a set of macros. *)
Definition GB_worker_run (env : GB_env) (sched : nat -> nat -> bool)
    (mac : GB_reduce_macros) (w : GB_worker) (s : GB_void)
    (A : GrB_Matrix) (anz ntasks : Z) : GB_M GB_reduce_state GB_void :=
  let '(s, early_exit) :=
    GB_reduce_to_scalar_template mac sched (GB_red_block env) s
      (take (Z.to_nat anz) (m_x A)) (Z.to_nat anz) (Z.to_nat ntasks) in
  GB_set_early_exit early_exit;;
  GB_log (Ev_worker w GrB_SUCCESS);;
  mret s.

Definition GB_reduce_to_scalar (env : GB_env) (sched : nat -> nat -> bool)
    (ctype : GrB_Type) (accum : option GrB_BinaryOp)
    (reduce : option GrB_Monoid) (Context : GB_Context)
    : GB_M GB_reduce_state GrB_Info :=
  (* check inputs *)
  reduce ← GB_RETURN_IF_NULL_OR_FAULTY monoid_magic reduce;
  GB_RETURN_IF_FAULTY op_magic accum;;
  st ← GB_get;
  _ ← GB_RETURN_IF_NULL (st_c st);
  (* check domains and dimensions for c = accum (c,s) *)
  let ztype := ztype (op reduce) in
  GB_OK (GB_check_info (GB_compatible env ctype None None accum ztype));;
  (* s = reduce (s,A) must be compatible *)
  if negb (GB_Type_compatible env (m_type (st_A st)) ztype)
  then GB_return GrB_DOMAIN_MISMATCH
  else
  (* delete any lingering zombies and assemble any pending tuples *)
  GB_MATRIX_WAIT env;;
  (* get A *)
  st ← GB_get;
  let A := st_A st in
  let asize := size (m_type A) in
  let zsize := size ztype in
  let anz := GB_NNZ A in
  (* determine the number of threads and tasks *)
  let '(nthreads, ntasks) :=
    GB_reduce_ntasks (GB_ngpus_to_use env anz) Context anz in
  (* allocate workspace *)
  (if GB_MALLOC env (ntasks * Z.of_nat zsize)
   then GB_log (Ev_malloc (ntasks * Z.of_nat zsize))
   else GB_return GrB_OUT_OF_MEMORY);;
  (* s = identity *)
  let s := memcpy (identity reduce) zsize in
  s ←
    (if anz =? 0 then
       (* nothing to do *)
       mret s
     else if decide (m_type A = ztype) then
       (* reduce to scalar via built-in operator *)
       let opcode := opcode (op reduce) in
       let typecode := code (m_type A) in
       '(done, s) ←
         match GB_red_factory env opcode typecode with
         | Some true =>
             (* the specialized worker; by the spec it is the same
                reduction, monomorphized for the operator and the type *)
             s ← GB_worker_run env sched (GB_generic_macros reduce zsize)
                   GB_red_worker s A anz ntasks;
             mret (true, s)
         | Some false =>
             GB_log (Ev_worker GB_red_worker GrB_NO_VALUE);;
             mret (false, s)
         | None => mret (false, s)
         end;
       (* generic worker: sum up the entries, no typecasting *)
       if negb done then
         GB_worker_run env sched (GB_generic_macros reduce zsize)
           GB_generic_worker s A anz ntasks
       else mret s
     else
       (* generic worker: sum up the entries, with typecasting *)
       let cast_A_to_Z :=
         GB_cast_factory env (code ztype) (code (m_type A)) in
       GB_worker_run env sched
         (GB_typecast_macros reduce zsize asize cast_A_to_Z)
         GB_generic_typecast_worker s A anz ntasks);
  (* c = s or c = accum (c,s) *)
  st ← GB_get;
  let c := default [] (st_c st) in
  match accum with
  | None =>
      (* c = (ctype) s *)
      let cast_Z_to_C := GB_cast_factory env (code ctype) (code ztype) in
      GB_set_c (cast_Z_to_C s (size ctype))
  | Some accum =>
      let faccum := function accum in
      let cast_C_to_xaccum :=
        GB_cast_factory env (code (xtype accum)) (code ctype) in
      let cast_Z_to_yaccum :=
        GB_cast_factory env (code (ytype accum)) (code ztype) in
      let cast_zaccum_to_C :=
        GB_cast_factory env (code ctype) (code (op_ztype accum)) in
      (* xaccum = (accum->xtype) c *)
      let xaccum := cast_C_to_xaccum c (size ctype) in
      (* yaccum = (accum->ytype) s *)
      let yaccum := cast_Z_to_yaccum s zsize in
      (* zaccum = xaccum "+" yaccum *)
      let zaccum := faccum xaccum yaccum in
      (* c = (ctype) zaccum *)
      GB_set_c (cast_zaccum_to_C zaccum (size ctype))
  end;;
  (* free workspace and return result *)
  GB_log Ev_free;;
  mret GrB_SUCCESS.

(** ** Element-wise operations: GB_eWise *)

(** The built-in boolean type object. *)
Definition GrB_BOOL : GrB_Type :=
  {| code := GB_BOOL_code; size := 1; type_obj := 0 |}.

(** State of a call of [GB_eWise]: the matrices behind the pointers [C],
    [M] (NULL allowed), [A] and [B], and the log. *)
Record GB_eWise_state : Type := {
  ew_C : GrB_Matrix;
  ew_M : option GrB_Matrix;
  ew_A : GrB_Matrix;
  ew_B : GrB_Matrix;
  ew_log : list GB_event
}.

Definition GB_ew_log (e : GB_event) : GB_M GB_eWise_state unit :=
  GB_modify (fun st =>
    {| ew_C := ew_C st; ew_M := ew_M st; ew_A := ew_A st; ew_B := ew_B st;
       ew_log := ew_log st ++ [e] |}).

Definition GB_ew_set_C (C : GrB_Matrix) : GB_M GB_eWise_state unit :=
  GB_modify (fun st =>
    {| ew_C := C; ew_M := ew_M st; ew_A := ew_A st; ew_B := ew_B st;
       ew_log := ew_log st ++ [Ev_write] |}).

(** The matrix behind [M], [A] or [B] replaced by its finalized form. *)
Definition GB_ew_store_M (M : GrB_Matrix) (st : GB_eWise_state)
    : GB_eWise_state :=
  {| ew_C := ew_C st; ew_M := Some M; ew_A := ew_A st; ew_B := ew_B st;
     ew_log := ew_log st |}.

Definition GB_ew_store_A (A : GrB_Matrix) (st : GB_eWise_state)
    : GB_eWise_state :=
  {| ew_C := ew_C st; ew_M := ew_M st; ew_A := A; ew_B := ew_B st;
     ew_log := ew_log st |}.

Definition GB_ew_store_B (B : GrB_Matrix) (st : GB_eWise_state)
    : GB_eWise_state :=
  {| ew_C := ew_C st; ew_M := ew_M st; ew_A := ew_A st; ew_B := B;
     ew_log := ew_log st |}.

(** [GB_FREE_ALL ; return (GrB_OUT_OF_MEMORY)] of a failed [GB_OK], with
    [live] temporary matrices to release; otherwise the new matrix. *)
Definition GB_OK_new (live : nat) (r : option GrB_Matrix)
    : GB_M GB_eWise_state GrB_Matrix :=
  match r with
  | Some T => GB_ew_log (Ev_malloc 1);; mret T
  | None =>
      foldr (fun e k => GB_ew_log e;; k) (mret tt) (replicate live Ev_free);;
      GB_return GrB_OUT_OF_MEMORY
  end.

(** Modelled from the spec: the macro [GB_WAIT] is not among the sources;
    it finalizes in place a matrix that has pending tuples or zombies (NULL
    is left alone) and fails with out-of-memory.  [store] puts the
    finalized matrix back behind the pointer. *)
Definition GB_WAIT (env : GB_env) (A : option GrB_Matrix)
    (store : GrB_Matrix -> GB_eWise_state -> GB_eWise_state)
    : GB_M GB_eWise_state (option GrB_Matrix) :=
  match A with
  | None => mret None
  | Some A =>
      if (0 <? m_npending A) || (0 <? m_nzombies A) then
        match GB_Matrix_wait env A with
        | None => GB_return GrB_OUT_OF_MEMORY
        | Some A' =>
            GB_modify (store A');; GB_ew_log Ev_wait;; mret (Some A')
        end
      else mret (Some A)
  end.

(** Modelled from the spec: the macro [GB_RETURN_IF_QUICK_MASK] is not
    among the sources; the source comment reads "quick return if an empty
    mask M is complemented": nothing is admitted, so [C] is cleared when
    [C_replace] is set and left as it is otherwise. *)
Definition GB_RETURN_IF_QUICK_MASK (env : GB_env) (C_replace : bool)
    (Mask_comp : bool) : GB_M GB_eWise_state unit :=
  st ← GB_get;
  match ew_M st with
  | None =>
      if Mask_comp then
        if C_replace then
          match GB_clear env (ew_C st) with
          | Some C' => GB_ew_set_C C';; GB_return GrB_SUCCESS
          | None => GB_return GrB_OUT_OF_MEMORY
          end
        else GB_return GrB_SUCCESS
      else mret tt
  | Some _ => mret tt
  end.

Definition GB_eWise (env : GB_env) (C_replace : bool) (Mask_comp : bool)
    (accum : option GrB_BinaryOp) (op : GrB_BinaryOp)
    (A_transpose B_transpose : bool) (eWiseAdd : bool)
    : GB_M GB_eWise_state GrB_Info :=
  (* check inputs *)
  GB_RETURN_IF_FAULTY op_magic accum;;
  st ← GB_get;
  let C := ew_C st in
  let M := ew_M st in
  let A := ew_A st in
  let B := ew_B st in
  (* T has the same type as the output z for z=op(a,b) *)
  let T_type := ztype op in
  (* check domains and dimensions for C<M> = accum (C,T) *)
  GB_OK (GB_check_info
           (GB_compatible env (m_type C) (Some C) M accum T_type));;
  (* T=op(A,B) via op operator, so A and B must be compatible with
     z=op(a,b) *)
  GB_OK (GB_check_info
           (GB_BinaryOp_compatible env op None (m_type A) (m_type B)
              GB_BOOL_code));;
  (if eWiseAdd then
     (* C = A is done for entries in A but not C *)
     if negb (GB_Type_compatible env (m_type C) (m_type A))
     then GB_return GrB_DOMAIN_MISMATCH
     (* C = B is done for entries in B but not C *)
     else if negb (GB_Type_compatible env (m_type C) (m_type B))
     then GB_return GrB_DOMAIN_MISMATCH
     else mret tt
   else mret tt);;
  (* check the dimensions *)
  let anrows := if A_transpose then GB_NCOLS A else GB_NROWS A in
  let ancols := if A_transpose then GB_NROWS A else GB_NCOLS A in
  let bnrows := if B_transpose then GB_NCOLS B else GB_NROWS B in
  let bncols := if B_transpose then GB_NROWS B else GB_NCOLS B in
  let cnrows := GB_NROWS C in
  let cncols := GB_NCOLS C in
  (if negb (anrows =? bnrows) || negb (ancols =? bncols) ||
      negb (cnrows =? anrows) || negb (cncols =? bncols)
   then GB_return GrB_DIMENSION_MISMATCH
   else mret tt);;
  (* quick return if an empty mask M is complemented *)
  GB_RETURN_IF_QUICK_MASK env C_replace Mask_comp;;
  (* delete any lingering zombies and assemble any pending tuples *)
  M ← GB_WAIT env M GB_ew_store_M;
  A ← GB_WAIT env (Some A) GB_ew_store_A;
  B ← GB_WAIT env (Some B) GB_ew_store_B;
  let A := default (ew_A st) A in
  let B := default (ew_B st) B in
  (* handle CSR and CSC formats *)
  let C_is_csc := is_csc C in
  let A_transpose :=
    if negb (eqb C_is_csc (is_csc A)) then negb A_transpose
    else A_transpose in
  let B_transpose :=
    if negb (eqb C_is_csc (is_csc B)) then negb B_transpose
    else B_transpose in
  (* transpose the mask if needed *)
  let M_is_csc :=
    match M with None => C_is_csc | Some M => is_csc M end in
  MT ←
    match M return GB_M GB_eWise_state (option GrB_Matrix) with
    | Some M' =>
        if negb (eqb C_is_csc M_is_csc) || (A_transpose && B_transpose)
        then
          MT ← GB_OK_new 0 (GB_transpose env (Some GrB_BOOL) C_is_csc M');
          mret (Some MT)
        else mret None
    | None => mret None
    end;
  let live := match MT with Some _ => 1%nat | None => 0%nat end in
  T ←
    (if A_transpose then
       if B_transpose then
         (* T = A'+B', with flipped CSR/CSC format so GB_accum_mask does
            C=T' *)
         if eWiseAdd then
           GB_OK_new live
             (GB_add env T_type (negb C_is_csc)
                (if eqb M_is_csc C_is_csc then MT else M) Mask_comp
                A B op)
         else
           GB_OK_new live (GB_emult env T_type (negb C_is_csc) A B op)
       else
         (* T = A'+B *)
         AT ← GB_OK_new live (GB_transpose env None C_is_csc A);
         T ←
           (if eWiseAdd then
              GB_OK_new (S live)
                (GB_add env T_type C_is_csc
                   (if eqb M_is_csc C_is_csc then M else MT) Mask_comp
                   AT B op)
            else
              GB_OK_new (S live) (GB_emult env T_type C_is_csc AT B op));
         GB_ew_log Ev_free;;
         mret T
     else
       if B_transpose then
         (* T = A+B' *)
         BT ← GB_OK_new live (GB_transpose env None C_is_csc B);
         T ←
           (if eWiseAdd then
              GB_OK_new (S live)
                (GB_add env T_type C_is_csc
                   (if eqb M_is_csc C_is_csc then M else MT) Mask_comp
                   A BT op)
            else
              GB_OK_new (S live) (GB_emult env T_type C_is_csc A BT op));
         GB_ew_log Ev_free;;
         mret T
       else
         (* T = A+B *)
         if eWiseAdd then
           GB_OK_new live
             (GB_add env T_type C_is_csc
                (if eqb M_is_csc C_is_csc then M else MT) Mask_comp
                A B op)
         else
           GB_OK_new live (GB_emult env T_type C_is_csc A B op));
  (* C<M> = accum (C,T): accumulate the results into C via the M *)
  match GB_accum_mask env C M MT accum T C_replace Mask_comp with
  | Some C' =>
      GB_ew_set_C C';;
      (match MT with Some _ => GB_ew_log Ev_free | None => mret tt end);;
      mret GrB_SUCCESS
  | None =>
      (match MT with Some _ => GB_ew_log Ev_free | None => mret tt end);;
      mret GrB_OUT_OF_MEMORY
  end.

(** ** Masked Gustavson kernel: the hi-watermark workspace *)

Module Gustavson.

(** The per-thread scratch: [Sauna_Work [i]] holds the partial C(i,j),
    [Sauna_Mark [i]] its mark. *)
Record GB_Sauna : Type := {
  Sauna_Work : list Z;
  Sauna_Mark : list Z
}.

(** Array write [X [i] = v]. *)
Definition store (X : list Z) (i v : Z) : list Z := <[Z.to_nat i := v]> X.

Section Kernel.
(** The semiring: [mult aik bkj] is the multiply operator applied to
    A(i,k) and B(k,j), [add] the monoid. *)
Variable mult : Z -> Z -> Z.
Variable add : Z -> Z -> Z.

(** [GB_MULTADD_NOMASK]:
    [t = mult ; Sauna_Work [i] = add (Sauna_Work [i], t)]. *)
Definition GB_MULTADD_NOMASK (S : GB_Sauna) (i aik bkj : Z) : GB_Sauna :=
  let t := mult aik bkj in
  {| Sauna_Work := store (Sauna_Work S) i (add (arr (Sauna_Work S) i) t);
     Sauna_Mark := Sauna_Mark S |}.

(** [GB_MULTADD_WITH_MASK], with [mark] and [hiwater] in scope. *)
Definition GB_MULTADD_WITH_MASK (S : GB_Sauna) (mark hiwater : Z)
    (i aik bkj : Z) : GB_Sauna :=
  if mark =? hiwater then
    (* first time C(i,j) seen *)
    {| Sauna_Work := store (Sauna_Work S) i (mult aik bkj);
       Sauna_Mark := store (Sauna_Mark S) i (hiwater + 1) |}
  else
    (* C(i,j) seen before, update it *)
    GB_MULTADD_NOMASK S i aik bkj.

(** Modelled from the spec: the loop that expands the macro
    ([GB_AxB_Gustavson_meta.c]) is not among the sources.  Section 4.3:
    a position the mask does not admit is skipped, an admitted one goes
    through the macro; the marks of the admitted positions were set to
    [hiwater] when the mask column was checked. *)
Definition GB_saxpy_entry (hiwater : Z) (S : GB_Sauna)
    (e : Z * Z * Z) : GB_Sauna :=
  let '(i, aik, bkj) := e in
  let mark := arr (Sauna_Mark S) i in
  if mark <? hiwater then S           (* M(i,j) is not set: continue *)
  else GB_MULTADD_WITH_MASK S mark hiwater i aik bkj.

(** Modelled from the spec: all products A(i,k)*B(k,j) of one output
    vector, in the order the two nested loops meet them. *)
Definition GB_saxpy_vector (hiwater : Z) (S : GB_Sauna)
    (es : list (Z * Z * Z)) : GB_Sauna :=
  foldl (GB_saxpy_entry hiwater) S es.

(** Modelled from the spec: a slot is empty iff its mark is not
    [hiwater+1]. *)
Definition GB_slot_live (S : GB_Sauna) (hiwater i : Z) : bool :=
  arr (Sauna_Mark S) i =? hiwater + 1.

(** The products that land on position [i], in the order they are met. *)
Definition products (i : Z) (es : list (Z * Z * Z)) : list Z :=
  (fun e : Z * Z * Z => mult e.1.2 e.2) <$>
  filter (fun e : Z * Z * Z => e.1.1 = i) es.

(** Position [i] is a valid index of both arrays of the Sauna. *)
Definition in_bounds (S : GB_Sauna) (i : Z) : Prop :=
  0 <= i /\ (Z.to_nat i < length (Sauna_Work S))%nat /\
  (Z.to_nat i < length (Sauna_Mark S))%nat.

End Kernel.

(** The semiring of the generated file: max_rminus_uint8. *)
Definition uint8 (v : Z) : Z := v mod 256.

(** [Multiply: z = y - x], stored in a [uint8_t]. *)
Definition rminus_uint8 (aik bkj : Z) : Z := uint8 (bkj - aik).

(** [Add: cij = GB_IMAX (cij, z)]. *)
Definition max_uint8 (cij z : Z) : Z := GB_IMAX cij z.

Definition GB_MULTADD_WITH_MASK__max_rminus_uint8 :=
  GB_MULTADD_WITH_MASK rminus_uint8 max_uint8.

End Gustavson.

(** ** Dot-product multiply with a complemented mask *)

Module Dot2.

(** Modelled from the spec: the macro [GB_BINARY_SEARCH] is not among the
    sources; the spec says the mask entry is located by binary search.
    The call site shows that the macro narrows [pleft] and [pright] in
    place and leaves the position of the entry in [pleft].  [fuel] bounds
    the iterations of the [while (pleft < pright)] loop. *)
Fixpoint GB_BINARY_TRIM_SEARCH (fuel : nat) (i : Z) (X : list Z)
    (pleft pright : Z) : Z * Z :=
  match fuel with
  | O => (pleft, pright)
  | S fuel =>
      if pleft <? pright then
        let pmiddle := (pleft + pright) `quot` 2 in
        if arr X pmiddle <? i
        then GB_BINARY_TRIM_SEARCH fuel i X (pmiddle + 1) pright
        else GB_BINARY_TRIM_SEARCH fuel i X pleft pmiddle
      else (pleft, pright)
  end.

(** Modelled from the spec: the search, then
    [found = (pleft == pright && X [pleft] == i)]. *)
Definition GB_BINARY_SEARCH (i : Z) (X : list Z) (pleft pright : Z)
    : Z * Z * bool :=
  let '(pleft, pright) :=
    GB_BINARY_TRIM_SEARCH (Z.to_nat (pright - pleft)) i X pleft pright in
  let found := (pleft =? pright) && (arr X pleft =? i) in
  (pleft, pright, found).

Section Compmask.
(** [cast_M]: the mask value cast to [bool]. *)
Variable cast_M : GB_void -> bool.
Variable Mi : list Z.
Variable Mx : list GB_void.

(** Lines 90-106, for one vector A(:,i): the new [pM] and whether the
    body [GB_AxB_dot_cij.c] that computes C(i,j) is entered. *)
Definition GB_check_mask (pM pM_end : Z) (i : Z) : Z * bool :=
  let mij := false in
  let pright := pM_end - 1 in
  let '(pM, pright, found) := GB_BINARY_SEARCH i Mi pM pright in
  let mij := if found then cast_M (Mx !!! Z.to_nat pM) else mij in
  (pM, negb mij).

(** The loop over the vectors of A (in increasing [i]); [pM] is carried
    from one vector to the next.  Returns the [i] whose C(i,j) is
    computed. *)
Fixpoint GB_for_each_vector (pM pM_end : Z) (Avectors : list Z)
    : list Z :=
  match Avectors with
  | [] => []
  | i :: rest =>
      let '(pM, compute) := GB_check_mask pM pM_end i in
      (if compute then [i] else []) ++ GB_for_each_vector pM pM_end rest
  end.

(** Body of the loop over the vectors B(:,j) (lines 52-107).
    [bjnz = pB_end - pB_start]; [range] is [(cnz, cnz_last)] in phase 2
    and absent in phase 1; [(pM, pM_end)] is what [GB_lookup] found for
    M(:,j). *)
Definition GB_AxB_dot2_compmask_j (bjnz : Z) (range : option (Z * Z))
    (pM pM_end : Z) (Avectors : list Z) : list Z :=
  (* no work to do if B(:,j) is empty *)
  if bjnz =? 0 then []
  else
    match range with
    | Some (cnz, cnz_last) =>
        if cnz >? cnz_last then []
        else GB_for_each_vector pM pM_end Avectors
    | None => GB_for_each_vector pM pM_end Avectors
    end.

End Compmask.



(** Modelled from the spec: the iterator macros are not among the
    sources; by the data model [GBI_for_each_vector_with_iter] visits
    [k = 0 .. anvec-1], with [i = Ah [k]] when A is hypersparse and
    [i = k] otherwise. *)
Definition GB_vectors_of (A : GrB_Matrix) : list Z :=
  (fun k => if is_hyper A then arr (m_h A) k else k) <$> seqZ 0 (m_nvec A).

End Dot2.


(** ** GrB_Monoid_wait *)

(** [GrB_Monoid_wait (&monoid)]: [monoid] is a pointer to a handle, and
    the handle is a pointer to the monoid; either can be NULL.  The macro
    [GB_WHERE] is not among the sources and is a parameter here: the
    status with which it makes the function return, if it does. *)
Definition GrB_Monoid_wait {S} (GB_WHERE : option GrB_Info)
    (monoid : option (option GrB_Monoid)) : GB_M S GrB_Info :=
  (* check inputs *)
  match GB_WHERE with
  | Some info => GB_return info
  | None => mret tt
  end;;
  monoid ← GB_RETURN_IF_NULL monoid;
  _ ← GB_RETURN_IF_NULL_OR_FAULTY monoid_magic monoid;
  (* return result *)
  mret GrB_SUCCESS.

(** ** GB_cblas_saxpy: Y += alpha*X on dense float arrays *)

Module Dense.

(** [INT_MAX] of a 32-bit [int]. *)
Definition INT_MAX : Z := 2147483647.

Section Saxpy.
(** The C type [float] with its product and its sum. *)
Context {float : Type}.
Variable fmul fadd : float -> float -> float.

(** The routine [cblas_saxpy (n, alpha, x, incx, y, incy)] of the CBLAS
    library, which the source calls with the comment "y += alpha*x":
    [y [k*incy] = alpha * x [k*incx] + y [k*incy]] for [k = 0 .. n-1],
    for positive strides.  A position outside an array is left alone. *)
Definition cblas_saxpy (n : Z) (alpha : float) (X : list float) (incx : Z)
    (Y : list float) (incy : Z) : list float :=
  foldl (fun Y k =>
           match X !! Z.to_nat (k * incx) with
           | Some x =>
               alter (fun y => fadd (fmul alpha x) y) (Z.to_nat (k * incy)) Y
           | None => Y
           end)
    Y (seqZ 0 n).

(** The call of the loop body on the chunk that starts at [p]:
    [cblas_saxpy (chunk, alpha, X + p, 1, Y + p, 1)]. *)
Definition GB_cblas_saxpy_chunk (alpha : float) (X : list float)
    (chunk p : Z) (Y : list float) : list float :=
  take (Z.to_nat p) Y ++
  cblas_saxpy chunk alpha (drop (Z.to_nat p) X) 1 (drop (Z.to_nat p) Y) 1.

(** The loop [for (int64_t p = 0 ; p < n ; p += INT_MAX)] with
    [chunk = (int) GB_IMIN (n - p, INT_MAX)], for any effect [call] of the
    call it makes.  [fuel] bounds the number of iterations; [None] when it
    does not suffice. *)
Fixpoint GB_cblas_saxpy_loop {St} (call : Z -> Z -> St -> St) (fuel : nat)
    (n p : Z) (st : St) : option St :=
  match fuel with
  | O => if p <? n then None else Some st
  | S fuel =>
      if p <? n then
        let chunk := GB_IMIN (n - p) INT_MAX in
        GB_cblas_saxpy_loop call fuel n (p + INT_MAX) (call chunk p st)
      else Some st
  end.

(** The iterations the loop needs at most. *)
Definition GB_cblas_saxpy_fuel (n : Z) : nat := Z.to_nat (n `div` INT_MAX + 1).

(** [GB_cblas_saxpy (n, alpha, X, Y, nthreads)]: the new content of [Y].
    Without a CBLAS library ([GB_HAS_CBLAS] false) the function is a stub
    that does nothing. *)
Definition GB_cblas_saxpy (GB_HAS_CBLAS : bool) (n : Z) (alpha : float)
    (X Y : list float) (nthreads : Z) : option (list float) :=
  if GB_HAS_CBLAS then
    (* call saxpy in chunks of size 2^31 *)
    GB_cblas_saxpy_loop (GB_cblas_saxpy_chunk alpha X)
      (GB_cblas_saxpy_fuel n) n 0 Y
  else Some Y.

End Saxpy.

(** The calls the same loop makes, as [(p, chunk)] in program order. *)
Definition GB_cblas_saxpy_calls (n : Z) : option (list (Z * Z)) :=
  GB_cblas_saxpy_loop (fun chunk p calls => calls ++ [(p, chunk)])
    (GB_cblas_saxpy_fuel n) n 0 [].

(** The intervals [[p, p + chunk)] of [calls] follow one another from
    [from] to [to] with no gap and no overlap. *)
Fixpoint tiles (from : Z) (calls : list (Z * Z)) (to : Z) : Prop :=
  match calls with
  | [] => from = to
  | (p, chunk) :: calls => p = from /\ tiles (from + chunk) calls to
  end.

(** What [Y [j] += alpha * X [j]] makes of element [j] of [Y]. *)
Definition axpy_at {float} (fmul fadd : float -> float -> float)
    (alpha : float) (X Y : list float) (j : nat) : option float :=
  match X !! j with
  | Some x => (fun y => fadd (fmul alpha x) y) <$> Y !! j
  | None => Y !! j
  end.

(** What [Y += alpha*X] asks for on the first [n] elements. *)
Definition saxpy_of {float} (fmul fadd : float -> float -> float)
    (n : nat) (alpha : float) (X Y : list float) : list float :=
  zip_with (fun x y => fadd (fmul alpha x) y) (take n X) (take n Y) ++
  drop n Y.

End Dense.

(** ** GB_unop_apply__minv_uint32_uint32: Cx = op (cast (Ax)) *)

Module Unop.

(** The arrays a call can reach, by address: an array argument is an
    index into the heap, so that two arguments can be the same array
    ("Cx and Ax may be aliased"). *)
Abbreviation GB_heap := (list (list Z)) (only parsing).

(** A value stored in a [uint32_t]. *)
Definition uint32 (v : Z) : Z := v mod 2 ^ 32.

Section Minv.
(** The macro [GB_IMINV_UNSIGNED (x, bits)] is not among the sources; it
    is a parameter. *)
Variable GB_IMINV_UNSIGNED : Z -> Z -> Z.
(** The compile-time switches [GxB_NO_MINV] and [GxB_NO_UINT32]. *)
Variables GxB_NO_MINV GxB_NO_UINT32 : bool.
(** The order in which the iterations of the
    [#pragma omp parallel for] are run. *)
Variable schedule : list Z -> list Z.

(** Disable this operator and use the generic case if these conditions
    hold. *)
Definition GB_DISABLE : bool := GxB_NO_MINV || GxB_NO_UINT32.

(** [GB_CAST_OP (pC, pA)]:
    [aij = Ax [pA] ; z = aij ; Cx [pC] = GB_IMINV_UNSIGNED (z, 32)]. *)
Definition GB_CAST_OP (Cx Ax : nat) (heap : GB_heap) (pC pA : Z)
    : GB_heap :=
  let aij := arr (heap !!! Ax) pA in
  let z := uint32 aij in
  <[Cx := <[Z.to_nat pC := uint32 (GB_IMINV_UNSIGNED z 32)]> (heap !!! Cx)]>
    heap.

(** The body of the loop is the macro at [(p, p)]. *)
Definition GB_unop_apply__minv_uint32_uint32 (heap : GB_heap)
    (Cx Ax : nat) (anz : Z) (nthreads : Z) : GrB_Info * GB_heap :=
  if GB_DISABLE then (GrB_NO_VALUE, heap)
  else
    let heap :=
      foldl (fun heap p => GB_CAST_OP Cx Ax heap p p) heap
        (schedule (seqZ 0 anz)) in
    (GrB_SUCCESS, heap).

(** The operator on one value. *)
Definition minv_uint32 (aij : Z) : Z :=
  uint32 (GB_IMINV_UNSIGNED (uint32 aij) 32).

End Minv.

End Unop.

(** ** The generated semirings: Gustavson, dot-product and heap macros *)

(** max_rminus_uint8: [Z], [X] and [Y] type [uint8_t], multiply
    [z = y - x], add [cij = GB_IMAX (cij, z)]. *)
Module GB_AxB__max_rminus_uint8.
Import Gustavson.

Definition UINT8_MAX : Z := 255.

(** [GB_DOT_TERMINAL (cij)]: [if (cij == UINT8_MAX) break ;], the
    condition of the [break]. *)
Definition GB_DOT_TERMINAL (cij : Z) : bool := cij =? UINT8_MAX.

Definition GB_IDENTITY : Z := 0.

(** [GB_CLEARW]: [Sauna_Work [i] = identity]. *)
Definition GB_CLEARW (S : GB_Sauna) (i : Z) : GB_Sauna :=
  {| Sauna_Work := store (Sauna_Work S) i GB_IDENTITY;
     Sauna_Mark := Sauna_Mark S |}.

(** [GB_DOT_MULT (aki, bkj)]: [uint8_t t ; t = bkj - aki]. *)
Definition GB_DOT_MULT (aki bkj : Z) : Z := uint8 (bkj - aki).

(** [GB_DOT_ADD]: [cij = GB_IMAX (cij, t)]. *)
Definition GB_DOT_ADD (cij t : Z) : Z := GB_IMAX cij t.

(** [GB_DOT_COPY]: [cij = t]. *)
Definition GB_DOT_COPY (t : Z) : Z := t.

(** [GB_DOT_CLEAR]: [cij = 0]. *)
Definition GB_DOT_CLEAR : Z := 0.

(** [GB_CIJ_MULT (cij, aik, bkj)]: [cij = bkj - aik]. *)
Definition GB_CIJ_MULT (aik bkj : Z) : Z := uint8 (bkj - aik).

(** [GB_CIJ_MULTADD (cij, aik, bkj)]:
    [t = bkj - aik ; cij = GB_IMAX (cij, t)]. *)
Definition GB_CIJ_MULTADD (cij aik bkj : Z) : Z :=
  let t := uint8 (bkj - aik) in
  GB_IMAX cij t.

(** [GB_CIJ_CLEAR]: [cij = 0]. *)
Definition GB_CIJ_CLEAR : Z := 0.

End GB_AxB__max_rminus_uint8.

(** min_rdiv_int8: [Z], [X] and [Y] type [int8_t], multiply
    [z = GB_IDIV_SIGNED (y, x, 8)], add [cij = GB_IMIN (cij, z)]. *)
Module GB_AxB__min_rdiv_int8.
Import Gustavson.

Definition INT8_MAX : Z := 127.
Definition INT8_MIN : Z := -128.

(** A value stored in an [int8_t]. *)
Definition int8 (v : Z) : Z := (v + 128) mod 256 - 128.

Section Multiply.
(** The macro [GB_IDIV_SIGNED (x, y, bits)] is not among the sources; it
    is a parameter. *)
Variable GB_IDIV_SIGNED : Z -> Z -> Z -> Z.

(** [GB_DOT_TERMINAL (cij)]: [if (cij == INT8_MIN) break ;]. *)
Definition GB_DOT_TERMINAL (cij : Z) : bool := cij =? INT8_MIN.

Definition GB_IDENTITY : Z := INT8_MAX.

(** [Sauna_Work [i] = GB_IDIV_SIGNED (bkj, aik, 8)] and
    [int8_t t ; t = GB_IDIV_SIGNED (bkj, aik, 8)]. *)
Definition rdiv_int8 (aik bkj : Z) : Z := int8 (GB_IDIV_SIGNED bkj aik 8).

(** [Sauna_Work [i] = GB_IMIN (Sauna_Work [i], t)]. *)
Definition min_int8 (cij t : Z) : Z := GB_IMIN cij t.

Definition GB_MULTADD_NOMASK__min_rdiv_int8 :=
  GB_MULTADD_NOMASK rdiv_int8 min_int8.

Definition GB_MULTADD_WITH_MASK__min_rdiv_int8 :=
  GB_MULTADD_WITH_MASK rdiv_int8 min_int8.

(** [GB_CLEARW]: [Sauna_Work [i] = identity]. *)
Definition GB_CLEARW (S : GB_Sauna) (i : Z) : GB_Sauna :=
  {| Sauna_Work := store (Sauna_Work S) i GB_IDENTITY;
     Sauna_Mark := Sauna_Mark S |}.

(** [GB_DOT_MULT (aki, bkj)]: [int8_t t ; t = GB_IDIV_SIGNED (bkj, aki, 8)]. *)
Definition GB_DOT_MULT (aki bkj : Z) : Z := int8 (GB_IDIV_SIGNED bkj aki 8).

(** [GB_DOT_ADD]: [cij = GB_IMIN (cij, t)]. *)
Definition GB_DOT_ADD (cij t : Z) : Z := GB_IMIN cij t.

(** [GB_DOT_COPY]: [cij = t]. *)
Definition GB_DOT_COPY (t : Z) : Z := t.

(** [GB_DOT_CLEAR]: [cij = INT8_MAX]. *)
Definition GB_DOT_CLEAR : Z := INT8_MAX.

(** [GB_CIJ_MULT (cij, aik, bkj)]: [cij = GB_IDIV_SIGNED (bkj, aik, 8)]. *)
Definition GB_CIJ_MULT (aik bkj : Z) : Z := int8 (GB_IDIV_SIGNED bkj aik 8).

(** [GB_CIJ_MULTADD (cij, aik, bkj)]:
    [t = GB_IDIV_SIGNED (bkj, aik, 8) ; cij = GB_IMIN (cij, t)]. *)
Definition GB_CIJ_MULTADD (cij aik bkj : Z) : Z :=
  let t := int8 (GB_IDIV_SIGNED bkj aik 8) in
  GB_IMIN cij t.

(** [GB_CIJ_CLEAR]: [cij = INT8_MAX]. *)
Definition GB_CIJ_CLEAR : Z := INT8_MAX.

End Multiply.

End GB_AxB__min_rdiv_int8.

(** ** GB_sel__triu_any: moving one entry *)

Module GB_sel__triu_any.

(** [GB_SELECT_ENTRY (Cx, pC, Ax, pA)]:
    [memcpy (Cx +((pC)*asize), Ax +((pA)*asize), asize)], with [asize]
    in scope; the new content of [Cx]. *)
Definition GB_SELECT_ENTRY (asize : nat) (Cx : GB_void) (pC : Z)
    (Ax : GB_void) (pA : Z) : GB_void :=
  take (Z.to_nat pC * asize) Cx ++
  memcpy (drop (Z.to_nat pA * asize) Ax) asize ++
  drop (Z.to_nat pC * asize + asize) Cx.

(** The bytes of entry [p] of an array of values of [asize] bytes. *)
Definition entry (asize : nat) (X : GB_void) (p : Z) : GB_void :=
  take asize (drop (Z.to_nat p * asize) X).

End GB_sel__triu_any.

(** ** The MATLAB interface: gb_string_to_binop *)

Module Matlab.

Definition NUL : byte := "000"%byte.

(** The C string held at the start of a buffer: its bytes before the
    first NUL. *)
Fixpoint cstring (buf : list byte) : list byte :=
  match buf with
  | [] => []
  | c :: buf => if decide (c = NUL) then [] else c :: cstring buf
  end.

Section StringToBinop.
(** The callees are not among the sources; they are parameters.
    [gb_find_dot] returns [position [0]] and [position [1]]; a string
    argument is handed over as the C string it points to, a type as a
    pointer that can be NULL. *)
Variable gb_find_dot : list byte -> Z * Z.
Variable gb_default_type :
  option GrB_Type -> option GrB_Type -> option GrB_Type.
Variable gb_string_to_type : list byte -> option GrB_Type.
Variable gb_string_and_type_to_binop :
  list byte -> option GrB_Type -> option GrB_BinaryOp.

(** Returns the operator and the content of the buffer [opstring] after
    the call.  [op_name] and [op_typename] are offsets into the buffer
    ([None] for NULL). *)
Definition gb_string_to_binop (opstring : list byte)
    (atype btype : option GrB_Type) : option GrB_BinaryOp * list byte :=
  (* get the string and parse it *)
  let position := gb_find_dot opstring in
  let op_name := 0%nat in
  let '(opstring, op_typename) :=
    if 0 <=? position.1 then
      (<[Z.to_nat position.1 := NUL]> opstring,
       Some (Z.to_nat (position.1 + 1)))
    else (opstring, None) in
  (* get the operator type *)
  let type :=
    match op_typename with
    | None => gb_default_type atype btype
    | Some op_typename =>
        gb_string_to_type (cstring (drop op_typename opstring))
    end in
  (* convert the string to a GraphBLAS binary operator *)
  (gb_string_and_type_to_binop (cstring (drop op_name opstring)) type,
   opstring).

End StringToBinop.

End Matlab.

(** ** C<!M>=A'*B: the tasks and the vectors of B they go through *)

Module Dot2Tasks.

(** Lines 43-45 of GB_AxB_dot2_compmask.c: the vectors of [B] that a task
    with [b_taskid] goes through,
    [Iter_k = B_slice [b_taskid] .. B_slice [b_taskid+1] - 1]. *)
Definition GB_task_vectors (B_slice : list Z) (b_taskid : Z) : list Z :=
  seqZ (arr B_slice b_taskid)
    (arr B_slice (b_taskid + 1) - arr B_slice b_taskid).

(** Lines 13-46: the two collapsed loops over [a_taskid] and [b_taskid]
    and the loop over [Iter_k], in program order: the pairs
    [(a_taskid, Iter_k)] for which the body is run. *)
Definition GB_iterations (naslice nbslice : Z) (B_slice : list Z)
    : list (Z * Z) :=
  a_taskid ← seqZ 0 naslice;
  b_taskid ← seqZ 0 nbslice;
  Iter_k ← GB_task_vectors B_slice b_taskid;
  [(a_taskid, Iter_k)].




End Dot2Tasks.

(** ** Functional summaries of the orchestrators

    Pure restatements of parts of [GB_reduce_to_scalar] and [GB_eWise],
    proved below to agree with the monadic definitions above. *)

(** The entry checks of [GB_reduce_to_scalar] (lines 41-62): the status
    they return, if any. *)
Definition GB_reduce_entry (env : GB_env) (ctype : GrB_Type)
    (accum : option GrB_BinaryOp) (reduce : option GrB_Monoid)
    (st : GB_reduce_state) : option GrB_Info :=
  match reduce with
  | None => Some GrB_NULL_POINTER
  | Some rd =>
      match GB_faulty (monoid_magic rd) with
      | Some info => Some info
      | None =>
          match accum ≫= (fun a => GB_faulty (op_magic a)) with
          | Some info => Some info
          | None =>
              match st_c st with
              | None => Some GrB_NULL_POINTER
              | Some _ =>
                  match GB_compatible env ctype None None accum
                          (ztype (op rd)) with
                  | GB_check_ok =>
                      if GB_Type_compatible env (m_type (st_A st))
                           (ztype (op rd))
                      then None
                      else Some GrB_DOMAIN_MISMATCH
                  | r => Some (GB_check_info r)
                  end
              end
          end
      end
  end.

(** What [GB_MATRIX_WAIT] leaves behind when it succeeds. *)
Definition GB_finalized (env : GB_env) (A : GrB_Matrix)
    : option GrB_Matrix :=
  if (0 <? m_npending A) || (0 <? m_nzombies A)
  then GB_Matrix_wait env A else Some A.

Definition GB_wait_events (A : GrB_Matrix) : list GB_event :=
  if (0 <? m_npending A) || (0 <? m_nzombies A) then [Ev_wait] else [].

(** The task count of a call on the finalized matrix [A]. *)
Definition GB_ntasks_of (env : GB_env) (Context : GB_Context)
    (A : GrB_Matrix) : Z :=
  (GB_reduce_ntasks (GB_ngpus_to_use env (GB_NNZ A)) Context (GB_NNZ A)).2.

(** The macros in force when the template is expanded for [A]. *)
Definition GB_macros_of (env : GB_env) (rd : GrB_Monoid) (A : GrB_Matrix)
    : GB_reduce_macros :=
  let ztype := ztype (op rd) in
  if decide (m_type A = ztype)
  then GB_generic_macros rd (size ztype)
  else GB_typecast_macros rd (size ztype) (size (m_type A))
         (GB_cast_factory env (code ztype) (code (m_type A))).

(** The workers a call goes through for a matrix with entries. *)
Definition GB_workers_of (env : GB_env) (rd : GrB_Monoid) (A : GrB_Matrix)
    : list GB_event :=
  if decide (m_type A = ztype (op rd)) then
    match GB_red_factory env (opcode (op rd)) (code (m_type A)) with
    | Some true => [Ev_worker GB_red_worker GrB_SUCCESS]
    | Some false =>
        [Ev_worker GB_red_worker GrB_NO_VALUE;
         Ev_worker GB_generic_worker GrB_SUCCESS]
    | None => [Ev_worker GB_generic_worker GrB_SUCCESS]
    end
  else [Ev_worker GB_generic_typecast_worker GrB_SUCCESS].

(** The scalar [s] and the early-exit flag after lines 121-278. *)
Definition GB_reduce_value (env : GB_env) (sched : nat -> nat -> bool)
    (rd : GrB_Monoid) (Context : GB_Context) (A : GrB_Matrix)
    (early_exit : bool) : GB_void * bool :=
  let s := memcpy (identity rd) (size (ztype (op rd))) in
  if GB_NNZ A =? 0 then (s, early_exit)
  else
    GB_reduce_to_scalar_template (GB_macros_of env rd A) sched
      (GB_red_block env) s (take (Z.to_nat (GB_NNZ A)) (m_x A))
      (Z.to_nat (GB_NNZ A)) (Z.to_nat (GB_ntasks_of env Context A)).

(** [c = (ctype) s], or [c = accum (c, s)] with its three casts
    (lines 287-319). *)
Definition GB_accum_scalar (env : GB_env) (ctype : GrB_Type)
    (accum : option GrB_BinaryOp) (ztype : GrB_Type) (c s : GB_void)
    : GB_void :=
  match accum with
  | None => GB_cast_factory env (code ctype) (code ztype) s (size ctype)
  | Some accum =>
      GB_cast_factory env (code ctype) (code (op_ztype accum))
        (function accum
           (GB_cast_factory env (code (xtype accum)) (code ctype) c
              (size ctype))
           (GB_cast_factory env (code (ytype accum)) (code ztype) s
              (size ztype)))
        (size ctype)
  end.

(** The outcome of a call that passes the entry checks. *)
Definition GB_reduce_outcome (env : GB_env) (sched : nat -> nat -> bool)
    (ctype : GrB_Type) (accum : option GrB_BinaryOp) (rd : GrB_Monoid)
    (Context : GB_Context) (st : GB_reduce_state) (c : GB_void)
    : GrB_Info * GB_reduce_state :=
  match GB_finalized env (st_A st) with
  | None => (GrB_OUT_OF_MEMORY, st)
  | Some A =>
      let n := GB_ntasks_of env Context A *
               Z.of_nat (size (ztype (op rd))) in
      if GB_MALLOC env n then
        let '(s, early_exit) :=
          GB_reduce_value env sched rd Context A (st_early_exit st) in
        (GrB_SUCCESS,
         {| st_c := Some (GB_accum_scalar env ctype accum (ztype (op rd)) c s);
            st_A := A;
            st_early_exit := early_exit;
            st_log :=
              st_log st ++ GB_wait_events (st_A st) ++ [Ev_malloc n] ++
              (if GB_NNZ A =? 0 then [] else GB_workers_of env rd A) ++
              [Ev_write; Ev_free] |})
      else
        (GrB_OUT_OF_MEMORY,
         {| st_c := st_c st; st_A := A; st_early_exit := st_early_exit st;
            st_log := st_log st ++ GB_wait_events (st_A st) |})
  end.

(** A call that passes the entry checks, whose input finalizes to [A] and
    whose workspace can be allocated. *)
Record GB_reduce_admitted (env : GB_env) (ctype : GrB_Type)
    (accum : option GrB_BinaryOp) (reduce : option GrB_Monoid)
    (Context : GB_Context) (st : GB_reduce_state)
    (rd : GrB_Monoid) (c : GB_void) (A : GrB_Matrix) : Prop := {
  adm_reduce : reduce = Some rd;
  adm_c : st_c st = Some c;
  adm_entry : GB_reduce_entry env ctype accum reduce st = None;
  adm_wait : GB_finalized env (st_A st) = Some A;
  adm_malloc :
    GB_MALLOC env
      (GB_ntasks_of env Context A * Z.of_nat (size (ztype (op rd)))) = true
}.

(** The reads of [early_exit] agree with the flag: a task can only have
    seen it set if some task set it. *)
Definition GB_sched_consistent (sched : nat -> nat -> bool)
    (st' : GB_reduce_state) : Prop :=
  forall tid b, sched tid b = true -> st_early_exit st' = true.

(** No non-empty prefix of [l], added to [t] entry by entry, reaches the
    terminal value. *)
Definition GB_no_hit (mac : GB_reduce_macros) (t : GB_void)
    (l : list GB_void) : Prop :=
  forall l1 x l2, l = l1 ++ x :: l2 ->
    GB_PARALLEL_BREAK_IF_TERMINAL mac
      (GB_ADD_CAST_ARRAY_TO_SCALAR mac
         (foldl (GB_ADD_CAST_ARRAY_TO_SCALAR mac) t l1) x) = false.

(** The slice of task [tid]. *)
Definition GB_slice (Ax : list GB_void) (anz ntasks tid : nat)
    : list GB_void :=
  take ((GB_PARTITION anz tid ntasks).2 - (GB_PARTITION anz tid ntasks).1)
    (drop (GB_PARTITION anz tid ntasks).1 Ax).

(** The value an entry [a] of [A] contributes to the reduction: the entry
    itself when [A] has the type of the monoid, its typecast otherwise. *)
Definition GB_entry_value (env : GB_env) (rd : GrB_Monoid) (A : GrB_Matrix)
    (a : GB_void) : GB_void :=
  let ztype := ztype (op rd) in
  if decide (m_type A = ztype) then a
  else GB_cast_factory env (code ztype) (code (m_type A)) a
         (size (m_type A)).

(** The entry checks of [GB_eWise] (lines 51-107): the status they
    return, if any. *)
Definition GB_eWise_entry (env : GB_env) (accum : option GrB_BinaryOp)
    (op : GrB_BinaryOp) (A_transpose B_transpose : bool) (eWiseAdd : bool)
    (st : GB_eWise_state) : option GrB_Info :=
  let C := ew_C st in
  let A := ew_A st in
  let B := ew_B st in
  match accum ≫= (fun a => GB_faulty (op_magic a)) with
  | Some info => Some info
  | None =>
      match GB_compatible env (m_type C) (Some C) (ew_M st) accum
              (ztype op) with
      | GB_check_ok =>
          match GB_BinaryOp_compatible env op None (m_type A) (m_type B)
                  GB_BOOL_code with
          | GB_check_ok =>
              if eWiseAdd &&
                 negb (GB_Type_compatible env (m_type C) (m_type A) &&
                       GB_Type_compatible env (m_type C) (m_type B))
              then Some GrB_DOMAIN_MISMATCH
              else
                let anrows := if A_transpose then GB_NCOLS A else GB_NROWS A in
                let ancols := if A_transpose then GB_NROWS A else GB_NCOLS A in
                let bnrows := if B_transpose then GB_NCOLS B else GB_NROWS B in
                let bncols := if B_transpose then GB_NROWS B else GB_NCOLS B in
                if (anrows =? bnrows) && (ancols =? bncols) &&
                   (GB_NROWS C =? anrows) && (GB_NCOLS C =? bncols)
                then None
                else Some GrB_DIMENSION_MISMATCH
          | r => Some (GB_check_info r)
          end
      | r => Some (GB_check_info r)
      end
  end.


(** [env] with another type-compatibility test. *)
Definition GB_env_with_Type_compatible (env : GB_env)
    (compatible : GrB_Type -> GrB_Type -> bool) : GB_env :=
  {| GB_Type_compatible := compatible;
     GB_compatible := GB_compatible env;
     GB_BinaryOp_compatible := GB_BinaryOp_compatible env;
     GB_Matrix_wait := GB_Matrix_wait env;
     GB_ngpus_to_use := GB_ngpus_to_use env;
     GB_MALLOC := GB_MALLOC env;
     GB_cast_factory := GB_cast_factory env;
     GB_red_factory := GB_red_factory env;
     GB_red_block := GB_red_block env;
     GB_clear := GB_clear env;
     GB_transpose := GB_transpose env;
     GB_add := GB_add env;
     GB_emult := GB_emult env;
     GB_accum_mask := GB_accum_mask env |}.

(** The part of invariant 3 of the data model that the reduction relies
    on: [p] starts at 0, does not decrease, and stays within [x]. *)
Record GB_matrix_ok (A : GrB_Matrix) : Prop := {
  ok_nvec : 0 <= m_nvec A;
  ok_p0 : arr (m_p A) 0 = 0;
  ok_p_mono :
    forall k, 0 <= k -> k < m_nvec A -> arr (m_p A) k <= arr (m_p A) (k + 1);
  ok_p_end : arr (m_p A) (m_nvec A) <= Z.of_nat (length (m_x A))
}.

(** The laws of a monoid, on the values of its type ([size ztype] bytes),
    and of its terminal value if it has one. *)
Record GB_monoid_lawful (rd : GrB_Monoid) : Prop := {
  law_identity_size : length (identity rd) = size (ztype (op rd));
  law_closed : forall x y,
    length x = size (ztype (op rd)) -> length y = size (ztype (op rd)) ->
    length (function (op rd) x y) = size (ztype (op rd));
  law_assoc : forall x y z,
    length x = size (ztype (op rd)) -> length y = size (ztype (op rd)) ->
    length z = size (ztype (op rd)) ->
    function (op rd) (function (op rd) x y) z =
    function (op rd) x (function (op rd) y z);
  law_comm : forall x y,
    length x = size (ztype (op rd)) -> length y = size (ztype (op rd)) ->
    function (op rd) x y = function (op rd) y x;
  law_identity : forall x,
    length x = size (ztype (op rd)) ->
    function (op rd) (identity rd) x = x;
  law_terminal : forall t x,
    terminal rd = Some t ->
    length t = size (ztype (op rd)) /\
    (length x = size (ztype (op rd)) -> function (op rd) t x = t)
}.
(** ** The claims' own formulas, for comparison with the code *)



(** ** Concrete objects used in the examples *)

Module Ex.

Definition GrB_UINT8 : GrB_Type :=
  {| code := GB_UINT8_code; size := 1; type_obj := 2 |}.


(** A user-defined type of 3 bytes. *)
Definition MyType : GrB_Type :=
  {| code := GB_UDT_code; size := 3; type_obj := 100 |}.

(** The cast of a mask value to [bool]: true iff some byte is not zero. *)
Definition cast_bool (v : GB_void) : bool :=
  negb (forallb (Byte.eqb "000"%byte) v).

(** A 5-by-5 matrix by column holding only the mask column used below:
    M(1,0) = 1, M(3,0) = 0, M(4,0) = 1. *)
Definition mask5 : GrB_Matrix :=
  {| m_magic := GB_MAGIC; m_type := GrB_UINT8; m_nrows := 5; m_ncols := 5;
     is_csc := true; is_hyper := false; m_nvec := 5;
     m_h := []; m_p := [0; 3; 3; 3; 3; 3]; m_i := [1; 3; 4];
     m_x := [["001"%byte]; ["000"%byte]; ["001"%byte]];
     m_npending := 0; m_nzombies := 0 |}.

(** One [uint8_t] as a buffer. *)
Definition u8 (n : N) : GB_void :=
  [default "000"%byte (Byte.of_N (n mod 256))].

Arguments u8 : simpl never.

Definition lift_u8 (f : N -> N -> N) (x y : GB_void) : GB_void :=
  match x, y with
  | a :: _, b :: _ => u8 (f (Byte.to_N a) (Byte.to_N b))
  | [], _ => y
  | _, [] => x
  end.

Definition binop_u8 (f : N -> N -> N) (opc : GB_Opcode) : GrB_BinaryOp :=
  {| op_magic := GB_MAGIC; xtype := GrB_UINT8; ytype := GrB_UINT8;
     ztype := GrB_UINT8; function := lift_u8 f; opcode := opc |}.

Definition GrB_MAX_UINT8 : GrB_BinaryOp := binop_u8 N.max 7.
Definition GrB_PLUS_UINT8 : GrB_BinaryOp := binop_u8 N.add 9.

(** MAX over UINT8: identity 0, terminal 255. *)
Definition GxB_MAX_UINT8_MONOID : GrB_Monoid :=
  {| monoid_magic := GB_MAGIC; op := GrB_MAX_UINT8;
     identity := u8 0; terminal := Some (u8 255) |}.

(** PLUS over UINT8: identity 0, no terminal. *)
Definition GxB_PLUS_UINT8_MONOID : GrB_Monoid :=
  {| monoid_magic := GB_MAGIC; op := GrB_PLUS_UINT8;
     identity := u8 0; terminal := None |}.

(** Built-in types are compatible with each other, a user-defined type
    only with itself; every allocation succeeds; the specialized workers
    are disabled; casts between one-byte integer types keep the byte. *)
Definition env : GB_env :=
  let compatible := fun a b : GrB_Type =>
    bool_decide (a = b) ||
    (negb (bool_decide (code a = GB_UDT_code)) &&
     negb (bool_decide (code b = GB_UDT_code))) in
  {| GB_Type_compatible := compatible;
     GB_compatible := fun ctype _ _ _ ttype =>
       if compatible ctype ttype then GB_check_ok else GB_domain_mismatch;
     GB_BinaryOp_compatible := fun f _ atype btype _ =>
       if compatible (xtype f) atype && compatible (ytype f) btype
       then GB_check_ok else GB_domain_mismatch;
     GB_Matrix_wait := fun A => Some A;
     GB_ngpus_to_use := fun _ => 0;
     GB_MALLOC := fun _ => true;
     GB_cast_factory := fun _ _ x _ => x;
     GB_red_factory := fun _ _ => Some false;
     GB_red_block := 2;
     GB_clear := fun A => Some A;
     GB_transpose := fun _ _ A => Some A;
     GB_add := fun _ _ _ _ A _ _ => Some A;
     GB_emult := fun _ _ A _ _ => Some A;
     GB_accum_mask := fun _ _ _ _ T _ _ => Some T |}.

Definition Context : GB_Context := {| nthreads_max := 4; chunk := 2 |}.

(** A column vector of [type] holding [xs] in rows [0 .. length xs - 1]. *)
Definition vector (type : GrB_Type) (xs : list GB_void) : GrB_Matrix :=
  {| m_magic := GB_MAGIC; m_type := type;
     m_nrows := Z.of_nat (length xs); m_ncols := 1;
     is_csc := true; is_hyper := false; m_nvec := 1;
     m_h := []; m_p := [0; Z.of_nat (length xs)];
     m_i := seqZ 0 (Z.of_nat (length xs)); m_x := xs;
     m_npending := 0; m_nzombies := 0 |}.

(** The matrix [[1 2] [3 4]] held by column, by row, and by column in
    hypersparse form. *)
Definition A22_csc : GrB_Matrix :=
  {| m_magic := GB_MAGIC; m_type := GrB_UINT8; m_nrows := 2; m_ncols := 2;
     is_csc := true; is_hyper := false; m_nvec := 2;
     m_h := []; m_p := [0; 2; 4]; m_i := [0; 1; 0; 1];
     m_x := [u8 1; u8 3; u8 2; u8 4];
     m_npending := 0; m_nzombies := 0 |}.

Definition A22_csr : GrB_Matrix :=
  {| m_magic := GB_MAGIC; m_type := GrB_UINT8; m_nrows := 2; m_ncols := 2;
     is_csc := false; is_hyper := false; m_nvec := 2;
     m_h := []; m_p := [0; 2; 4]; m_i := [0; 1; 0; 1];
     m_x := [u8 1; u8 2; u8 3; u8 4];
     m_npending := 0; m_nzombies := 0 |}.

Definition A22_hyper : GrB_Matrix :=
  {| m_magic := GB_MAGIC; m_type := GrB_UINT8; m_nrows := 2; m_ncols := 2;
     is_csc := true; is_hyper := true; m_nvec := 2;
     m_h := [0; 1]; m_p := [0; 2; 4]; m_i := [0; 1; 0; 1];
     m_x := [u8 1; u8 3; u8 2; u8 4];
     m_npending := 0; m_nzombies := 0 |}.

(** The state of a call of [GB_reduce_to_scalar] with [c = 7]. *)
Definition reduce_state (A : GrB_Matrix) : GB_reduce_state :=
  {| st_c := Some (u8 7); st_A := A; st_early_exit := false; st_log := [] |}.

(** A user-defined operator [z = f (x, y)] with [x] of the user-defined
    type. *)
Definition user_op : GrB_BinaryOp :=
  {| op_magic := GB_MAGIC; xtype := MyType; ytype := GrB_UINT8;
     ztype := GrB_UINT8; function := fun x y => y; opcode := 0 |}.

(** The matrix [[1 2] [3 4]] with entries of the user-defined type. *)
Definition U22 : GrB_Matrix :=
  {| m_magic := GB_MAGIC; m_type := MyType; m_nrows := 2; m_ncols := 2;
     is_csc := true; is_hyper := false; m_nvec := 2;
     m_h := []; m_p := [0; 2; 4]; m_i := [0; 1; 0; 1];
     m_x := [u8 1 ++ u8 0 ++ u8 0; u8 3 ++ u8 0 ++ u8 0;
             u8 2 ++ u8 0 ++ u8 0; u8 4 ++ u8 0 ++ u8 0];
     m_npending := 0; m_nzombies := 0 |}.

Definition eWise_state (C A B : GrB_Matrix) : GB_eWise_state :=
  {| ew_C := C; ew_M := None; ew_A := A; ew_B := B; ew_log := [] |}.

(** A byte array from the values of its bytes. *)
Definition bytes (l : list N) : GB_void :=
  (fun n => default "000"%byte (Byte.of_N n)) <$> l.

(** The string "+.double" in a buffer, with its terminating NUL. *)
Definition plus_double : list byte :=
  bytes [43; 46; 100; 111; 117; 98; 108; 101; 0]%N.

(** A [gb_find_dot] for the examples: the position of the first '.' of
    the string, or -1; the second position is not looked for. *)
Fixpoint find_dot_from (k : Z) (s : list byte) : Z :=
  match s with
  | [] => -1
  | c :: s =>
      if decide (c = "046"%byte) then k
      else if decide (c = "000"%byte) then -1
      else find_dot_from (k + 1) s
  end.

Definition gb_find_dot (s : list byte) : Z * Z := (find_dot_from 0 s, -1).

Definition GrB_FP64 : GrB_Type :=
  {| code := GB_FP64_code; size := 8; type_obj := 10 |}.

(** A [gb_string_to_type] that knows "double" only. *)
Definition gb_string_to_type (s : list byte) : option GrB_Type :=
  if decide (s = bytes [100; 111; 117; 98; 108; 101]%N)
  then Some GrB_FP64 else None.

(** A [gb_string_and_type_to_binop] that knows "+" only. *)
Definition gb_string_and_type_to_binop (name : list byte)
    (type : option GrB_Type) : option GrB_BinaryOp :=
  match type with
  | Some t =>
      if decide (name = bytes [43]%N)
      then Some {| op_magic := GB_MAGIC; xtype := t; ytype := t;
                   ztype := t; function := fun x y => x; opcode := 9 |}
      else None
  | None => None
  end.

End Ex.

(** ** Further summaries *)

(** A matrix with no pending tuples and no zombies: [GB_MATRIX_WAIT] and
    [GB_WAIT] have nothing to do. *)
Definition GB_settled (A : GrB_Matrix) : bool :=
  negb ((0 <? m_npending A) || (0 <? m_nzombies A)).

(** The allocations of a log that are still live at its end: one more for
    each allocation, one less for each free. *)
Definition GB_live_allocations (log : list GB_event) : Z :=
  foldl (fun n e =>
           match e with
           | Ev_malloc _ => n + 1
           | Ev_free => n - 1
           | _ => n
           end) 0 log.

(** The transpose flag of an input once it is conformed to the format of
    [C] (lines 124-137 of GB_eWise.c). *)
Definition GB_conformed_transpose (C A : GrB_Matrix) (A_transpose : bool)
    : bool :=
  if negb (eqb (is_csc C) (is_csc A)) then negb A_transpose
  else A_transpose.

(** [env] with another [GB_transpose]. *)
Definition GB_env_with_transpose (env : GB_env)
    (transpose : option GrB_Type -> bool -> GrB_Matrix -> option GrB_Matrix)
    : GB_env :=
  {| GB_Type_compatible := GB_Type_compatible env;
     GB_compatible := GB_compatible env;
     GB_BinaryOp_compatible := GB_BinaryOp_compatible env;
     GB_Matrix_wait := GB_Matrix_wait env;
     GB_ngpus_to_use := GB_ngpus_to_use env;
     GB_MALLOC := GB_MALLOC env;
     GB_cast_factory := GB_cast_factory env;
     GB_red_factory := GB_red_factory env;
     GB_red_block := GB_red_block env;
     GB_clear := GB_clear env;
     GB_transpose := transpose;
     GB_add := GB_add env;
     GB_emult := GB_emult env;
     GB_accum_mask := GB_accum_mask env |}.

(** [env] with another allocator. *)
Definition GB_env_with_MALLOC (env : GB_env) (malloc : Z -> bool) : GB_env :=
  {| GB_Type_compatible := GB_Type_compatible env;
     GB_compatible := GB_compatible env;
     GB_BinaryOp_compatible := GB_BinaryOp_compatible env;
     GB_Matrix_wait := GB_Matrix_wait env;
     GB_ngpus_to_use := GB_ngpus_to_use env;
     GB_MALLOC := malloc;
     GB_cast_factory := GB_cast_factory env;
     GB_red_factory := GB_red_factory env;
     GB_red_block := GB_red_block env;
     GB_clear := GB_clear env;
     GB_transpose := GB_transpose env;
     GB_add := GB_add env;
     GB_emult := GB_emult env;
     GB_accum_mask := GB_accum_mask env |}.
(** * Properties *)

(** ** nzmax *)

(** C10: for every matrix object [G], [nzmax] returns the larger of the
    number of stored entries and 1; so it returns 1 for a matrix with no
    entry and never 0. *)
Theorem nzmax_is_max_entries_1 {opaque_t : Type} (gbnvals : opaque_t -> Z)
    (G : GrB.GrB opaque_t) :
  GrB.nzmax gbnvals G = Z.max (gbnvals (GrB.opaque G)) 1 /\
  (gbnvals (GrB.opaque G) = 0 -> GrB.nzmax gbnvals G = 1) /\
  GrB.nzmax gbnvals G <> 0.
Proof.
  unfold GrB.nzmax. split; [reflexivity|]. split.
  - intros ->. reflexivity.
  - lia.
Qed.

Lemma nzmax_is_max_entries_1_witness :
  let G := {| GrB.opaque := ([] : list Z) |} in
  let gbnvals := fun l : list Z => Z.of_nat (length l) in
  gbnvals (GrB.opaque G) = 0 /\ GrB.nzmax gbnvals G = 1.
Proof.
  split; [reflexivity|].
  apply (nzmax_is_max_entries_1 (fun l : list Z => Z.of_nat (length l))
           {| GrB.opaque := [] |}).
  reflexivity.
Defined.

(** ** The task count *)

Lemma GB_IMIN_min x y : GB_IMIN x y = Z.min x y.
Proof. unfold GB_IMIN. destruct (Z.ltb_spec x y); lia. Qed.

Lemma GB_IMAX_max x y : GB_IMAX x y = Z.max x y.
Proof.
  unfold GB_IMAX. rewrite Z.gtb_ltb. destruct (Z.ltb_spec y x); lia.
Qed.




(** ** The hi-watermark workspace of the masked Gustavson kernel *)

Section ArrayFacts.

Lemma arr_store_eq (X : list Z) (i v : Z) :
  (Z.to_nat i < length X)%nat -> arr (Gustavson.store X i v) i = v.
Proof.
  intros Hi. unfold arr, Gustavson.store.
  by rewrite list_lookup_total_insert_eq.
Qed.

Lemma arr_store_ne (X : list Z) (i j v : Z) :
  0 <= i -> 0 <= j -> i <> j -> arr (Gustavson.store X j v) i = arr X i.
Proof.
  intros Hi Hj Hne. unfold arr, Gustavson.store.
  rewrite list_lookup_total_insert_ne; [done|lia].
Qed.

Lemma length_store (X : list Z) (i v : Z) :
  length (Gustavson.store X i v) = length X.
Proof. apply length_insert. Qed.

End ArrayFacts.

Module GustavsonFacts.
Import Gustavson.

Section Kernel.
Variable mult : Z -> Z -> Z.
Variable add : Z -> Z -> Z.
Variable hiwater : Z.

Lemma saxpy_entry_bounds S e i :
  in_bounds S i -> in_bounds (GB_saxpy_entry mult add hiwater S e) i.
Proof.
  destruct e as [[i' a] b]. unfold in_bounds, GB_saxpy_entry,
    GB_MULTADD_WITH_MASK, GB_MULTADD_NOMASK.
  repeat case_match; cbn; rewrite ?length_store; done.
Qed.

(** An entry for another position leaves slot [i] alone. *)
Lemma saxpy_entry_other S i i' a b :
  0 <= i -> 0 <= i' -> i' <> i ->
  let S' := GB_saxpy_entry mult add hiwater S (i', a, b) in
  arr (Sauna_Work S') i = arr (Sauna_Work S) i /\
  arr (Sauna_Mark S') i = arr (Sauna_Mark S) i.
Proof.
  intros Hi Hi' Hne. unfold GB_saxpy_entry, GB_MULTADD_WITH_MASK,
    GB_MULTADD_NOMASK.
  repeat case_match; cbn; rewrite ?arr_store_ne by done; done.
Qed.

(** Once the slot is marked [hiwater+1], every further product is added
    to it. *)
Lemma saxpy_vector_seen es : forall S i,
  in_bounds S i ->
  Forall (fun e : Z * Z * Z => 0 <= e.1.1) es ->
  arr (Sauna_Mark S) i = hiwater + 1 ->
  let S' := GB_saxpy_vector mult add hiwater S es in
  arr (Sauna_Work S') i =
    foldl add (arr (Sauna_Work S) i) (products mult i es) /\
  arr (Sauna_Mark S') i = hiwater + 1.
Proof.
  induction es as [|[[i' a] b] es IH]; intros S i Hb Hes Hmark; [done|].
  apply Forall_cons_1 in Hes as [Hi' Hes]. cbn in Hi'.
  cbn [GB_saxpy_vector foldl]. unfold products.
  rewrite filter_cons. cbn [fst snd].
  pose proof (saxpy_entry_bounds S (i', a, b) i Hb) as Hb'.
  destruct (decide (i' = i)) as [->|Hne].
  - cbn [fmap list_fmap foldl fst snd].
    assert (Hstep : GB_saxpy_entry mult add hiwater S (i, a, b) =
              GB_MULTADD_NOMASK mult add S i a b).
    { unfold GB_saxpy_entry, GB_MULTADD_WITH_MASK. rewrite Hmark.
      destruct (Z.ltb_spec (hiwater + 1) hiwater); [lia|].
      destruct (Z.eqb_spec (hiwater + 1) hiwater); [lia|done]. }
    rewrite Hstep in *.
    destruct (IH (GB_MULTADD_NOMASK mult add S i a b) i Hb' Hes) as [HW HM].
    { cbn. done. }
    unfold GB_saxpy_vector in HW, HM. rewrite HW, HM. split; [|done].
    cbn. rewrite arr_store_eq by apply Hb. done.
  - destruct (saxpy_entry_other S i i' a b) as [HW0 HM0];
      [apply Hb|done|done|].
    destruct (IH _ i Hb' Hes) as [HW HM]; [by rewrite HM0|].
    unfold GB_saxpy_vector in HW, HM. rewrite HW, HM, HW0. done.
Qed.

(** A slot the mask admits and that was not seen yet. *)
Lemma saxpy_vector_unseen es : forall S i,
  in_bounds S i ->
  Forall (fun e : Z * Z * Z => 0 <= e.1.1) es ->
  arr (Sauna_Mark S) i = hiwater ->
  let S' := GB_saxpy_vector mult add hiwater S es in
  match products mult i es with
  | [] =>
      arr (Sauna_Work S') i = arr (Sauna_Work S) i /\
      arr (Sauna_Mark S') i = hiwater
  | m :: ms =>
      arr (Sauna_Work S') i = foldl add m ms /\
      arr (Sauna_Mark S') i = hiwater + 1
  end.
Proof.
  induction es as [|[[i' a] b] es IH]; intros S i Hb Hes Hmark; [done|].
  apply Forall_cons_1 in Hes as [Hi' Hes]. cbn in Hi'.
  cbn [GB_saxpy_vector foldl]. unfold products.
  rewrite filter_cons. cbn [fst snd].
  pose proof (saxpy_entry_bounds S (i', a, b) i Hb) as Hb'.
  destruct (decide (i' = i)) as [->|Hne].
  - cbn [fmap list_fmap foldl fst snd].
    assert (Hstep : GB_saxpy_entry mult add hiwater S (i, a, b) =
              {| Sauna_Work := store (Sauna_Work S) i (mult a b);
                 Sauna_Mark := store (Sauna_Mark S) i (hiwater + 1) |}).
    { unfold GB_saxpy_entry, GB_MULTADD_WITH_MASK. rewrite Hmark.
      rewrite Z.ltb_irrefl, Z.eqb_refl. done. }
    rewrite Hstep in *.
    match goal with |- context [foldl _ ?S0 es] =>
      destruct (saxpy_vector_seen es S0 i Hb' Hes) as [HW HM] end.
    { cbn. apply arr_store_eq, Hb. }
    unfold GB_saxpy_vector in HW, HM. rewrite HW, HM. split; [|done].
    cbn. rewrite arr_store_eq by apply Hb. done.
  - destruct (saxpy_entry_other S i i' a b) as [HW0 HM0];
      [apply Hb|done|done|].
    specialize (IH (GB_saxpy_entry mult add hiwater S (i', a, b)) i Hb' Hes).
    rewrite HM0 in IH. specialize (IH Hmark).
    unfold GB_saxpy_vector, products in IH.
    destruct (_ <$> filter _ es); rewrite <- ?HW0; exact IH.
Qed.

(** A slot the mask does not admit is never touched. *)
Lemma saxpy_vector_rejected es : forall S i,
  0 <= i ->
  Forall (fun e : Z * Z * Z => 0 <= e.1.1) es ->
  arr (Sauna_Mark S) i < hiwater ->
  let S' := GB_saxpy_vector mult add hiwater S es in
  arr (Sauna_Work S') i = arr (Sauna_Work S) i /\
  arr (Sauna_Mark S') i = arr (Sauna_Mark S) i.
Proof.
  induction es as [|[[i' a] b] es IH]; intros S i Hi Hes Hmark; [done|].
  apply Forall_cons_1 in Hes as [Hi' Hes]. cbn in Hi'.
  cbn [GB_saxpy_vector foldl].
  destruct (decide (i' = i)) as [->|Hne].
  - assert (Hstep : GB_saxpy_entry mult add hiwater S (i, a, b) = S).
    { unfold GB_saxpy_entry.
      destruct (Z.ltb_spec (arr (Sauna_Mark S) i) hiwater); [done|lia]. }
    rewrite Hstep. by apply IH.
  - destruct (saxpy_entry_other S i i' a b) as [HW0 HM0]; [done..|].
    destruct (IH (GB_saxpy_entry mult add hiwater S (i', a, b)) i Hi Hes)
      as [HW HM]; [by rewrite HM0|].
    unfold GB_saxpy_vector in HW, HM. rewrite HW, HM. done.
Qed.

End Kernel.
End GustavsonFacts.

(** C3: in the masked Gustavson kernel, at a position (i,j) the mask
    admits, the first product of the current output vector is written to
    [Sauna_Work [i]] as it is (the identity is not involved) and the mark
    becomes [hiwater+1]; every later product for the same position is
    combined with [add]; a slot whose mark is not [hiwater+1] counts as
    empty, so the value gathered for (i,j) does not depend on what the
    workspace held before the vector was started. *)
Theorem masked_multadd_hiwater (mult add : Z -> Z -> Z) (hiwater : Z)
    (S : Gustavson.GB_Sauna) (i : Z) (es : list (Z * Z * Z)) :
  Gustavson.in_bounds S i ->
  Forall (fun e : Z * Z * Z => 0 <= e.1.1) es ->
  arr (Gustavson.Sauna_Mark S) i = hiwater ->
  (forall aik bkj,
     Gustavson.GB_MULTADD_WITH_MASK mult add S hiwater hiwater i aik bkj =
       {| Gustavson.Sauna_Work :=
            Gustavson.store (Gustavson.Sauna_Work S) i (mult aik bkj);
          Gustavson.Sauna_Mark :=
            Gustavson.store (Gustavson.Sauna_Mark S) i (hiwater + 1) |}) /\
  (forall S1 aik bkj,
     Gustavson.GB_MULTADD_WITH_MASK mult add S1 (hiwater + 1) hiwater
         i aik bkj =
       {| Gustavson.Sauna_Work :=
            Gustavson.store (Gustavson.Sauna_Work S1) i
              (add (arr (Gustavson.Sauna_Work S1) i) (mult aik bkj));
          Gustavson.Sauna_Mark := Gustavson.Sauna_Mark S1 |}) /\
  (let S' := Gustavson.GB_saxpy_vector mult add hiwater S es in
   match Gustavson.products mult i es with
   | [] => Gustavson.GB_slot_live S' hiwater i = false
   | m :: ms =>
       Gustavson.GB_slot_live S' hiwater i = true /\
       arr (Gustavson.Sauna_Work S') i = foldl add m ms
   end) /\
  (forall i', 0 <= i' -> arr (Gustavson.Sauna_Mark S) i' < hiwater ->
     let S' := Gustavson.GB_saxpy_vector mult add hiwater S es in
     Gustavson.GB_slot_live S' hiwater i' = false /\
     arr (Gustavson.Sauna_Work S') i' = arr (Gustavson.Sauna_Work S) i').
Proof.
  intros Hb Hes Hmark. split; [|split; [|split]].
  - intros aik bkj. unfold Gustavson.GB_MULTADD_WITH_MASK.
    by rewrite Z.eqb_refl.
  - intros S1 aik bkj. unfold Gustavson.GB_MULTADD_WITH_MASK.
    destruct (Z.eqb_spec (hiwater + 1) hiwater); [lia|done].
  - pose proof (GustavsonFacts.saxpy_vector_unseen mult add hiwater es S i
                  Hb Hes Hmark) as H.
    cbv zeta in *. unfold Gustavson.GB_slot_live.
    destruct (Gustavson.products mult i es) as [|m ms].
    + destruct H as [_ ->]. apply Z.eqb_neq. lia.
    + destruct H as [-> ->]. by rewrite Z.eqb_refl.
  - intros i' Hi' Hrej.
    destruct (GustavsonFacts.saxpy_vector_rejected mult add hiwater es S i'
                Hi' Hes Hrej) as [HW HM].
    cbv zeta in *. unfold Gustavson.GB_slot_live. rewrite HW, HM.
    split; [|done]. apply Z.eqb_neq. lia.
Qed.

(** The same on the generated semiring max_rminus_uint8, with a workspace
    left dirty by earlier vectors: slot 1 is admitted, slot 0 is not. *)
Lemma masked_multadd_hiwater_witness :
  let S := {| Gustavson.Sauna_Work := [77; 200; 13];
              Gustavson.Sauna_Mark := [3; 6; 5] |} in
  let es := [(1, 10, 3); (0, 1, 2); (1, 7, 9); (1, 250, 4)] in
  let S' := Gustavson.GB_saxpy_vector Gustavson.rminus_uint8
              Gustavson.max_uint8 6 S es in
  arr (Gustavson.Sauna_Mark S) 1 = 6 /\
  Gustavson.GB_slot_live S' 6 1 = true /\
  arr (Gustavson.Sauna_Work S') 1 = 249 /\
  arr (Gustavson.Sauna_Work S') 0 = 77.
Proof.
  intros S es S'.
  assert (Hb : Gustavson.in_bounds S 1)
    by (unfold Gustavson.in_bounds; simpl; lia).
  assert (Hes : Forall (fun e : Z * Z * Z => 0 <= e.1.1) es)
    by (repeat constructor; simpl; lia).
  assert (Hmark : arr (Gustavson.Sauna_Mark S) 1 = 6) by reflexivity.
  destruct (masked_multadd_hiwater Gustavson.rminus_uint8
              Gustavson.max_uint8 6 S 1 es Hb Hes Hmark) as (_ & _ & H & _).
  split; [exact Hmark|]. split; [apply H|]. split; [apply H|reflexivity].
Defined.

(** ** The complemented mask of the dot-product multiply *)

Module Dot2Facts.
Import Dot2.



Section Compmask.
Variable cast_M : GB_void -> bool.
Variable Mi : list Z.
Variable Mx : list GB_void.






End Compmask.
End Dot2Facts.


Example dot2_compmask_mask5 :
  Dot2.GB_AxB_dot2_compmask_j Ex.cast_bool (m_i Ex.mask5) (m_x Ex.mask5)
    2 None 0 3 (Dot2.GB_vectors_of Ex.mask5) = [0; 2; 3].
Proof. reflexivity. Qed.


(** ** GB_reduce_to_scalar: the run of a call *)

(** Membership in an explicit list. *)
Ltac in_list := apply list_elem_of_In; simpl; tauto.

(** Membership in a list built with [++] and [::]. *)
Ltac set_in := rewrite ?elem_of_app, ?elem_of_cons; intuition auto.

Ltac gb_unfold :=
  unfold GB_run, GB_RETURN_IF_NULL_OR_FAULTY, GB_RETURN_IF_FAULTY,
    GB_RETURN_IF_NULL, GB_OK, GB_return, GB_get, GB_modify,
    mbind, GB_M_bind, mret, GB_M_ret in *.

(** A call stopped by an entry check returns the status of that check and
    leaves the state as it was. *)
Lemma reduce_entry_stops env sched ctype accum reduce Context st info :
  GB_reduce_entry env ctype accum reduce st = Some info ->
  GB_run (GB_reduce_to_scalar env sched ctype accum reduce Context) st =
    (info, st).
Proof.
  unfold GB_reduce_entry, GB_reduce_to_scalar. gb_unfold.
  intros H. destruct reduce as [rd|]; [|by simplify_eq].
  cbn in *. destruct (GB_faulty (monoid_magic rd)); [by simplify_eq|].
  destruct accum as [a|]; cbn in *.
  - destruct (GB_faulty (op_magic a)); [by simplify_eq|].
    destruct (st_c st); [|by simplify_eq].
    destruct (GB_compatible env ctype None None (Some a) (ztype (op rd)));
      cbn in *; [|by simplify_eq..].
    destruct (GB_Type_compatible env _ _); by simplify_eq.
  - destruct (st_c st); [|by simplify_eq].
    destruct (GB_compatible env ctype None None None (ztype (op rd)));
      cbn in *; [|by simplify_eq..].
    destruct (GB_Type_compatible env _ _); by simplify_eq.
Qed.

Lemma reduce_state_eta st :
  {| st_c := st_c st; st_A := st_A st; st_early_exit := st_early_exit st;
     st_log := st_log st |} = st.
Proof. by destruct st. Qed.


Lemma reduce_entry_passes env sched ctype accum rd Context st c :
  GB_reduce_entry env ctype accum (Some rd) st = None ->
  st_c st = Some c ->
  GB_run (GB_reduce_to_scalar env sched ctype accum (Some rd) Context) st =
    GB_reduce_outcome env sched ctype accum rd Context st c.
Proof.
  unfold GB_reduce_entry, GB_reduce_to_scalar, GB_reduce_outcome,
    GB_finalized, GB_wait_events, GB_MATRIX_WAIT, GB_ntasks_of,
    GB_reduce_value, GB_worker_run, GB_macros_of, GB_workers_of,
    GB_log, GB_set_A, GB_set_c, GB_set_early_exit, GB_ntasks_of.
  intros Hentry Hc. gb_unfold.
  destruct st as [c0 A0 ee0 log0]. cbn in *. subst c0.
  destruct (GB_faulty (monoid_magic rd)); [done|].
  destruct (GB_compatible env ctype None None accum (ztype (op rd)))
    eqn:Hcompat;
    [|destruct accum as [a|]; cbn in *;
      [destruct (GB_faulty (op_magic a))|]; done..].
  destruct (GB_Type_compatible env _ _) eqn:Htc;
    [|destruct accum as [a|]; cbn in *;
      [destruct (GB_faulty (op_magic a))|]; done].
  assert (Hfaulty : forall a, accum = Some a -> GB_faulty (op_magic a) = None).
  { intros a ->. cbn in *. by destruct (GB_faulty (op_magic a)). }
  clear Hentry.
  destruct accum as [a|]; [rewrite (Hfaulty a eq_refl)|]; cbn.
  all: destruct (decide (GrB_SUCCESS = GrB_SUCCESS)); [|done]; cbn.
  all: rewrite Htc; cbn.
  all: destruct ((0 <? m_npending A0) || (0 <? m_nzombies A0)) eqn:Hpend.
  all: try (destruct (GB_Matrix_wait env A0) as [A|] eqn:Hwait; [|done]).
  all: cbn.
  all: match goal with |- context [GB_reduce_ntasks ?g ?c ?n] =>
         destruct (GB_reduce_ntasks g c n) as [nthreads ntasks] end; cbn.
  all: destruct (GB_MALLOC env _); cbn; [|by rewrite ?app_nil_r].
  all: destruct (_ =? 0); cbn.
  all: try (destruct (decide (_ = _)); cbn;
            [destruct (GB_red_factory env _ _) as [[|]|]; cbn|]).
  all: try (destruct (GB_reduce_to_scalar_template _ _ _ _ _ _ _)
              as [s ee]; cbn).
  all: rewrite <- ?app_assoc; cbn; try done.
Qed.

Lemma reduce_entry_status env ctype accum reduce st info :
  GB_reduce_entry env ctype accum reduce st = Some info ->
  info ∈ [GrB_NULL_POINTER; GrB_INVALID_OBJECT; GrB_UNINITIALIZED_OBJECT;
          GrB_DOMAIN_MISMATCH; GrB_DIMENSION_MISMATCH].
Proof.
  unfold GB_reduce_entry. intros H.
  assert (Hfaulty : forall m e, GB_faulty m = Some e ->
            e ∈ [GrB_NULL_POINTER; GrB_INVALID_OBJECT;
                 GrB_UNINITIALIZED_OBJECT; GrB_DOMAIN_MISMATCH;
                 GrB_DIMENSION_MISMATCH]).
  { intros [] e He; simplify_eq/=; in_list. }
  destruct reduce as [rd|]; [|simplify_eq; in_list].
  destruct (GB_faulty (monoid_magic rd)) eqn:Hrd;
    [simplify_eq; by eapply Hfaulty|].
  destruct accum as [a|]; cbn in H.
  - destruct (GB_faulty (op_magic a)) eqn:Ha;
      [simplify_eq; by eapply Hfaulty|].
    destruct (st_c st); [|simplify_eq; in_list].
    destruct (GB_compatible env _ _ _ _ _); cbn in H;
      [destruct (GB_Type_compatible env _ _)|..]; simplify_eq; in_list.
  - destruct (st_c st); [|simplify_eq; in_list].
    destruct (GB_compatible env _ _ _ _ _); cbn in H;
      [destruct (GB_Type_compatible env _ _)|..]; simplify_eq; in_list.
Qed.

Lemma reduce_entry_None env ctype accum reduce st :
  GB_reduce_entry env ctype accum reduce st = None ->
  exists rd c, reduce = Some rd /\ st_c st = Some c.
Proof.
  unfold GB_reduce_entry. intros H.
  destruct reduce as [rd|]; [|done].
  destruct (GB_faulty _); [done|]. destruct (accum ≫= _); [done|].
  destruct (st_c st) as [c|]; [|done]. by exists rd, c.
Qed.

(** Past the entry checks a call ends in success or out-of-memory. *)
Lemma reduce_outcome_status env sched ctype accum rd Context st c :
  (GB_reduce_outcome env sched ctype accum rd Context st c).1
    ∈ [GrB_SUCCESS; GrB_OUT_OF_MEMORY].
Proof.
  unfold GB_reduce_outcome.
  destruct (GB_finalized env (st_A st)); [|in_list].
  destruct (GB_MALLOC env _); [|in_list].
  destruct (GB_reduce_value _ _ _ _ _ _). in_list.
Qed.

(** The run of an admitted call. *)
Lemma reduce_admitted_run env sched ctype accum reduce Context st rd c A :
  GB_reduce_admitted env ctype accum reduce Context st rd c A ->
  GB_run (GB_reduce_to_scalar env sched ctype accum reduce Context) st =
    (GrB_SUCCESS,
     {| st_c :=
          Some (GB_accum_scalar env ctype accum (ztype (op rd)) c
                  (GB_reduce_value env sched rd Context A
                     (st_early_exit st)).1);
        st_A := A;
        st_early_exit :=
          (GB_reduce_value env sched rd Context A (st_early_exit st)).2;
        st_log :=
          st_log st ++ GB_wait_events (st_A st) ++
          [Ev_malloc (GB_ntasks_of env Context A *
                      Z.of_nat (size (ztype (op rd))))] ++
          (if GB_NNZ A =? 0 then [] else GB_workers_of env rd A) ++
          [Ev_write; Ev_free] |}).
Proof.
  intros [-> Hc Hentry Hwait Hmalloc].
  rewrite (reduce_entry_passes _ _ _ _ _ _ _ c Hentry Hc).
  unfold GB_reduce_outcome. rewrite Hwait, Hmalloc.
  by destruct (GB_reduce_value _ _ _ _ _ _).
Qed.

(** ** The reduction template *)

Lemma GB_blocks_concat {X} (n : nat) : forall fuel (l : list X),
  (1 <= n)%nat -> (length l <= fuel)%nat ->
  concat (GB_blocks fuel n l) = l.
Proof.
  induction fuel as [|fuel IH]; intros l Hn Hlen.
  - destruct l; [done|cbn in Hlen; lia].
  - destruct l as [|x l]; [done|]. cbn [GB_blocks concat].
    rewrite IH; [apply take_drop|done|].
    rewrite length_drop. cbn in *. lia.
Qed.

(** The slices cover the entries: every position belongs to a task. *)
Lemma partition_covers (anz ntasks k : nat) :
  (1 <= ntasks)%nat -> (k < anz)%nat ->
  exists tid, (tid < ntasks)%nat /\
    ((GB_PARTITION anz tid ntasks).1 <= k < (GB_PARTITION anz tid ntasks).2)%nat.
Proof.
  intros Hn Hk. unfold GB_PARTITION. cbn [fst snd].
  assert (Hgen : forall n, (k < (n * anz) `div` ntasks)%nat ->
            exists tid, (tid < n)%nat /\
              ((tid * anz) `div` ntasks <= k < (S tid * anz) `div` ntasks)%nat).
  { induction n as [|n IH]; intros Hlt.
    - cbn in Hlt. rewrite Nat.Div0.div_0_l in Hlt. lia.
    - destruct (decide (k < (n * anz) `div` ntasks)%nat) as [Hlow|Hhigh].
      + destruct (IH Hlow) as (tid & ? & ?). exists tid. split; [lia|done].
      + exists n. split; [lia|]. lia. }
  apply Hgen. rewrite (Nat.mul_comm ntasks anz), Nat.div_mul by lia. done.
Qed.

Lemma partition_mono (anz ntasks tid : nat) :
  ((GB_PARTITION anz tid ntasks).1 <= (GB_PARTITION anz tid ntasks).2)%nat.
Proof.
  unfold GB_PARTITION. cbn [fst snd].
  apply Nat.Div0.div_le_mono. lia.
Qed.

(** Put back together, the slices are the entries. *)
Lemma slices_concat (Ax : list GB_void) (anz ntasks : nat) :
  (1 <= ntasks)%nat -> length Ax = anz ->
  concat (GB_slice Ax anz ntasks <$> seq 0 ntasks) = Ax.
Proof.
  intros Hn Hlen.
  assert (Hgen : forall n,
            concat (GB_slice Ax anz ntasks <$> seq 0 n) =
            take ((n * anz) `div` ntasks) Ax).
  { induction n as [|n IH].
    - cbn. by rewrite Nat.Div0.div_0_l.
    - rewrite seq_S, fmap_app, concat_app, IH, Nat.add_0_l.
      cbn [fmap list_fmap concat].
      rewrite app_nil_r. unfold GB_slice, GB_PARTITION. cbn [fst snd].
      rewrite take_take_drop. f_equal.
      pose proof (partition_mono anz ntasks n) as Hm.
      unfold GB_PARTITION in Hm. cbn [fst snd] in Hm. lia. }
  rewrite Hgen, (Nat.mul_comm ntasks anz), Nat.div_mul by lia.
  apply take_ge. lia.
Qed.

Section TemplateFacts.
Variable mac : GB_reduce_macros.
Variable sched : nat -> nat -> bool.

Local Abbreviation ADD := (GB_ADD_CAST_ARRAY_TO_SCALAR mac).
Local Abbreviation TERM := (GB_PARALLEL_BREAK_IF_TERMINAL mac).
Local Abbreviation COPY := (GB_COPY_SCALAR_TO_ARRAY mac).
Local Abbreviation COMB := (GB_ADD_ARRAY_TO_SCALAR mac).

Lemma no_hit_nil t : GB_no_hit mac t [].
Proof. intros l1 x l2 H. by destruct l1. Qed.

Lemma no_hit_cons t a l :
  TERM (ADD t a) = false -> GB_no_hit mac (ADD t a) l ->
  GB_no_hit mac t (a :: l).
Proof.
  intros Ha Hl l1 x l2 H. destruct l1 as [|y l1]; simplify_eq/=; [done|].
  by eapply Hl.
Qed.

Lemma no_hit_app t l k :
  GB_no_hit mac t l -> GB_no_hit mac (foldl ADD t l) k ->
  GB_no_hit mac t (l ++ k).
Proof.
  revert t. induction l as [|a l IH]; intros t Hl Hk; [done|].
  cbn. apply no_hit_cons.
  - by apply (Hl [] a l).
  - apply IH; [|done]. intros l1 x l2 ->. by apply (Hl (a :: l1) x l2).
Qed.

Lemma reduce_block_spec blk : forall t t' w,
  GB_reduce_block mac blk t = (t', w) ->
  exists pre post,
    blk = pre ++ post /\ t' = foldl ADD t pre /\
    (w = true -> TERM t' = true) /\
    (w = false -> post = [] /\ GB_no_hit mac t pre).
Proof.
  induction blk as [|a blk IH]; intros t t' w H; cbn in H.
  - simplify_eq. exists [], []. repeat split; try done. apply no_hit_nil.
  - destruct (TERM (ADD t a)) eqn:Hterm.
    + simplify_eq. exists [a], blk. repeat split; done.
    + destruct (IH _ _ _ H) as (pre & post & -> & -> & Hw1 & Hw0).
      exists (a :: pre), post. repeat split; try done.
      * by apply Hw0.
      * apply no_hit_cons; [done|]. by apply Hw0.
Qed.

Lemma reduce_blocks_spec tid blocks : forall b t t' w,
  GB_reduce_blocks mac sched tid b blocks t = (t', w) ->
  exists pre post,
    concat blocks = pre ++ post /\ t' = foldl ADD t pre /\
    (w = true -> TERM t' = true) /\
    (w = false ->
       GB_no_hit mac t pre /\
       (post = [] \/ exists b', sched tid b' = true)).
Proof.
  induction blocks as [|blk blocks IH]; intros b t t' w H; cbn in H.
  - simplify_eq. exists [], []. repeat split; try done; [apply no_hit_nil|].
    by left.
  - destruct (sched tid b) eqn:Hb; cbn in H.
    + simplify_eq. exists [], (concat (blk :: blocks)).
      repeat split; try done; [apply no_hit_nil|]. right. by exists b.
    + destruct (GB_reduce_block mac blk t) as [t1 w1] eqn:Hblk.
      destruct (reduce_block_spec _ _ _ _ Hblk)
        as (pre & post & -> & -> & Hw1 & Hw0).
      destruct w1.
      * simplify_eq. exists pre, (post ++ concat blocks).
        cbn. rewrite app_assoc. repeat split; try done; by apply Hw1.
      * destruct (Hw0 eq_refl) as [-> Hno]. rewrite app_nil_r in *.
        destruct (IH _ _ _ _ H) as (pre' & post' & Hc & -> & Hw1' & Hw0').
        exists (pre ++ pre'), post'. cbn. rewrite Hc, app_assoc.
        rewrite foldl_app. repeat split; try done.
        -- apply no_hit_app; [done|]. by apply Hw0'.
        -- by apply Hw0'.
Qed.

Lemma reduce_task_spec blocksz Ax anz ntasks tid W w :
  GB_reduce_task mac sched blocksz Ax anz ntasks tid = (W, w) ->
  exists pre post,
    GB_slice Ax anz ntasks tid = pre ++ post /\
    W = COPY (foldl ADD (GB_SCALAR_IDENTITY mac) pre) /\
    (w = true -> TERM (foldl ADD (GB_SCALAR_IDENTITY mac) pre) = true) /\
    (w = false ->
       GB_no_hit mac (GB_SCALAR_IDENTITY mac) pre /\
       (post = [] \/ exists b', sched tid b' = true)).
Proof.
  unfold GB_reduce_task, GB_slice.
  destruct (GB_PARTITION anz tid ntasks) as [pstart pend]. cbn [fst snd].
  set (slice := take (pend - pstart) (drop pstart Ax)).
  destruct (GB_reduce_blocks _ _ _ _ _ _) as [t w0] eqn:Hrun.
  intros ?; simplify_eq.
  destruct (reduce_blocks_spec _ _ _ _ _ _ Hrun)
    as (pre & post & Hc & -> & Hw1 & Hw0).
  rewrite GB_blocks_concat in Hc by lia.
  by exists pre, post.
Qed.

End TemplateFacts.

(** *** The terminal value *)

Section TerminalShortCircuit.
Variable mac : GB_reduce_macros.
Variable sched : nat -> nat -> bool.

Local Abbreviation ADD := (GB_ADD_CAST_ARRAY_TO_SCALAR mac).
Local Abbreviation TERM := (GB_PARALLEL_BREAK_IF_TERMINAL mac).
Local Abbreviation COPY := (GB_COPY_SCALAR_TO_ARRAY mac).
Local Abbreviation COMB := (GB_ADD_ARRAY_TO_SCALAR mac).

(** [T] is the terminal value as it sits in [W], [a] an entry that is the
    terminal value. *)
Variables T a : GB_void.
Hypothesis term_copy : forall t, TERM t = true -> COPY t = T.
Hypothesis term_elem : forall x, TERM (ADD x a) = true.
Hypothesis absorb : forall x, COMB x T = T /\ COMB T x = T.

Lemma foldl_absorbed W : forall s, foldl COMB T W = T /\
  (T ∈ W -> foldl COMB s W = T).
Proof.
  induction W as [|w W IH]; intros s.
  - split; [done|]. intros H. by apply elem_of_nil in H.
  - cbn. destruct (absorb w) as [_ Hl]. rewrite Hl.
    split; [apply (IH s)|]. intros [->|H]%elem_of_cons.
    + destruct (absorb s) as [-> _]. apply (IH s).
    + by apply IH.
Qed.

(** A task that wrote the flag left the terminal value in its slot. *)
Lemma task_wrote_terminal blocksz Ax anz ntasks tid :
  (GB_reduce_task mac sched blocksz Ax anz ntasks tid).2 = true ->
  (GB_reduce_task mac sched blocksz Ax anz ntasks tid).1 = T.
Proof.
  destruct (GB_reduce_task _ _ _ _ _ _ _) as [W w] eqn:Htask.
  cbn. intros ->.
  destruct (reduce_task_spec _ _ _ _ _ _ _ _ _ Htask)
    as (pre & post & _ & -> & Hw & _).
  by apply term_copy, Hw.
Qed.

(** The task that owns an entry equal to the terminal value writes the
    flag, unless it saw the flag set and skipped the entry. *)
Lemma task_with_terminal blocksz Ax anz ntasks tid :
  a ∈ GB_slice Ax anz ntasks tid ->
  (GB_reduce_task mac sched blocksz Ax anz ntasks tid).2 = true \/
  exists b, sched tid b = true.
Proof.
  intros Ha.
  destruct (GB_reduce_task _ _ _ _ _ _ _) as [W w] eqn:Htask. cbn.
  destruct (reduce_task_spec _ _ _ _ _ _ _ _ _ Htask)
    as (pre & post & Hslice & _ & _ & Hw0).
  destruct w; [by left|]. destruct (Hw0 eq_refl) as [Hno [->|Hb]].
  - rewrite app_nil_r in Hslice. rewrite Hslice in Ha.
    apply list_elem_of_split in Ha as (l1 & l2 & ->).
    specialize (Hno l1 a l2 eq_refl). by rewrite term_elem in Hno.
  - by right.
Qed.

Lemma entry_in_slice (Ax : list GB_void) anz ntasks :
  (1 <= ntasks)%nat -> length Ax = anz -> a ∈ Ax ->
  exists tid, (tid < ntasks)%nat /\ a ∈ GB_slice Ax anz ntasks tid.
Proof.
  intros Hn Hlen [k Hk]%list_elem_of_lookup_1.
  pose proof (lookup_lt_Some _ _ _ Hk) as Hlt.
  destruct (partition_covers anz ntasks k) as (tid & Htid & Hrange);
    [done|lia|].
  exists tid. split; [done|]. unfold GB_slice.
  destruct (GB_PARTITION anz tid ntasks) as [pstart pend]. cbn [fst snd] in *.
  apply (list_elem_of_lookup_2 _ (k - pstart)).
  rewrite lookup_take_lt by lia. rewrite lookup_drop.
  by replace (pstart + (k - pstart))%nat with k by lia.
Qed.

(** With an entry equal to the terminal value among the entries, the
    template returns the terminal value, whatever the tasks saw of the
    flag, as long as what they saw agrees with the flag. *)
Lemma template_terminal blocksz s Ax anz ntasks :
  (1 <= ntasks)%nat -> length Ax = anz -> a ∈ Ax ->
  (forall tid b, sched tid b = true ->
     (GB_reduce_to_scalar_template mac sched blocksz s Ax anz ntasks).2
       = true) ->
  (GB_reduce_to_scalar_template mac sched blocksz s Ax anz ntasks).1 = T.
Proof.
  intros Hn Hlen Ha Hsched. unfold GB_reduce_to_scalar_template in *.
  cbn [fst snd] in *.
  set (tasks := GB_reduce_task mac sched blocksz Ax anz ntasks <$>
                seq 0 ntasks) in *.
  assert (Hwrote : exists tid, (tid < ntasks)%nat /\
            (GB_reduce_task mac sched blocksz Ax anz ntasks tid).2 = true).
  { destruct (entry_in_slice Ax anz ntasks Hn Hlen Ha) as (tid & Htid & Hin).
    destruct (task_with_terminal blocksz _ _ _ _ Hin) as [Hw|[b Hb]].
    - by exists tid.
    - specialize (Hsched tid b Hb).
      apply existsb_exists in Hsched as (x & Hx & Hsnd).
      apply list_elem_of_In in Hx. subst tasks.
      apply list_elem_of_fmap in Hx as (tid' & -> & Hin').
      apply elem_of_seq in Hin'. exists tid'. split; [lia|done]. }
  destruct Hwrote as (tid & Htid & Hw).
  apply foldl_absorbed.
  rewrite <- (task_wrote_terminal blocksz Ax anz ntasks tid Hw).
  apply list_elem_of_fmap_2. subst tasks. apply list_elem_of_fmap_2.
  apply elem_of_seq. lia.
Qed.

End TerminalShortCircuit.

(** ** GB_reduce_to_scalar: the empty matrix and the terminal value *)

Lemma reduce_ntasks_pos ngpus Context anz :
  1 <= anz -> 1 <= (GB_reduce_ntasks ngpus Context anz).2.
Proof.
  intros Hanz. unfold GB_reduce_ntasks.
  destruct (0 <? ngpus); cbn [snd].
  - unfold GB_ICEIL. apply Z.div_le_lower_bound; lia.
  - rewrite GB_IMAX_max. lia.
Qed.


Section ReduceTerminal.
Variable env : GB_env.
Variable rd : GrB_Monoid.
Variable t : GB_void.
Hypothesis Hterminal : terminal rd = Some t.
Hypothesis Hsize : length t = size (ztype (op rd)).
Hypothesis Habsorb :
  forall x, function (op rd) t x = t /\ function (op rd) x t = t.

Lemma macros_term_copy A v :
  GB_PARALLEL_BREAK_IF_TERMINAL (GB_macros_of env rd A) v = true ->
  GB_COPY_SCALAR_TO_ARRAY (GB_macros_of env rd A) v = t.
Proof.
  unfold GB_macros_of. destruct (decide _); cbn;
    unfold GB_terminal_reached, memcmp_eq0, memcpy; rewrite Hterminal;
    intros ->%bool_decide_eq_true; apply take_ge; lia.
Qed.

Lemma macros_term_elem A a x :
  GB_entry_value env rd A a = t ->
  GB_PARALLEL_BREAK_IF_TERMINAL (GB_macros_of env rd A)
    (GB_ADD_CAST_ARRAY_TO_SCALAR (GB_macros_of env rd A) x a) = true.
Proof.
  unfold GB_macros_of, GB_entry_value. destruct (decide _); cbn;
    unfold GB_terminal_reached, memcmp_eq0; rewrite Hterminal;
    intros ->; destruct (Habsorb x) as [_ ->]; by apply bool_decide_eq_true.
Qed.

Lemma macros_absorb A x :
  GB_ADD_ARRAY_TO_SCALAR (GB_macros_of env rd A) x t = t /\
  GB_ADD_ARRAY_TO_SCALAR (GB_macros_of env rd A) t x = t.
Proof.
  unfold GB_macros_of. destruct (decide _); cbn;
    destruct (Habsorb x); done.
Qed.

(** The scalar of a call on a matrix that holds the terminal value. *)
Lemma reduce_value_terminal sched Context A a ee :
  GB_entry_value env rd A a = t ->
  a ∈ take (Z.to_nat (GB_NNZ A)) (m_x A) ->
  GB_NNZ A <= Z.of_nat (length (m_x A)) ->
  (forall tid b, sched tid b = true ->
     (GB_reduce_value env sched rd Context A ee).2 = true) ->
  (GB_reduce_value env sched rd Context A ee).1 = t.
Proof.
  intros Ha Hin Hnnz Hsched. unfold GB_reduce_value in *.
  assert (Hpos : 1 <= GB_NNZ A).
  { destruct (Z.to_nat (GB_NNZ A)) eqn:Hn; [|lia].
    rewrite take_0 in Hin. by apply elem_of_nil in Hin. }
  assert (Hnt : 1 <= GB_ntasks_of env Context A)
    by apply reduce_ntasks_pos, Hpos.
  destruct (Z.eqb_spec (GB_NNZ A) 0) as [|_]; [lia|].
  apply (template_terminal _ sched t a); try done.
  - apply macros_term_copy.
  - intros x. by apply macros_term_elem.
  - apply macros_absorb.
  - lia.
  - rewrite length_take. lia.
Qed.

End ReduceTerminal.


(** C2: for a monoid whose terminal value [t] is absorbing, reducing a
    matrix that holds [t] (the entries [l1], then [a] whose value is [t],
    then [l2]) gives the same scalar as reducing the matrix that holds [a]
    alone, namely [t] (then cast or accumulated into [c]).  The task whose
    running value is bytewise equal to [t] stops and sets [early_exit];
    the other tasks read the flag between blocks and skip what is left of
    their slice; whatever they read, provided it agrees with the flag, the
    result is the same. *)
Theorem reduce_terminal_short_circuit (env : GB_env)
    (sched sched1 : nat -> nat -> bool) (ctype : GrB_Type)
    (accum : option GrB_BinaryOp) (reduce : option GrB_Monoid)
    (Context : GB_Context) (st st1 : GB_reduce_state)
    (rd : GrB_Monoid) (c : GB_void) (A A1 : GrB_Matrix)
    (t a : GB_void) (l1 l2 : list GB_void) :
  GB_reduce_admitted env ctype accum reduce Context st rd c A ->
  GB_reduce_admitted env ctype accum reduce Context st1 rd c A1 ->
  terminal rd = Some t ->
  length t = size (ztype (op rd)) ->
  (forall x, function (op rd) t x = t /\ function (op rd) x t = t) ->
  m_type A1 = m_type A ->
  GB_entry_value env rd A a = t ->
  take (Z.to_nat (GB_NNZ A)) (m_x A) = l1 ++ a :: l2 ->
  GB_NNZ A <= Z.of_nat (length (m_x A)) ->
  take (Z.to_nat (GB_NNZ A1)) (m_x A1) = [a] ->
  GB_NNZ A1 <= Z.of_nat (length (m_x A1)) ->
  let r := GB_run (GB_reduce_to_scalar env sched ctype accum reduce Context)
             st in
  let r1 := GB_run (GB_reduce_to_scalar env sched1 ctype accum reduce
                      Context) st1 in
  GB_sched_consistent sched r.2 ->
  GB_sched_consistent sched1 r1.2 ->
  r.1 = GrB_SUCCESS /\ r1.1 = GrB_SUCCESS /\
  st_c r.2 = st_c r1.2 /\
  st_c r.2 = Some (GB_accum_scalar env ctype accum (ztype (op rd)) c t) /\
  st_early_exit r.2 = true.
Proof.
  intros Hadm Hadm1 Hterm Hsize Habsorb Htype Ha Hx Hnnz Hx1 Hnnz1 r r1.
  subst r r1.
  rewrite (reduce_admitted_run _ sched _ _ _ _ _ _ _ _ Hadm).
  rewrite (reduce_admitted_run _ sched1 _ _ _ _ _ _ _ _ Hadm1).
  unfold GB_sched_consistent. cbn [fst snd st_c st_early_exit].
  intros Hsched Hsched1.
  assert (Ha1 : GB_entry_value env rd A1 a = t).
  { unfold GB_entry_value in *. by rewrite Htype. }
  rewrite (reduce_value_terminal env rd t Hterm Hsize Habsorb sched Context
             A a (st_early_exit st) Ha); [|rewrite Hx; set_in|done|done].
  rewrite (reduce_value_terminal env rd t Hterm Hsize Habsorb sched1 Context
             A1 a (st_early_exit st1) Ha1); [|rewrite Hx1; set_in|done|done].
  repeat split; try done.
  (* the flag is set: the task that owns [a] set it or saw it set *)
  unfold GB_reduce_value in *.
  assert (Hpos : 1 <= GB_NNZ A).
  { destruct (Z.to_nat (GB_NNZ A)) eqn:Hn; [|lia].
    rewrite take_0 in Hx. by destruct l1. }
  assert (Hnt : 1 <= GB_ntasks_of env Context A)
    by apply reduce_ntasks_pos, Hpos.
  destruct (Z.eqb_spec (GB_NNZ A) 0) as [|_]; [lia|].
  destruct (entry_in_slice a (take (Z.to_nat (GB_NNZ A)) (m_x A))
              (Z.to_nat (GB_NNZ A))
              (Z.to_nat (GB_ntasks_of env Context A)))
    as (tid & Htid & Hin);
    [lia|rewrite length_take; lia|rewrite Hx; set_in|].
  destruct (task_with_terminal (GB_macros_of env rd A) sched a
              (fun x => macros_term_elem env rd t Hterm Habsorb A a x Ha)
              (GB_red_block env) _ _ _ _ Hin) as [Hw|[b Hb]].
  - unfold GB_reduce_to_scalar_template. cbn [snd].
    apply existsb_exists.
    exists (GB_reduce_task (GB_macros_of env rd A) sched (GB_red_block env)
              (take (Z.to_nat (GB_NNZ A)) (m_x A)) (Z.to_nat (GB_NNZ A))
              (Z.to_nat (GB_ntasks_of env Context A)) tid).
    split; [|done]. apply list_elem_of_In, list_elem_of_fmap_2, elem_of_seq.
    lia.
  - by apply (Hsched tid b).
Qed.

Lemma max_uint8_absorbing x :
  function (op Ex.GxB_MAX_UINT8_MONOID) (Ex.u8 255) x = Ex.u8 255 /\
  function (op Ex.GxB_MAX_UINT8_MONOID) x (Ex.u8 255) = Ex.u8 255.
Proof.
  destruct x as [|b x]; [split; reflexivity|].
  pose proof (Byte.to_N_bounded b) as Hb.
  change (Ex.u8 255) with ["255"%byte]. cbn.
  rewrite N.max_l, N.max_r by done. split; reflexivity.
Qed.

(** S4 of the spec in small: 255 among eight entries, eight tasks; every
    task but the one that owns 255 sees the flag set and skips its
    slice. *)
Lemma reduce_terminal_short_circuit_witness :
  let A := Ex.vector Ex.GrB_UINT8
             [Ex.u8 3; Ex.u8 255; Ex.u8 1; Ex.u8 4;
              Ex.u8 3; Ex.u8 5; Ex.u8 1; Ex.u8 4] in
  let A1 := Ex.vector Ex.GrB_UINT8 [Ex.u8 255] in
  let sched := fun tid _ : nat => negb (tid =? 1)%nat in
  let reduce := GB_reduce_to_scalar Ex.env sched Ex.GrB_UINT8 None
                  (Some Ex.GxB_MAX_UINT8_MONOID) Ex.Context in
  let reduce1 := GB_reduce_to_scalar Ex.env (fun _ _ => false) Ex.GrB_UINT8
                   None (Some Ex.GxB_MAX_UINT8_MONOID) Ex.Context in
  let r := GB_run reduce (Ex.reduce_state A) in
  let r1 := GB_run reduce1 (Ex.reduce_state A1) in
  r.1 = GrB_SUCCESS /\ r1.1 = GrB_SUCCESS /\
  st_c r.2 = st_c r1.2 /\ st_c r.2 = Some (Ex.u8 255) /\
  st_early_exit r.2 = true.
Proof.
  apply (reduce_terminal_short_circuit Ex.env
           (fun tid _ : nat => negb (tid =? 1)%nat) (fun _ _ => false)
           Ex.GrB_UINT8 None (Some Ex.GxB_MAX_UINT8_MONOID) Ex.Context
           (Ex.reduce_state _) (Ex.reduce_state _)
           Ex.GxB_MAX_UINT8_MONOID (Ex.u8 7)
           (Ex.vector Ex.GrB_UINT8
              [Ex.u8 3; Ex.u8 255; Ex.u8 1; Ex.u8 4;
               Ex.u8 3; Ex.u8 5; Ex.u8 1; Ex.u8 4])
           (Ex.vector Ex.GrB_UINT8 [Ex.u8 255])
           (Ex.u8 255) (Ex.u8 255) [Ex.u8 3]
           [Ex.u8 1; Ex.u8 4; Ex.u8 3; Ex.u8 5; Ex.u8 1; Ex.u8 4]).
  - split; reflexivity.
  - split; reflexivity.
  - reflexivity.
  - reflexivity.
  - apply max_uint8_absorbing.
  - reflexivity.
  - reflexivity.
  - reflexivity.
  - vm_compute. discriminate.
  - reflexivity.
  - vm_compute. discriminate.
  - intros tid b _. vm_compute. reflexivity.
  - intros tid b Hb. discriminate Hb.
Defined.

(** ** GB_eWise: the entry checks *)

(** A call stopped by an entry check returns the status of that check and
    leaves the state as it was. *)
Lemma eWise_entry_stops env C_replace Mask_comp accum op A_transpose
    B_transpose eWiseAdd st info :
  GB_eWise_entry env accum op A_transpose B_transpose eWiseAdd st
    = Some info ->
  GB_run (GB_eWise env C_replace Mask_comp accum op A_transpose
            B_transpose eWiseAdd) st = (info, st).
Proof.
  unfold GB_eWise_entry, GB_eWise. gb_unfold. intros H.
  destruct accum as [a|]; cbn in *;
    [destruct (GB_faulty (op_magic a)); [by simplify_eq|]|].
  all: destruct (GB_compatible env _ _ _ _ _); cbn in *;
         [|by simplify_eq..].
  all: destruct (GB_BinaryOp_compatible env _ _ _ _ _); cbn in *;
         [|by simplify_eq..].
  all: destruct eWiseAdd; cbn in *.
  all: try (destruct (GB_Type_compatible env (m_type (ew_C st))
                        (m_type (ew_A st))); cbn in *; [|by simplify_eq]).
  all: try (destruct (GB_Type_compatible env (m_type (ew_C st))
                        (m_type (ew_B st))); cbn in *; [|by simplify_eq]).
  all: repeat match type of H with
       | context [?x =? ?y] => destruct (x =? y); cbn in *
       end; by simplify_eq.
Qed.

(** Past the entry checks a call ends in success or out-of-memory. *)
Lemma eWise_past_entry env C_replace Mask_comp accum op A_transpose
    B_transpose eWiseAdd st :
  GB_eWise_entry env accum op A_transpose B_transpose eWiseAdd st = None ->
  (GB_run (GB_eWise env C_replace Mask_comp accum op A_transpose
             B_transpose eWiseAdd) st).1 ∈ [GrB_SUCCESS; GrB_OUT_OF_MEMORY].
Proof.
  unfold GB_eWise_entry, GB_eWise. gb_unfold. intros H.
  destruct accum as [a|]; cbn in *;
    [destruct (GB_faulty (op_magic a)); [by simplify_eq|]|].
  all: destruct (GB_compatible env _ _ _ _ _); cbn in *;
         [|by simplify_eq..].
  all: destruct (GB_BinaryOp_compatible env _ _ _ _ _); cbn in *;
         [|by simplify_eq..].
  all: destruct eWiseAdd; cbn in *.
  all: try (destruct (GB_Type_compatible env (m_type (ew_C st))
                        (m_type (ew_A st))); cbn in *; [|by simplify_eq]).
  all: try (destruct (GB_Type_compatible env (m_type (ew_C st))
                        (m_type (ew_B st))); cbn in *; [|by simplify_eq]).
  all: repeat match type of H with
       | context [?x =? ?y] => destruct (x =? y); cbn in *
       end; try by simplify_eq.
  all: clear H.
  all: unfold GB_RETURN_IF_QUICK_MASK, GB_WAIT, GB_OK_new, GB_ew_log,
         GB_ew_set_C, GB_ew_store_M, GB_ew_store_A, GB_ew_store_B;
         gb_unfold; cbn.
  all: repeat (case_match; simplify_eq/=; try in_list).
Qed.

(** C9: [eWiseAdd] needs the types of [A] and of [B] to be typecast to the
    type of [C] and returns a domain mismatch otherwise, because entries
    found in one input only are copied to [C]; [eWiseMult] has no such
    requirement: on the same arguments it never looks at that test and does
    not return a domain mismatch once the operator is compatible. *)
Theorem eWiseAdd_needs_castable_inputs (env : GB_env)
    (C_replace Mask_comp : bool) (accum : option GrB_BinaryOp)
    (op : GrB_BinaryOp) (A_transpose B_transpose : bool)
    (st : GB_eWise_state) :
  accum ≫= (fun a => GB_faulty (op_magic a)) = None ->
  GB_compatible env (m_type (ew_C st)) (Some (ew_C st)) (ew_M st) accum
    (ztype op) = GB_check_ok ->
  GB_BinaryOp_compatible env op None (m_type (ew_A st)) (m_type (ew_B st))
    GB_BOOL_code = GB_check_ok ->
  GB_Type_compatible env (m_type (ew_C st)) (m_type (ew_A st)) = false \/
  GB_Type_compatible env (m_type (ew_C st)) (m_type (ew_B st)) = false ->
  GB_run (GB_eWise env C_replace Mask_comp accum op A_transpose B_transpose
            true) st = (GrB_DOMAIN_MISMATCH, st) /\
  (GB_run (GB_eWise env C_replace Mask_comp accum op A_transpose
             B_transpose false) st).1 <> GrB_DOMAIN_MISMATCH /\
  (forall compatible,
     GB_run (GB_eWise (GB_env_with_Type_compatible env compatible)
               C_replace Mask_comp accum op A_transpose B_transpose false)
       st =
     GB_run (GB_eWise env C_replace Mask_comp accum op A_transpose
               B_transpose false) st).
Proof.
  intros Haccum Hcompat Hop Htypes. split; [|split].
  - apply eWise_entry_stops. unfold GB_eWise_entry.
    rewrite Haccum, Hcompat, Hop. cbn.
    by destruct Htypes as [-> | ->]; rewrite ?andb_false_r.
  - destruct (GB_eWise_entry env accum op A_transpose B_transpose false st)
      as [info|] eqn:Hentry.
    + rewrite (eWise_entry_stops _ _ _ _ _ _ _ _ _ _ Hentry). cbn.
      unfold GB_eWise_entry in Hentry.
      rewrite Haccum, Hcompat, Hop in Hentry. cbn in Hentry.
      destruct (_ && _) in Hentry; by simplify_eq.
    + pose proof (eWise_past_entry env C_replace Mask_comp _ _ _ _ _ _
                    Hentry) as Hin.
      intros Heq. rewrite Heq in Hin.
      apply list_elem_of_In in Hin. cbn in Hin. intuition discriminate.
  - intros compatible. unfold GB_eWise. destruct env. reflexivity.
Qed.

Lemma eWiseAdd_needs_castable_inputs_witness :
  let st := Ex.eWise_state Ex.A22_csc Ex.U22 Ex.A22_csr in
  GB_Type_compatible Ex.env (m_type (ew_C st)) (m_type (ew_A st)) = false /\
  GB_run (GB_eWise Ex.env false false None Ex.user_op false false true) st
    = (GrB_DOMAIN_MISMATCH, st) /\
  (GB_run (GB_eWise Ex.env false false None Ex.user_op false false false)
     st).1 = GrB_SUCCESS.
Proof.
  intros st. split; [reflexivity|].
  destruct (eWiseAdd_needs_castable_inputs Ex.env false false None
              Ex.user_op false false st) as (Hadd & _ & _).
  - reflexivity.
  - reflexivity.
  - reflexivity.
  - left. reflexivity.
  - split; [exact Hadd|reflexivity].
Defined.

(** ** Mismatches are found at the entry *)

(** C6: a domain or dimension mismatch is returned by [GB_reduce_to_scalar]
    and by [GB_eWise] only by the checks at their entry, and then nothing
    was allocated, finalized or written: the state after the call (the
    scalar [c] or the matrix [C], the inputs, the log) is the state before
    it.  Conversely a failed entry check is returned as it is. *)
Theorem mismatch_found_at_entry (env : GB_env) (sched : nat -> nat -> bool)
    (ctype : GrB_Type) (accum : option GrB_BinaryOp)
    (reduce : option GrB_Monoid) (Context : GB_Context)
    (st : GB_reduce_state)
    (C_replace Mask_comp : bool) (op : GrB_BinaryOp)
    (A_transpose B_transpose eWiseAdd : bool) (ew : GB_eWise_state) :
  let r := GB_run (GB_reduce_to_scalar env sched ctype accum reduce Context)
             st in
  let r' := GB_run (GB_eWise env C_replace Mask_comp accum op A_transpose
                      B_transpose eWiseAdd) ew in
  (r.1 ∈ [GrB_DOMAIN_MISMATCH; GrB_DIMENSION_MISMATCH] ->
     GB_reduce_entry env ctype accum reduce st = Some r.1 /\ r.2 = st) /\
  (r'.1 ∈ [GrB_DOMAIN_MISMATCH; GrB_DIMENSION_MISMATCH] ->
     GB_eWise_entry env accum op A_transpose B_transpose eWiseAdd ew
       = Some r'.1 /\ r'.2 = ew) /\
  (forall info, GB_reduce_entry env ctype accum reduce st = Some info ->
     r = (info, st)) /\
  (forall info,
     GB_eWise_entry env accum op A_transpose B_transpose eWiseAdd ew
       = Some info -> r' = (info, ew)).
Proof.
  intros r r'. subst r r'. repeat split.
  - destruct (GB_reduce_entry env ctype accum reduce st) as [info|]
      eqn:Hentry.
    + by rewrite (reduce_entry_stops _ sched _ _ _ Context _ _ Hentry).
    + destruct (reduce_entry_None _ _ _ _ _ Hentry) as (rd & c & -> & Hc).
      rewrite (reduce_entry_passes _ sched _ _ _ Context _ _ Hentry Hc) in H.
      pose proof (reduce_outcome_status env sched ctype accum rd Context
                    st c) as Hin.
      apply list_elem_of_In in H, Hin. cbn in H, Hin.
      destruct H as [H|[H|[]]]; rewrite <- H in Hin;
        intuition discriminate.
  - destruct (GB_reduce_entry env ctype accum reduce st) as [info|]
      eqn:Hentry.
    + by rewrite (reduce_entry_stops _ sched _ _ _ Context _ _ Hentry).
    + destruct (reduce_entry_None _ _ _ _ _ Hentry) as (rd & c & -> & Hc).
      rewrite (reduce_entry_passes _ sched _ _ _ Context _ _ Hentry Hc) in H.
      pose proof (reduce_outcome_status env sched ctype accum rd Context
                    st c) as Hin.
      apply list_elem_of_In in H, Hin. cbn in H, Hin.
      destruct H as [H|[H|[]]]; rewrite <- H in Hin;
        intuition discriminate.
  - destruct (GB_eWise_entry env accum op A_transpose B_transpose eWiseAdd
                ew) as [info|] eqn:Hentry.
    + by rewrite (eWise_entry_stops _ C_replace Mask_comp _ _ _ _ _ _ _
                    Hentry).
    + pose proof (eWise_past_entry env C_replace Mask_comp _ _ _ _ _ _
                    Hentry) as Hin.
      apply list_elem_of_In in H, Hin. cbn in H, Hin.
      destruct H as [H|[H|[]]]; rewrite <- H in Hin;
        intuition discriminate.
  - destruct (GB_eWise_entry env accum op A_transpose B_transpose eWiseAdd
                ew) as [info|] eqn:Hentry.
    + by rewrite (eWise_entry_stops _ C_replace Mask_comp _ _ _ _ _ _ _
                    Hentry).
    + pose proof (eWise_past_entry env C_replace Mask_comp _ _ _ _ _ _
                    Hentry) as Hin.
      apply list_elem_of_In in H, Hin. cbn in H, Hin.
      destruct H as [H|[H|[]]]; rewrite <- H in Hin;
        intuition discriminate.
  - intros info Hentry. by apply reduce_entry_stops.
  - intros info Hentry. by apply eWise_entry_stops.
Qed.

(** A matrix of a user-defined type cannot be reduced by a monoid over
    UINT8; a 2-by-2 and a 4-by-1 matrix cannot be added. *)
Lemma mismatch_found_at_entry_witness :
  let st := Ex.reduce_state Ex.U22 in
  let ew := Ex.eWise_state Ex.A22_csc Ex.A22_csr
              (Ex.vector Ex.GrB_UINT8 [Ex.u8 1; Ex.u8 2; Ex.u8 3; Ex.u8 4]) in
  GB_run (GB_reduce_to_scalar Ex.env (fun _ _ => false) Ex.GrB_UINT8 None
            (Some Ex.GxB_PLUS_UINT8_MONOID) Ex.Context) st
    = (GrB_DOMAIN_MISMATCH, st) /\
  GB_run (GB_eWise Ex.env true false None Ex.GrB_PLUS_UINT8 false false
            true) ew
    = (GrB_DIMENSION_MISMATCH, ew).
Proof.
  intros st ew.
  destruct (mismatch_found_at_entry Ex.env (fun _ _ => false) Ex.GrB_UINT8
              None (Some Ex.GxB_PLUS_UINT8_MONOID) Ex.Context st
              true false Ex.GrB_PLUS_UINT8 false false true ew)
    as (Hred & Hew & _ & _).
  split.
  - destruct Hred as [_ Hst]; [vm_compute; left|].
    apply injective_projections; [reflexivity|exact Hst].
  - destruct Hew as [_ Hst]; [vm_compute; right; left|].
    apply injective_projections; [reflexivity|exact Hst].
Defined.

(** ** The dispatch of GB_reduce_to_scalar *)





(** ** The entries of a matrix and its array of values *)

Lemma values_of_positions (x : list GB_void) (a : Z) (len : nat) :
  0 <= a -> (Z.to_nat a + len <= length x)%nat ->
  (fun pA : Z => x !!! Z.to_nat pA) <$> seqZ a (Z.of_nat len) =
  take len (drop (Z.to_nat a) x).
Proof.
  intros Ha Hlen. apply list_eq. intros i. rewrite list_lookup_fmap.
  destruct (decide (i < len)%nat) as [Hi|Hi].
  - rewrite lookup_seqZ_lt by lia. cbn.
    rewrite lookup_take_lt, lookup_drop by lia.
    rewrite list_lookup_lookup_total_lt by lia. f_equal. f_equal. lia.
  - rewrite lookup_seqZ_ge, lookup_take_ge by lia. done.
Qed.

(** Between [p [0] = 0] and [p [nvec]] the pointers stay in range. *)
Lemma matrix_ok_bounds (A : GrB_Matrix) :
  GB_matrix_ok A ->
  forall k, 0 <= k -> k <= m_nvec A ->
    0 <= arr (m_p A) k <= arr (m_p A) (m_nvec A).
Proof.
  intros [Hnvec Hp0 Hmono Hend].
  assert (H0 : forall n : nat, Z.of_nat n <= m_nvec A ->
            0 <= arr (m_p A) (Z.of_nat n)).
  { induction n as [|n IH]; intros Hn;
      [change (Z.of_nat 0) with 0; rewrite Hp0; lia|].
    specialize (Hmono (Z.of_nat n)).
    replace (Z.of_nat (S n)) with (Z.of_nat n + 1) by lia. lia. }
  assert (H1 : forall d : nat, forall k, 0 <= k ->
            k + Z.of_nat d = m_nvec A ->
            arr (m_p A) k <= arr (m_p A) (m_nvec A)).
  { induction d as [|d IH]; intros k Hk Hd.
    - replace k with (m_nvec A) by lia. lia.
    - specialize (IH (k + 1)). specialize (Hmono k). lia. }
  intros k Hk1 Hk2. split.
  - specialize (H0 (Z.to_nat k)). rewrite Z2Nat.id in H0 by lia. lia.
  - apply (H1 (Z.to_nat (m_nvec A - k))); lia.
Qed.

(** In storage order the values of the entries are the first [p [nvec]]
    elements of [x]. *)
Lemma values_of_entries (A : GrB_Matrix) :
  GB_matrix_ok A ->
  (fun e : Z * Z * GB_void => e.2) <$> GB_entries A =
  take (Z.to_nat (GB_NNZ A)) (m_x A).
Proof.
  intros [Hnvec Hp0 Hmono Hend]. unfold GB_entries, GB_NNZ.
  pose proof (matrix_ok_bounds A (Build_GB_matrix_ok A Hnvec Hp0 Hmono Hend))
    as Hbound.
  assert (Hgen : forall n : nat, Z.of_nat n <= m_nvec A ->
            (fun e : Z * Z * GB_void => e.2) <$>
              (seqZ 0 (Z.of_nat n) ≫= GB_vector_entries A) =
            take (Z.to_nat (arr (m_p A) (Z.of_nat n))) (m_x A)).
  { induction n as [|n IH]; intros Hn.
    - change (Z.of_nat 0) with 0. rewrite Hp0. done.
    - rewrite seqZ_S, bind_app, fmap_app, IH by lia.
      rewrite bind_singleton, Z.add_0_l. unfold GB_vector_entries.
      rewrite <- list_fmap_compose.
      pose proof (Hbound (Z.of_nat n)) as Hn0.
      pose proof (Hbound (Z.of_nat n + 1)) as Hn1.
      pose proof (Hmono (Z.of_nat n)) as Hstep.
      replace (arr (m_p A) (Z.of_nat n + 1) - arr (m_p A) (Z.of_nat n))
        with (Z.of_nat (Z.to_nat (arr (m_p A) (Z.of_nat n + 1) -
                                  arr (m_p A) (Z.of_nat n)))) by lia.
      erewrite (list_fmap_ext _
                  (fun pA : Z => m_x A !!! Z.to_nat pA)); [|by intros;
                    cbn; destruct (is_csc A)].
      rewrite values_of_positions by lia.
      rewrite take_take_drop. f_equal.
      replace (Z.of_nat (S n)) with (Z.of_nat n + 1) by lia. lia. }
  specialize (Hgen (Z.to_nat (m_nvec A))).
  rewrite Z2Nat.id in Hgen by lia. apply Hgen. lia.
Qed.

(** ** Reduction correctness: the scalar is the fold of the entries *)

Section ReduceCorrect.
Variable env : GB_env.
Variable rd : GrB_Monoid.
Variable A : GrB_Matrix.
Hypothesis lawful : GB_monoid_lawful rd.

Local Abbreviation zs := (size (ztype (op rd))).
Local Abbreviation f := (function (op rd)).
Local Abbreviation e := (identity rd).
Local Abbreviation g := (GB_entry_value env rd A).
Local Abbreviation mac := (GB_macros_of env rd A).
Local Abbreviation V := (fun v : GB_void => length v = zs).
Local Abbreviation sized v := (length v = zs).

(** The fold of a list of values of the monoid. *)
Local Abbreviation sum := (foldl f e).

Lemma mac_identity : GB_SCALAR_IDENTITY mac = e.
Proof.
  unfold GB_macros_of. destruct (decide _); cbn; unfold memcpy;
    apply take_ge; rewrite (law_identity_size rd lawful); lia.
Qed.

Lemma mac_add t a : GB_ADD_CAST_ARRAY_TO_SCALAR mac t a = f t (g a).
Proof.
  unfold GB_macros_of, GB_entry_value. by destruct (decide _).
Qed.

Lemma mac_comb s w : GB_ADD_ARRAY_TO_SCALAR mac s w = f s w.
Proof. unfold GB_macros_of. by destruct (decide _). Qed.

Lemma mac_copy t : sized t -> GB_COPY_SCALAR_TO_ARRAY mac t = t.
Proof.
  intros Ht. unfold GB_macros_of. destruct (decide _); cbn; unfold memcpy;
    apply take_ge; lia.
Qed.

Lemma mac_term t :
  sized t -> GB_PARALLEL_BREAK_IF_TERMINAL mac t = true -> terminal rd = Some t.
Proof.
  intros Ht. unfold GB_macros_of.
  assert (Hgen : GB_terminal_reached (terminal rd) zs t = true ->
            terminal rd = Some t).
  { unfold GB_terminal_reached, memcmp_eq0.
    destruct (terminal rd) as [T|] eqn:HT; [|done].
    intros Heq%bool_decide_eq_true.
    destruct (law_terminal rd lawful T T HT) as [HVT _].
    rewrite !take_ge in Heq by lia. by subst. }
  by destruct (decide _).
Qed.

Lemma foldl_mac_add t l :
  foldl (GB_ADD_CAST_ARRAY_TO_SCALAR mac) t l = foldl f t (g <$> l).
Proof.
  revert t. induction l as [|a l IH]; intros t; [done|].
  cbn. by rewrite IH, mac_add.
Qed.

Lemma V_foldl l : forall x, sized x -> Forall V l -> sized (foldl f x l).
Proof.
  induction l as [|a l IH]; intros x Hx Hl; [done|].
  apply Forall_cons_1 in Hl as [Ha Hl]. cbn. apply IH; [|done].
  by apply (law_closed rd lawful).
Qed.

Lemma V_identity : sized e.
Proof. apply (law_identity_size rd lawful). Qed.

Lemma identity_r x : sized x -> f x e = x.
Proof.
  intros Hx. rewrite (law_comm rd lawful) by (done || apply V_identity).
  by apply (law_identity rd lawful).
Qed.

Lemma foldl_from l : forall x,
  sized x -> Forall V l -> foldl f x l = f x (sum l).
Proof.
  induction l as [|a l IH]; intros x Hx Hl.
  - cbn. by rewrite identity_r.
  - apply Forall_cons_1 in Hl as [Ha Hl]. cbn.
    rewrite (law_identity rd lawful) by done.
    rewrite (IH (f x a)), (IH a) by (done || by apply (law_closed rd lawful)).
    apply (law_assoc rd lawful); [done..|].
    by apply V_foldl; [apply V_identity|].
Qed.

Lemma sum_app l k :
  Forall V l -> Forall V k -> sum (l ++ k) = f (sum l) (sum k).
Proof.
  intros Hl Hk. rewrite foldl_app. apply foldl_from; [|done].
  by apply V_foldl; [apply V_identity|].
Qed.

Lemma sum_concat ls :
  Forall (Forall V) ls -> foldl f e (foldl f e <$> ls) = sum (concat ls).
Proof.
  induction ls as [|l ls IH]; intros Hls; [done|].
  apply Forall_cons_1 in Hls as [Hl Hls]. cbn [fmap list_fmap concat foldl].
  rewrite (law_identity rd lawful)
    by (by apply V_foldl; [apply V_identity|]).
  rewrite foldl_from, IH, sum_app; try done.
  - by apply Forall_concat.
  - by apply V_foldl; [apply V_identity|].
  - apply Forall_fmap, Forall_forall. intros l' Hl'. cbn.
    apply V_foldl; [apply V_identity|].
    rewrite Forall_forall in Hls. by apply Hls.
Qed.

Lemma sum_perm l l' : l ≡ₚ l' -> forall x, sized x -> Forall V l ->
  foldl f x l = foldl f x l'.
Proof.
  induction 1 as [|a l l' Hperm IH|a b l|l1 l2 l3 H12 IH12 H23 IH23];
    intros x Hx Hl.
  - done.
  - apply Forall_cons_1 in Hl as [Ha Hl]. cbn. apply IH; [|done].
    by apply (law_closed rd lawful).
  - apply Forall_cons_1 in Hl as [Hb Hl].
    apply Forall_cons_1 in Hl as [Ha Hl]. cbn. f_equal.
    rewrite !(law_assoc rd lawful) by done. f_equal.
    by apply (law_comm rd lawful).
  - rewrite IH12 by done. apply IH23; [done|]. by rewrite <- H12.
Qed.

(** Terminal value: absorbing on both sides; a list with a stretch whose
    fold is the terminal value folds to the terminal value. *)
Lemma terminal_absorbs T x :
  terminal rd = Some T -> sized x -> sized T /\ f T x = T /\ f x T = T.
Proof.
  intros HT Hx. destruct (law_terminal rd lawful T x HT) as [HVT Habs].
  split; [done|]. split; [by apply Habs|].
  rewrite (law_comm rd lawful) by done. by apply Habs.
Qed.

Lemma foldl_terminal T l : terminal rd = Some T -> Forall V l ->
  foldl f T l = T.
Proof.
  intros HT. induction l as [|a l IH]; intros Hl; [done|].
  apply Forall_cons_1 in Hl as [Ha Hl]. cbn.
  destruct (terminal_absorbs T a HT Ha) as (_ & -> & _). by apply IH.
Qed.

Lemma sum_with_terminal T l1 seg l3 :
  terminal rd = Some T -> Forall V l1 -> Forall V seg -> Forall V l3 ->
  sum seg = T -> sum (l1 ++ seg ++ l3) = T.
Proof.
  intros HT H1 Hseg H3 Hsum.
  rewrite foldl_app, foldl_app.
  rewrite (foldl_from seg) by (done || by apply V_foldl; [apply V_identity|]).
  rewrite Hsum.
  destruct (terminal_absorbs T (sum l1) HT) as (_ & _ & ->);
    [by apply V_foldl; [apply V_identity|]|].
  by apply foldl_terminal.
Qed.

Lemma foldl_has_terminal T W : terminal rd = Some T -> Forall V W ->
  T ∈ W -> forall s, sized s -> foldl f s W = T.
Proof.
  intros HT. induction W as [|w W IH]; intros HW Hin s Hs.
  - by apply elem_of_nil in Hin.
  - apply Forall_cons_1 in HW as [Hw HW]. cbn.
    apply elem_of_cons in Hin as [->|Hin].
    + destruct (terminal_absorbs w s HT Hs) as (_ & _ & ->).
      by apply foldl_terminal.
    + apply IH; [done..|]. by apply (law_closed rd lawful).
Qed.

End ReduceCorrect.

Lemma foldl_ext_all {X Y} (f1 f2 : X -> Y -> X) (l : list Y) : forall x,
  (forall a b, f1 a b = f2 a b) -> foldl f1 x l = foldl f2 x l.
Proof.
  induction l as [|b l IH]; intros x Hext; [done|].
  cbn. rewrite Hext. by apply IH.
Qed.

Section TemplateCorrect.
Variable env : GB_env.
Variable rd : GrB_Monoid.
Variable A : GrB_Matrix.
Variable sched : nat -> nat -> bool.
Hypothesis lawful : GB_monoid_lawful rd.

Local Abbreviation zs := (size (ztype (op rd))).
Local Abbreviation f := (function (op rd)).
Local Abbreviation e := (identity rd).
Local Abbreviation g := (GB_entry_value env rd A).
Local Abbreviation mac := (GB_macros_of env rd A).
Local Abbreviation V := (fun v : GB_void => length v = zs).
Local Abbreviation sum := (foldl f e).

Lemma slice_split (Ax : list GB_void) anz ntasks tid :
  exists l1 l3, Ax = l1 ++ GB_slice Ax anz ntasks tid ++ l3.
Proof.
  unfold GB_slice. destruct (GB_PARTITION anz tid ntasks) as [pstart pend].
  cbn [fst snd].
  exists (take pstart Ax), (drop (pend - pstart) (drop pstart Ax)).
  by rewrite take_drop, take_drop.
Qed.

Lemma slice_sized (Ax : list GB_void) anz ntasks tid :
  Forall V (g <$> Ax) -> Forall V (g <$> GB_slice Ax anz ntasks tid).
Proof.
  intros HV. destruct (slice_split Ax anz ntasks tid) as (l1 & l3 & Heq).
  rewrite Heq, !fmap_app, !Forall_app in HV. tauto.
Qed.

Lemma task_value blocksz Ax anz ntasks tid :
  Forall V (g <$> Ax) ->
  exists pre post,
    GB_slice Ax anz ntasks tid = pre ++ post /\
    (GB_reduce_task mac sched blocksz Ax anz ntasks tid).1
      = sum (g <$> pre) /\
    ((GB_reduce_task mac sched blocksz Ax anz ntasks tid).2 = true ->
       terminal rd = Some (sum (g <$> pre))) /\
    ((GB_reduce_task mac sched blocksz Ax anz ntasks tid).2 = false ->
       post = [] \/ exists b, sched tid b = true).
Proof.
  intros HV.
  destruct (GB_reduce_task _ _ _ _ _ _ _) as [W w] eqn:Htask.
  destruct (reduce_task_spec _ _ _ _ _ _ _ _ _ Htask)
    as (pre & post & Hslice & -> & Hw1 & Hw0).
  exists pre, post. cbn [fst snd].
  pose proof (slice_sized Ax anz ntasks tid HV) as Hsl.
  rewrite Hslice, fmap_app, Forall_app in Hsl. destruct Hsl as [Hpre _].
  assert (Hsized : length (sum (g <$> pre)) = zs)
    by (apply (V_foldl rd lawful); [apply (V_identity rd lawful)|done]).
  rewrite (mac_identity env rd A lawful) in *.
  rewrite (foldl_mac_add env rd A) in *.
  split; [done|]. split; [by apply (mac_copy env rd A)|]. split.
  - intros Hw. by apply (mac_term env rd A lawful), Hw1.
  - intros Hw. by apply Hw0.
Qed.

Section Run.
Variable blocksz : nat.
Variable Ax : list GB_void.
Variables anz ntasks : nat.

Local Abbreviation task := (GB_reduce_task mac sched blocksz Ax anz ntasks).

(** Reduction correctness for the template: whatever the tasks saw of the
    flag, provided it agrees with the flag, the scalar is the fold of all
    entries. *)
Lemma template_correct :
  (1 <= ntasks)%nat -> length Ax = anz -> Forall V (g <$> Ax) ->
  (forall tid b, sched tid b = true ->
     (GB_reduce_to_scalar_template mac sched blocksz (memcpy e zs) Ax anz
        ntasks).2 = true) ->
  (GB_reduce_to_scalar_template mac sched blocksz (memcpy e zs) Ax anz
     ntasks).1 = sum (g <$> Ax).
Proof.
  intros Hn Hlen HV Hsched. unfold GB_reduce_to_scalar_template in *.
  cbn [fst snd] in *.
  assert (He : memcpy e zs = e).
  { unfold memcpy. apply take_ge.
    rewrite (law_identity_size rd lawful). lia. }
  rewrite He in *.
  rewrite (foldl_ext_all _ f) by (intros; apply (mac_comb env rd A)).
  assert (HW : Forall V (task <$> seq 0 ntasks).*1).
  { apply Forall_fmap, Forall_fmap, Forall_forall. intros tid _. cbn.
    destruct (task_value blocksz Ax anz ntasks tid HV)
      as (pre & post & Hslice & HWt & _).
    rewrite HWt.
    pose proof (slice_sized Ax anz ntasks tid HV) as Hsl.
    rewrite Hslice, fmap_app, Forall_app in Hsl.
    apply (V_foldl rd lawful); [apply (V_identity rd lawful)|tauto]. }
  destruct (existsb snd (task <$> seq 0 ntasks)) eqn:Hflag.
  - (* some task reached the terminal value *)
    apply existsb_exists in Hflag as (x & Hx & Hsnd).
    apply list_elem_of_In, list_elem_of_fmap in Hx as (tid & -> & Htid).
    destruct (task_value blocksz Ax anz ntasks tid HV)
      as (pre & post & Hslice & HWtid & Hterm & _).
    specialize (Hterm Hsnd).
    destruct (slice_split Ax anz ntasks tid) as (l1 & l3 & HAx).
    pose proof HV as HV'.
    rewrite HAx, Hslice, !fmap_app, !Forall_app in HV'.
    destruct HV' as (H1 & (Hpre & Hpost) & H3).
    transitivity (sum (g <$> pre)).
    + apply (foldl_has_terminal rd lawful); [done|done| |].
      * rewrite <- HWtid. apply list_elem_of_fmap_2.
        by apply list_elem_of_fmap_2.
      * apply (V_identity rd lawful).
    + symmetry. rewrite HAx at 1. rewrite Hslice, !fmap_app, <- app_assoc.
      apply (sum_with_terminal rd lawful _ _ _ _ Hterm); try done.
      by apply Forall_app.
  - (* no task reached it: nobody saw the flag, every slice was folded *)
    assert (Hnoflag : forall tid b, sched tid b = false).
    { intros tid b. destruct (sched tid b) eqn:Hb; [|done].
      by specialize (Hsched tid b Hb). }
    assert (Htasks : (task <$> seq 0 ntasks).*1 =
              foldl f e <$> ((fun tid => g <$> GB_slice Ax anz ntasks tid)
                               <$> seq 0 ntasks)).
    { rewrite <- !list_fmap_compose. apply list_fmap_ext.
      intros i tid Hi. unfold compose.
      destruct (task_value blocksz Ax anz ntasks tid HV)
        as (pre & post & Hslice & HWtid & _ & Hw0).
      assert (Hw : (task tid).2 = false).
      { destruct ((task tid).2) eqn:Hw; [|done].
        assert (existsb snd (task <$> seq 0 ntasks) = true);
          [|congruence].
        apply existsb_exists. exists (task tid). split; [|done].
        apply list_elem_of_In, list_elem_of_fmap_2.
        by eapply list_elem_of_lookup_2. }
      destruct (Hw0 Hw) as [->|[b Hb]]; [|by rewrite Hnoflag in Hb].
      rewrite app_nil_r in Hslice. by rewrite HWtid, Hslice. }
    rewrite Htasks, (sum_concat rd lawful).
    + f_equal.
      transitivity (g <$> concat (GB_slice Ax anz ntasks <$> seq 0 ntasks));
        [|by rewrite slices_concat].
      clear. induction (seq 0 ntasks) as [|tid l IH]; [done|].
      cbn [fmap list_fmap concat]. by rewrite fmap_app, IH.
    + apply Forall_fmap, Forall_forall. intros tid _. cbn.
      by apply slice_sized.
Qed.

End Run.

End TemplateCorrect.

(** ** The result does not depend on how the matrix is stored *)

(** Reduction correctness for a call: the scalar [s] is the fold of the
    values of the entries. *)
Lemma reduce_value_correct env rd A sched Context ee :
  GB_monoid_lawful rd ->
  GB_matrix_ok A ->
  Forall (fun v => length (GB_entry_value env rd A v) = size (ztype (op rd)))
    (take (Z.to_nat (GB_NNZ A)) (m_x A)) ->
  (forall tid b, sched tid b = true ->
     (GB_reduce_value env sched rd Context A ee).2 = true) ->
  (GB_reduce_value env sched rd Context A ee).1 =
    foldl (function (op rd)) (identity rd)
      (GB_entry_value env rd A <$> take (Z.to_nat (GB_NNZ A)) (m_x A)).
Proof.
  intros Hlaw Hok HV Hsched. unfold GB_reduce_value in *.
  destruct (Z.eqb_spec (GB_NNZ A) 0) as [Hz|Hnz].
  - rewrite Hz. change (Z.to_nat 0) with 0%nat. rewrite take_0.
    cbn [fst fmap list_fmap foldl]. unfold memcpy. apply take_ge.
    rewrite (law_identity_size rd Hlaw). lia.
  - assert (Hnonneg : 0 <= GB_NNZ A).
    { destruct Hok as [Hnvec ? ? ?].
      apply (matrix_ok_bounds A); [done|lia|lia]. }
    apply (template_correct env rd A sched Hlaw).
    + pose proof (reduce_ntasks_pos (GB_ngpus_to_use env (GB_NNZ A)) Context
                    (GB_NNZ A)).
      unfold GB_ntasks_of. lia.
    + rewrite length_take. destruct Hok as [_ _ _ Hend].
      unfold GB_NNZ in *. lia.
    + by apply Forall_fmap.
    + done.
Qed.

(** C8: two stored forms of the same matrix (the same entries
    [(row, column, value)], held by row or by column, hypersparse or not)
    reduce to the same scalar under every lawful monoid. *)
Theorem reduce_storage_independent (env : GB_env)
    (sched sched' : nat -> nat -> bool) (ctype : GrB_Type)
    (accum : option GrB_BinaryOp) (reduce : option GrB_Monoid)
    (Context : GB_Context) (st st' : GB_reduce_state)
    (rd : GrB_Monoid) (c : GB_void) (A A' : GrB_Matrix) :
  GB_reduce_admitted env ctype accum reduce Context st rd c A ->
  GB_reduce_admitted env ctype accum reduce Context st' rd c A' ->
  GB_monoid_lawful rd ->
  GB_matrix_ok A -> GB_matrix_ok A' ->
  m_type A' = m_type A ->
  GB_entries A ≡ₚ GB_entries A' ->
  Forall (fun e : Z * Z * GB_void =>
            length (GB_entry_value env rd A e.2) = size (ztype (op rd)))
    (GB_entries A) ->
  let r := GB_run (GB_reduce_to_scalar env sched ctype accum reduce Context)
             st in
  let r' := GB_run (GB_reduce_to_scalar env sched' ctype accum reduce
                      Context) st' in
  GB_sched_consistent sched r.2 ->
  GB_sched_consistent sched' r'.2 ->
  r.1 = GrB_SUCCESS /\ r'.1 = GrB_SUCCESS /\
  st_c r.2 = st_c r'.2 /\
  st_c r.2 =
    Some (GB_accum_scalar env ctype accum (ztype (op rd)) c
            (foldl (function (op rd)) (identity rd)
               ((fun e : Z * Z * GB_void => GB_entry_value env rd A e.2)
                  <$> GB_entries A))).
Proof.
  intros Hadm Hadm' Hlaw Hok Hok' Htype Hperm HV r r'. subst r r'.
  rewrite (reduce_admitted_run _ sched _ _ _ _ _ _ _ _ Hadm).
  rewrite (reduce_admitted_run _ sched' _ _ _ _ _ _ _ _ Hadm').
  unfold GB_sched_consistent. cbn [fst snd st_c st_early_exit].
  intros Hsched Hsched'.
  assert (Hg : GB_entry_value env rd A' = GB_entry_value env rd A).
  { unfold GB_entry_value. by rewrite Htype. }
  assert (HV' : Forall (fun e : Z * Z * GB_void =>
                  length (GB_entry_value env rd A' e.2)
                    = size (ztype (op rd))) (GB_entries A')).
  { rewrite Hg, <- Hperm. done. }
  rewrite (reduce_value_correct env rd A sched Context _ Hlaw Hok);
    [| |done].
  2: { rewrite <- (values_of_entries A Hok). by apply Forall_fmap. }
  rewrite (reduce_value_correct env rd A' sched' Context _ Hlaw Hok');
    [| |done].
  2: { rewrite <- (values_of_entries A' Hok'). by apply Forall_fmap. }
  rewrite <- (values_of_entries A Hok), <- (values_of_entries A' Hok').
  rewrite <- !list_fmap_compose, Hg.
  assert (Hsum :
    foldl (function (op rd)) (identity rd)
      (GB_entry_value env rd A ∘ (fun e : Z * Z * GB_void => e.2)
         <$> GB_entries A) =
    foldl (function (op rd)) (identity rd)
      (GB_entry_value env rd A ∘ (fun e : Z * Z * GB_void => e.2)
         <$> GB_entries A')).
  { apply (sum_perm rd Hlaw).
    - by rewrite Hperm.
    - apply (law_identity_size rd Hlaw).
    - by apply Forall_fmap. }
  rewrite <- Hsum. done.
Qed.

(** *** The PLUS monoid over UINT8 is lawful *)

Lemma u8_spec n : exists b, Ex.u8 n = [b] /\ Byte.to_N b = (n mod 256)%N.
Proof.
  unfold Ex.u8. destruct (Byte.of_N (n mod 256)) as [b|] eqn:Hb.
  - exists b. split; [done|]. by apply Byte.to_of_N.
  - apply Byte.of_N_None_iff in Hb.
    pose proof (N.mod_upper_bound n 256). lia.
Qed.

Lemma u8_to_N b : Ex.u8 (Byte.to_N b) = [b].
Proof.
  unfold Ex.u8. pose proof (Byte.to_N_bounded b).
  rewrite N.mod_small by lia. by rewrite Byte.of_to_N.
Qed.

Lemma u8_mod n m : (n mod 256 = m mod 256)%N -> Ex.u8 n = Ex.u8 m.
Proof. unfold Ex.u8. by intros ->. Qed.

Lemma plus_uint8_lawful : GB_monoid_lawful Ex.GxB_PLUS_UINT8_MONOID.
Proof.
  split; cbn.
  - reflexivity.
  - intros [|a [|a1 x1]] [|b [|b1 y1]]; try discriminate. reflexivity.
  - intros [|a [|a1 x1]] [|b [|b1 y1]] [|c [|c1 z1]]; try discriminate.
    intros _ _ _. cbn.
    destruct (u8_spec (Byte.to_N a + Byte.to_N b)) as (d & -> & Hd).
    destruct (u8_spec (Byte.to_N b + Byte.to_N c)) as (d' & -> & Hd').
    cbn. rewrite Hd, Hd'. apply u8_mod.
    rewrite N.Div0.add_mod_idemp_l, N.Div0.add_mod_idemp_r. f_equal. lia.
  - intros [|a [|a1 x1]] [|b [|b1 y1]]; try discriminate. intros _ _. cbn.
    by rewrite N.add_comm.
  - intros [|a [|a1 x1]]; try discriminate. intros _.
    change (Ex.u8 0) with ["000"%byte]. cbn. apply u8_to_N.
  - intros t x Ht. discriminate Ht.
Qed.

Lemma A22_csc_ok : GB_matrix_ok Ex.A22_csc.
Proof.
  split; try done. intros k ? ?.
  assert (Hk : k = 0 \/ k = 1) by (cbn in *; lia).
  by destruct Hk as [-> | ->].
Qed.

Lemma A22_csr_ok : GB_matrix_ok Ex.A22_csr.
Proof.
  split; try done. intros k ? ?.
  assert (Hk : k = 0 \/ k = 1) by (cbn in *; lia).
  by destruct Hk as [-> | ->].
Qed.

Lemma A22_hyper_ok : GB_matrix_ok Ex.A22_hyper.
Proof.
  split; try done. intros k ? ?.
  assert (Hk : k = 0 \/ k = 1) by (cbn in *; lia).
  by destruct Hk as [-> | ->].
Qed.

(** S3 of the spec in small: the matrix [[1 2] [3 4]] reduces to 10 by
    PLUS whether it is held by column, by row, or by column in hypersparse
    form. *)
Lemma reduce_storage_independent_witness :
  let reduce := GB_reduce_to_scalar Ex.env (fun _ _ => false) Ex.GrB_UINT8
                  None (Some Ex.GxB_PLUS_UINT8_MONOID) Ex.Context in
  let r := GB_run reduce (Ex.reduce_state Ex.A22_csc) in
  let r' := GB_run reduce (Ex.reduce_state Ex.A22_csr) in
  let r'' := GB_run reduce (Ex.reduce_state Ex.A22_hyper) in
  GB_entries Ex.A22_csc ≡ₚ GB_entries Ex.A22_csr /\
  m_x Ex.A22_csc <> m_x Ex.A22_csr /\
  st_c r.2 = st_c r'.2 /\ st_c r.2 = st_c r''.2 /\
  st_c r.2 = Some (Ex.u8 10).
Proof.
  intros reduce r r' r''.
  assert (Hperm : GB_entries Ex.A22_csc ≡ₚ GB_entries Ex.A22_csr).
  { vm_compute. apply perm_skip, perm_swap. }
  split; [exact Hperm|]. split; [discriminate|].
  destruct (reduce_storage_independent Ex.env (fun _ _ => false)
              (fun _ _ => false) Ex.GrB_UINT8 None
              (Some Ex.GxB_PLUS_UINT8_MONOID) Ex.Context
              (Ex.reduce_state Ex.A22_csc) (Ex.reduce_state Ex.A22_csr)
              Ex.GxB_PLUS_UINT8_MONOID (Ex.u8 7) Ex.A22_csc Ex.A22_csr)
    as (_ & _ & Hsame & Hvalue).
  - split; reflexivity.
  - split; reflexivity.
  - exact plus_uint8_lawful.
  - exact A22_csc_ok.
  - exact A22_csr_ok.
  - reflexivity.
  - exact Hperm.
  - vm_compute. repeat constructor.
  - intros tid b Hb. discriminate Hb.
  - intros tid b Hb. discriminate Hb.
  - destruct (reduce_storage_independent Ex.env (fun _ _ => false)
                (fun _ _ => false) Ex.GrB_UINT8 None
                (Some Ex.GxB_PLUS_UINT8_MONOID) Ex.Context
                (Ex.reduce_state Ex.A22_csc) (Ex.reduce_state Ex.A22_hyper)
                Ex.GxB_PLUS_UINT8_MONOID (Ex.u8 7) Ex.A22_csc Ex.A22_hyper)
      as (_ & _ & Hhyper & _).
    + split; reflexivity.
    + split; reflexivity.
    + exact plus_uint8_lawful.
    + exact A22_csc_ok.
    + exact A22_hyper_ok.
    + reflexivity.
    + reflexivity.
    + vm_compute. repeat constructor.
    + intros tid b Hb. discriminate Hb.
    + intros tid b Hb. discriminate Hb.
    + split; [exact Hsame|]. split; [exact Hhyper|].
      etransitivity; [exact Hvalue|reflexivity].
Defined.
(** ** GB_cblas_saxpy *)

Module DenseFacts.
Import Dense.

Lemma INT_MAX_pos : 0 < INT_MAX.
Proof. done. Qed.

(** The calls of the loop from [p] on, for a recording [call]. *)
Lemma calls_loop fuel : forall n p calls,
  0 <= p ->
  n - p <= Z.of_nat fuel * INT_MAX ->
  exists rest,
    GB_cblas_saxpy_loop (fun chunk p calls => calls ++ [(p, chunk)])
      fuel n p calls = Some (calls ++ rest) /\
    Forall (fun c : Z * Z => p <= c.1 < n /\ 1 <= c.2 <= INT_MAX) rest /\
    tiles p rest (Z.max p n) /\
    (forall St (call : Z -> Z -> St -> St) (st : St),
       GB_cblas_saxpy_loop call fuel n p st =
         Some (foldl (fun st c => call c.2 c.1 st) st rest)) /\
    Z.of_nat (length rest) = (Z.max 0 (n - p) + INT_MAX - 1) `div` INT_MAX.
Proof.
  pose proof INT_MAX_pos as Hpos.
  induction fuel as [|fuel IH]; intros n p calls Hp Hfuel.
  - cbn [GB_cblas_saxpy_loop]. destruct (Z.ltb_spec p n); [lia|].
    exists []. rewrite app_nil_r.
    split; [done|]. split; [done|]. split; [cbn; lia|]. split.
    { intros St call st. cbn. destruct (Z.ltb_spec p n); [lia|done]. }
    cbn. rewrite Z.max_l by lia. symmetry. apply Z.div_small. lia.
  - cbn [GB_cblas_saxpy_loop]. destruct (Z.ltb_spec p n) as [Hlt|Hge].
    + destruct (IH n (p + INT_MAX)
                  (calls ++ [(p, GB_IMIN (n - p) INT_MAX)]))
        as (rest & Hrun & Hchunks & Htiles & Hcalls & Hlen); [lia|lia|].
      exists ((p, GB_IMIN (n - p) INT_MAX) :: rest).
      rewrite Hrun, <- app_assoc. rewrite GB_IMIN_min.
      split; [done|]. split.
      { constructor; [cbn; lia|].
        eapply Forall_impl; [exact Hchunks|]. cbn. lia. }
      split; [|split].
      * cbn [tiles]. split; [done|].
        destruct (Z.le_gt_cases INT_MAX (n - p)).
        -- rewrite Z.min_r by lia. by replace (Z.max p n)
             with (Z.max (p + INT_MAX) n) by lia.
        -- rewrite Z.min_l by lia.
           replace (p + (n - p)) with n by lia.
           replace (Z.max p n) with n by lia.
           replace (Z.max (p + INT_MAX) n) with (p + INT_MAX) in Htiles
             by lia.
           assert (Hrest : rest = []).
           { apply length_zero_iff_nil.
             replace (Z.max 0 (n - (p + INT_MAX))) with 0 in Hlen by lia.
             rewrite Z.div_small in Hlen by lia. lia. }
           subst rest. cbn. done.
      * intros St call st. cbn [GB_cblas_saxpy_loop foldl fst snd].
        destruct (Z.ltb_spec p n); [|lia]. apply Hcalls.
      * cbn [length]. rewrite Nat2Z.inj_succ, Hlen.
        replace (Z.max 0 (n - p)) with (n - p) by lia.
        destruct (Z.le_gt_cases INT_MAX (n - p)).
        -- replace (Z.max 0 (n - (p + INT_MAX))) with (n - p - INT_MAX)
             by lia.
           replace (n - p + INT_MAX - 1)
             with (n - p - INT_MAX + INT_MAX - 1 + 1 * INT_MAX) by lia.
           rewrite Z.div_add by lia. lia.
        -- replace (Z.max 0 (n - (p + INT_MAX))) with 0 by lia.
           rewrite (Z.div_small (0 + INT_MAX - 1)) by lia.
           replace (n - p + INT_MAX - 1)
             with (n - p - 1 + 1 * INT_MAX) by lia.
           rewrite Z.div_add by lia. rewrite Z.div_small by lia. done.
    + exists []. rewrite app_nil_r.
      split; [done|]. split; [done|]. split; [cbn; lia|]. split.
      { intros St call st. cbn. destruct (Z.ltb_spec p n); [lia|done]. }
      cbn. rewrite Z.max_l by lia. symmetry. apply Z.div_small. lia.
Qed.

Lemma fuel_enough n : n - 0 <= Z.of_nat (GB_cblas_saxpy_fuel n) * INT_MAX.
Proof.
  pose proof INT_MAX_pos. unfold GB_cblas_saxpy_fuel.
  destruct (Z.le_gt_cases n 0) as [Hn|Hn]; [nia|].
  assert (0 <= n `div` INT_MAX) by (apply Z.div_pos; lia).
  rewrite Z2Nat.id by lia.
  pose proof (Z.mul_succ_div_gt n INT_MAX). lia.
Qed.



Section SaxpyFacts.
Context {float : Type}.
Variable fmul fadd : float -> float -> float.
Variable alpha : float.

Local Abbreviation axpy_at := (Dense.axpy_at fmul fadd alpha).

Lemma cblas_saxpy_lookup_nat (m : nat) (X Y : list float) (j : nat) :
  cblas_saxpy fmul fadd (Z.of_nat m) alpha X 1 Y 1 !! j =
    if decide (j < m)%nat then axpy_at X Y j else Y !! j.
Proof.
  unfold cblas_saxpy, Dense.axpy_at. induction m as [|m IH].
  - cbn. by destruct (decide _); [lia|].
  - rewrite seqZ_S, foldl_snoc.
    replace (Z.to_nat ((0 + Z.of_nat m) * 1)) with m by lia.
    destruct (X !! m) as [x|] eqn:Hx.
    + destruct (decide (j = m)) as [->|Hne].
      * rewrite list_lookup_alter, decide_True by done. rewrite IH, Hx.
        destruct (decide (m < m)%nat); [lia|].
        by destruct (decide (m < S m)%nat); [|lia].
      * rewrite list_lookup_alter_ne by lia. rewrite IH.
        destruct (decide (j < m)%nat), (decide (j < S m)%nat);
          try lia; done.
    + rewrite IH.
      destruct (decide (j < m)%nat), (decide (j < S m)%nat); try lia; try done.
      assert (j = m) as -> by lia. by rewrite Hx.
Qed.

Lemma cblas_saxpy_lookup (n : Z) (X Y : list float) (j : nat) :
  cblas_saxpy fmul fadd n alpha X 1 Y 1 !! j =
    if decide (Z.of_nat j < n) then axpy_at X Y j else Y !! j.
Proof.
  destruct (Z.le_gt_cases n 0) as [Hn|Hn].
  - unfold cblas_saxpy. rewrite seqZ_nil by done. cbn.
    by destruct (decide _); [lia|].
  - rewrite <- (Z2Nat.id n) at 1 by lia. rewrite cblas_saxpy_lookup_nat.
    destruct (decide (j < Z.to_nat n)%nat), (decide (Z.of_nat j < n));
      try lia; done.
Qed.

Lemma length_cblas_saxpy (n : Z) (X Y : list float) (incx incy : Z) :
  length (cblas_saxpy fmul fadd n alpha X incx Y incy) = length Y.
Proof.
  unfold cblas_saxpy. generalize (seqZ 0 n) as ks. intros ks.
  revert Y. induction ks as [|k ks IH]; intros Y; [done|].
  cbn [foldl]. rewrite IH. destruct (X !! _); [|done].
  apply length_alter.
Qed.

Variable X : list float.

Lemma length_chunk chunk p (Y : list float) :
  length (GB_cblas_saxpy_chunk fmul fadd alpha X chunk p Y) = length Y.
Proof.
  unfold GB_cblas_saxpy_chunk.
  rewrite length_app, length_cblas_saxpy, length_take, length_drop. lia.
Qed.

Lemma chunk_lookup chunk p (Y : list float) (j : nat) :
  0 <= p -> (Z.to_nat p <= length Y)%nat ->
  GB_cblas_saxpy_chunk fmul fadd alpha X chunk p Y !! j =
    if decide (p <= Z.of_nat j < p + chunk) then axpy_at X Y j else Y !! j.
Proof.
  intros Hp Hlen. unfold GB_cblas_saxpy_chunk.
  destruct (decide (j < Z.to_nat p)%nat) as [Hlt|Hge].
  - rewrite lookup_app_l by (rewrite length_take; lia).
    rewrite lookup_take_lt by done.
    by destruct (decide _); [lia|].
  - rewrite lookup_app_r by (rewrite length_take; lia).
    rewrite length_take, Nat.min_l by done.
    rewrite cblas_saxpy_lookup. unfold Dense.axpy_at. rewrite !lookup_drop.
    replace (Z.to_nat p + (j - Z.to_nat p))%nat with j by lia.
    destruct (decide (Z.of_nat (j - Z.to_nat p) < chunk)),
      (decide (p <= Z.of_nat j < p + chunk)); try lia; done.
Qed.

Lemma loop_result fuel : forall n p (Y : list float),
  0 <= p -> n <= Z.of_nat (length Y) ->
  n - p <= Z.of_nat fuel * INT_MAX ->
  exists Y',
    GB_cblas_saxpy_loop (GB_cblas_saxpy_chunk fmul fadd alpha X)
      fuel n p Y = Some Y' /\
    length Y' = length Y /\
    forall j, Y' !! j =
      if decide (p <= Z.of_nat j < n) then axpy_at X Y j else Y !! j.
Proof.
  assert (Hpos : 0 < INT_MAX) by done.
  induction fuel as [|fuel IH]; intros n p Y Hp Hn Hfuel.
  - cbn [GB_cblas_saxpy_loop]. destruct (Z.ltb_spec p n); [lia|].
    exists Y. repeat split. intros j. by destruct (decide _); [lia|].
  - cbn [GB_cblas_saxpy_loop]. destruct (Z.ltb_spec p n) as [Hlt|Hge].
    + rewrite GB_IMIN_min.
      set (chunk := Z.min (n - p) INT_MAX).
      set (Y1 := GB_cblas_saxpy_chunk fmul fadd alpha X chunk p Y).
      assert (Hlen1 : length Y1 = length Y) by apply length_chunk.
      destruct (IH n (p + INT_MAX) Y1) as (Y' & Hrun & Hlen & Hlook);
        [lia|lia|lia|].
      exists Y'. split; [done|]. split; [lia|].
      intros j. rewrite Hlook. unfold Dense.axpy_at. subst Y1.
      rewrite chunk_lookup by lia. unfold Dense.axpy_at.
      destruct (decide (p + INT_MAX <= Z.of_nat j < n)),
        (decide (p <= Z.of_nat j < p + chunk)),
        (decide (p <= Z.of_nat j < n)); try lia; done.
    + exists Y. repeat split. intros j. by destruct (decide _); [lia|].
Qed.

Lemma saxpy_of_lookup (n : nat) (Y : list float) (j : nat) :
  (n <= length X)%nat -> (n <= length Y)%nat ->
  saxpy_of fmul fadd n alpha X Y !! j =
    if decide (j < n)%nat then axpy_at X Y j else Y !! j.
Proof.
  intros HX HY. unfold saxpy_of, Dense.axpy_at.
  destruct (decide (j < n)%nat) as [Hlt|Hge].
  - rewrite lookup_app_l
      by (rewrite length_zip_with, !length_take; lia).
    rewrite lookup_zip_with, !lookup_take_lt by done.
    destruct (lookup_lt_is_Some_2 X j) as [x ->]; [lia|].
    by destruct (Y !! j).
  - rewrite lookup_app_r
      by (rewrite length_zip_with, !length_take; lia).
    rewrite length_zip_with, !length_take, lookup_drop. f_equal. lia.
Qed.

End SaxpyFacts.
End DenseFacts.

(** X1: [GB_cblas_saxpy] hands the [n] elements to [cblas_saxpy] in
    chunks that follow one another from 0 to [n] with no gap and no
    overlap; every chunk starts below [n] and has between 1 and [INT_MAX]
    elements, so its length fits the [int] parameter of the CBLAS; there
    are [ceil (n / INT_MAX)] calls, none when [n <= 0].  The function is
    these calls, in this order. *)
Theorem cblas_saxpy_chunks (n : Z) :
  exists calls,
    Dense.GB_cblas_saxpy_calls n = Some calls /\
    Forall (fun c : Z * Z =>
              0 <= c.1 < n /\ 1 <= c.2 <= Dense.INT_MAX) calls /\
    Dense.tiles 0 calls (Z.max 0 n) /\
    Z.of_nat (length calls) =
      (Z.max 0 n + Dense.INT_MAX - 1) `div` Dense.INT_MAX /\
    forall (float : Type) (fmul fadd : float -> float -> float)
           (alpha : float) (X Y : list float) (nthreads : Z),
      Dense.GB_cblas_saxpy fmul fadd true n alpha X Y nthreads =
        Some (foldl (fun Y c =>
                       Dense.GB_cblas_saxpy_chunk fmul fadd alpha X
                         c.2 c.1 Y) Y calls).
Proof.
  destruct (DenseFacts.calls_loop (Dense.GB_cblas_saxpy_fuel n) n 0 [])
    as (calls & Hrun & Hchunks & Htiles & Hcalls & Hlen);
    [done|apply DenseFacts.fuel_enough|].
  exists calls. split; [exact Hrun|]. split; [exact Hchunks|].
  split; [exact Htiles|]. split.
  - rewrite Hlen. by rewrite Z.sub_0_r.
  - intros float fmul fadd alpha X Y nthreads. apply Hcalls.
Qed.

(** Five thousand million elements go in three calls. *)
Example cblas_saxpy_chunks_5e9 :
  Dense.GB_cblas_saxpy_calls 5000000000 =
    Some [(0, 2147483647); (2147483647, 2147483647);
          (4294967294, 705032706)].
Proof. vm_compute. reflexivity. Qed.

(** X2: with a CBLAS library, [GB_cblas_saxpy (n, alpha, X, Y, nthreads)]
    leaves [alpha * X [j] + Y [j]] in [Y [j]] for every [j < n], each
    element updated once, and does not touch [Y] from [n] on, however
    many chunks [n] needs and whatever [nthreads] is; nothing is done for
    [n <= 0].  Without a CBLAS library it is a stub and [Y] is
    unchanged. *)
Theorem cblas_saxpy_result {float : Type}
    (fmul fadd : float -> float -> float) (GB_HAS_CBLAS : bool) (n : Z)
    (alpha : float) (X Y : list float) (nthreads : Z) :
  n <= Z.of_nat (length X) -> n <= Z.of_nat (length Y) ->
  Dense.GB_cblas_saxpy fmul fadd GB_HAS_CBLAS n alpha X Y nthreads =
    Some (if GB_HAS_CBLAS
          then Dense.saxpy_of fmul fadd (Z.to_nat n) alpha X Y
          else Y).
Proof.
  intros HX HY. unfold Dense.GB_cblas_saxpy.
  destruct GB_HAS_CBLAS; [|done].
  destruct (DenseFacts.loop_result fmul fadd alpha X
              (Dense.GB_cblas_saxpy_fuel n) n 0 Y)
    as (Y' & -> & Hlen & Hlook);
    [done|done|apply DenseFacts.fuel_enough|].
  f_equal. apply list_eq. intros j.
  rewrite Hlook, DenseFacts.saxpy_of_lookup by lia.
  destruct (decide (0 <= Z.of_nat j < n)), (decide (j < Z.to_nat n)%nat);
    try lia; done.
Qed.

(** On integers standing for the floats: [Y += 2 * X] on the first three
    of four elements. *)
Lemma cblas_saxpy_result_witness :
  Dense.GB_cblas_saxpy Z.mul Z.add true 3 2 [1; 2; 3; 4] [10; 20; 30; 40] 8
    = Some [12; 24; 36; 40].
Proof.
  exact (cblas_saxpy_result Z.mul Z.add true 3 2 [1; 2; 3; 4]
           [10; 20; 30; 40] 8 ltac:(cbn; lia) ltac:(cbn; lia)).
Defined.

(** ** GB_unop_apply__minv_uint32_uint32 *)

Module UnopFacts.
Import Unop.

Section Minv.
Variable GB_IMINV_UNSIGNED : Z -> Z -> Z.

Local Abbreviation op := (minv_uint32 GB_IMINV_UNSIGNED).
Local Abbreviation body Cx Ax :=
  (fun heap p => GB_CAST_OP GB_IMINV_UNSIGNED Cx Ax heap p p).

(** The iterations [l], in any order without repetition, leave in [Cx]
    the operator applied to the original [A] at the positions of [l]. *)
Lemma apply_iterations (Cx Ax : nat) (A : list Z) (l : list Z) :
  forall (heap : GB_heap) (A' C' : list Z),
  NoDup l ->
  Forall (fun p => 0 <= p < Z.of_nat (length C')) l ->
  heap !! Ax = Some A' -> heap !! Cx = Some C' ->
  (forall p, p ∈ l -> arr A' p = arr A p) ->
  exists C'',
    foldl (body Cx Ax) heap l = <[Cx := C'']> heap /\
    length C'' = length C' /\
    forall j : nat, C'' !! j =
      if decide (Z.of_nat j ∈ l) then Some (op (arr A (Z.of_nat j)))
      else C' !! j.
Proof.
  induction l as [|p l IH]; intros heap A' C' Hnd Hb HA HC Horig.
  - exists C'. cbn [foldl]. split; [by rewrite list_insert_id|].
    split; [done|].
    intros j. destruct (decide _) as [Hin|]; [|done].
    by apply elem_of_nil in Hin.
  - apply NoDup_cons in Hnd as [Hp Hnd].
    apply Forall_cons_1 in Hb as [Hpb Hb].
    cbn [foldl]. unfold GB_CAST_OP at 2.
    rewrite (list_lookup_total_correct _ _ _ HA).
    rewrite (list_lookup_total_correct _ _ _ HC).
    rewrite (Horig p) by set_in.
    fold (op (arr A p)).
    set (C1 := <[Z.to_nat p := op (arr A p)]> C').
    set (heap1 := <[Cx := C1]> heap).
    assert (HCx : (Cx < length heap)%nat) by by eapply lookup_lt_Some.
    assert (HC1 : heap1 !! Cx = Some C1)
      by by apply list_lookup_insert_eq.
    assert (Hlen1 : length C1 = length C') by apply length_insert.
    assert (HA1 : exists A1, heap1 !! Ax = Some A1 /\
              forall q, q ∈ l -> arr A1 q = arr A q).
    { destruct (decide (Cx = Ax)) as [<-|Hne].
      - exists C1. split; [done|]. intros q Hq.
        assert (A' = C') as <- by congruence.
        unfold C1, arr.
        rewrite list_lookup_total_insert_ne.
        + apply Horig. set_in.
        + rewrite Forall_forall in Hb. specialize (Hb q Hq).
          intros Heq. apply Hp. assert (p = q) as -> by lia. done.
      - exists A'. split.
        + unfold heap1. by rewrite list_lookup_insert_ne.
        + intros q Hq. apply Horig. set_in. }
    destruct HA1 as (A1 & HA1 & Horig1).
    destruct (IH heap1 A1 C1 Hnd) as (C'' & Hrun & Hlen & Hlook);
      [by rewrite Hlen1|done|done|done|].
    exists C''. split; [|split].
    + rewrite Hrun. unfold heap1. by rewrite list_insert_insert_eq.
    + lia.
    + intros j. rewrite Hlook.
      destruct (decide (Z.of_nat j = p)) as [Hj|Hj].
      * subst p. destruct (decide (Z.of_nat j ∈ l)); [done|].
        rewrite decide_True by set_in.
        unfold C1. rewrite Nat2Z.id.
        apply list_lookup_insert_eq. lia.
      * destruct (decide (Z.of_nat j ∈ l)) as [Hin|Hin].
        -- rewrite decide_True by set_in. done.
        -- rewrite decide_False.
           ++ unfold C1. apply list_lookup_insert_ne. lia.
           ++ rewrite elem_of_cons. intros [?|?]; done.
Qed.

End Minv.
End UnopFacts.

(** X3: [GB_unop_apply__minv_uint32_uint32] leaves
    [Cx [p] = op (Ax [p])] for every [p < anz] and the rest of [Cx] as it
    was, in whatever order the iterations of the parallel loop are run,
    for any [nthreads], and also when [Cx] and [Ax] are the same array
    (the operator is then applied in place, each entry read before it is
    overwritten); no other array is touched.  When the operator is
    disabled ([GB_DISABLE]) it returns [GrB_NO_VALUE] and touches
    nothing. *)
Theorem unop_apply_any_order_in_place (GB_IMINV_UNSIGNED : Z -> Z -> Z)
    (GxB_NO_MINV GxB_NO_UINT32 : bool) (schedule : list Z -> list Z)
    (heap : list (list Z)) (Cx Ax : nat) (anz nthreads : Z)
    (A C : list Z) :
  (forall l, schedule l ≡ₚ l) ->
  heap !! Ax = Some A -> heap !! Cx = Some C ->
  anz <= Z.of_nat (length A) -> anz <= Z.of_nat (length C) ->
  Unop.GB_unop_apply__minv_uint32_uint32 GB_IMINV_UNSIGNED
      GxB_NO_MINV GxB_NO_UINT32 schedule heap Cx Ax anz nthreads =
    if Unop.GB_DISABLE GxB_NO_MINV GxB_NO_UINT32
    then (GrB_NO_VALUE, heap)
    else
      (GrB_SUCCESS,
       <[Cx := (Unop.minv_uint32 GB_IMINV_UNSIGNED
                  <$> take (Z.to_nat anz) A) ++
               drop (Z.to_nat anz) C]> heap).
Proof.
  intros Hperm HA HC HlenA HlenC.
  unfold Unop.GB_unop_apply__minv_uint32_uint32.
  destruct (Unop.GB_DISABLE _ _); [done|]. f_equal.
  destruct (UnopFacts.apply_iterations GB_IMINV_UNSIGNED Cx Ax A
              (schedule (seqZ 0 anz)) heap A C)
    as (C'' & -> & Hlen & Hlook); [| |done|done|done|].
  { rewrite Hperm. apply NoDup_seqZ. }
  { rewrite Hperm. apply Forall_seqZ. lia. }
  f_equal. apply list_eq. intros j. rewrite Hlook.
  destruct (decide (j < Z.to_nat anz)%nat) as [Hlt|Hge].
  - rewrite decide_True by (rewrite Hperm, elem_of_seqZ; lia).
    rewrite lookup_app_l by (rewrite length_fmap, length_take; lia).
    rewrite list_lookup_fmap, lookup_take_lt by done.
    unfold arr. rewrite Nat2Z.id.
    destruct (lookup_lt_is_Some_2 A j) as [a Ha]; [lia|].
    by rewrite (list_lookup_total_correct _ _ _ Ha), Ha.
  - rewrite decide_False by (rewrite Hperm, elem_of_seqZ; lia).
    rewrite lookup_app_r by (rewrite length_fmap, length_take; lia).
    rewrite length_fmap, length_take, lookup_drop. f_equal. lia.
Qed.

(** In place ([Cx] and [Ax] the same array), the iterations run in
    reverse order, with an integer inverse standing for the macro. *)
Lemma unop_apply_any_order_in_place_witness :
  Unop.GB_unop_apply__minv_uint32_uint32
    (fun x _ => if x =? 0 then 2 ^ 32 - 1 else 1 `div` x)
    false false reverse [[0; 1; 2; 7]] 0 0 3 4 =
  (GrB_SUCCESS, [[4294967295; 1; 0; 7]]).
Proof.
  exact (unop_apply_any_order_in_place
           (fun x _ => if x =? 0 then 2 ^ 32 - 1 else 1 `div` x)
           false false reverse [[0; 1; 2; 7]] 0 0 3 4 [0; 1; 2; 7]
           [0; 1; 2; 7] reverse_Permutation eq_refl eq_refl
           ltac:(cbn; lia) ltac:(cbn; lia)).
Defined.

(** ** The generated semirings *)

Lemma uint8_range v : 0 <= Gustavson.uint8 v <= 255.
Proof. unfold Gustavson.uint8. pose proof (Z.mod_pos_bound v 256). lia. Qed.

Lemma int8_range v : -128 <= GB_AxB__min_rdiv_int8.int8 v <= 127.
Proof.
  unfold GB_AxB__min_rdiv_int8.int8.
  pose proof (Z.mod_pos_bound (v + 128) 256). lia.
Qed.

(** The value a slot of the workspace ends with when every product goes
    to it through [GB_MULTADD_NOMASK]. *)
Lemma nomask_fold (mult add : Z -> Z -> Z) (i : Z) (prods : list (Z * Z)) :
  forall S : Gustavson.GB_Sauna,
  0 <= i -> (Z.to_nat i < length (Gustavson.Sauna_Work S))%nat ->
  arr (Gustavson.Sauna_Work
         (foldl (fun S ab => Gustavson.GB_MULTADD_NOMASK mult add S i
                               ab.1 ab.2) S prods)) i =
  foldl (fun c ab => add c (mult ab.1 ab.2))
    (arr (Gustavson.Sauna_Work S) i) prods.
Proof.
  induction prods as [|[a b] prods IH]; intros S Hi Hb; [done|].
  cbn [foldl fst snd]. rewrite IH; [|done|].
  - unfold Gustavson.GB_MULTADD_NOMASK. cbn.
    by rewrite arr_store_eq by done.
  - unfold Gustavson.GB_MULTADD_NOMASK. cbn. by rewrite length_store.
Qed.

Lemma products_same (mult : Z -> Z -> Z) (i : Z) (prods : list (Z * Z)) :
  Gustavson.products mult i ((fun ab : Z * Z => (i, ab.1, ab.2)) <$> prods)
  = (fun ab : Z * Z => mult ab.1 ab.2) <$> prods.
Proof.
  unfold Gustavson.products. induction prods as [|[a b] prods IH]; [done|].
  cbn [fmap list_fmap]. rewrite filter_cons_True by done.
  cbn [fmap list_fmap fst snd]. f_equal. exact IH.
Qed.

Lemma foldl_fmap_pairs (mult add : Z -> Z -> Z) (prods : list (Z * Z)) :
  forall c,
  foldl add c ((fun ab : Z * Z => mult ab.1 ab.2) <$> prods) =
  foldl (fun c ab => add c (mult ab.1 ab.2)) c prods.
Proof.
  induction prods as [|ab prods IH]; intros c; [done|]. cbn.
  by rewrite IH.
Qed.

(** X4: in the semiring max_rminus_uint8, once [cij] is the terminal
    value [UINT8_MAX] no further multiply-add changes it (every product
    [bkj - aki] is stored in a [uint8_t] and so is at most [UINT8_MAX]):
    the [break] of [GB_DOT_TERMINAL] leaves the dot product with the
    value it would have had at the end of the loop. *)
Theorem max_rminus_uint8_terminal_break_sound (cij : Z)
    (prods : list (Z * Z)) :
  GB_AxB__max_rminus_uint8.GB_DOT_TERMINAL cij = true ->
  foldl (fun cij ab =>
           GB_AxB__max_rminus_uint8.GB_DOT_ADD cij
             (GB_AxB__max_rminus_uint8.GB_DOT_MULT ab.1 ab.2))
    cij prods = cij.
Proof.
  unfold GB_AxB__max_rminus_uint8.GB_DOT_TERMINAL,
    GB_AxB__max_rminus_uint8.UINT8_MAX.
  intros Hterm. apply Z.eqb_eq in Hterm. subst cij.
  induction prods as [|[a b] prods IH]; [done|].
  cbn [foldl fst snd].
  unfold GB_AxB__max_rminus_uint8.GB_DOT_ADD at 2,
    GB_AxB__max_rminus_uint8.GB_DOT_MULT at 2.
  rewrite GB_IMAX_max. pose proof (uint8_range (b - a)).
  rewrite Z.max_l by lia. exact IH.
Qed.

Lemma max_rminus_uint8_terminal_break_sound_witness :
  foldl (fun cij ab =>
           GB_AxB__max_rminus_uint8.GB_DOT_ADD cij
             (GB_AxB__max_rminus_uint8.GB_DOT_MULT ab.1 ab.2))
    255 [(3, 1); (0, 255); (9, 9)] = 255.
Proof.
  exact (max_rminus_uint8_terminal_break_sound 255
           [(3, 1); (0, 255); (9, 9)] eq_refl).
Defined.

Lemma max_rminus_uint8_fold_range (rest : list (Z * Z)) : forall c,
  0 <= c <= 255 ->
  0 <= foldl (fun cij ab =>
                GB_AxB__max_rminus_uint8.GB_DOT_ADD cij
                  (GB_AxB__max_rminus_uint8.GB_DOT_MULT ab.1 ab.2))
         c rest <= GB_AxB__max_rminus_uint8.UINT8_MAX.
Proof.
  unfold GB_AxB__max_rminus_uint8.UINT8_MAX.
  induction rest as [|[a b] rest IH]; intros c Hc; [done|].
  cbn [foldl fst snd]. apply IH.
  unfold GB_AxB__max_rminus_uint8.GB_DOT_ADD,
    GB_AxB__max_rminus_uint8.GB_DOT_MULT.
  rewrite GB_IMAX_max. pose proof (uint8_range (b - a)). lia.
Qed.

(** X5: in the semiring max_rminus_uint8 the Gustavson, dot-product
    and heap macros give the same C(i,j) for the same products, met in
    the same order: the masked Gustavson slot (first product written,
    later ones added), the slot cleared with [GB_CLEARW] and updated with
    [GB_MULTADD_NOMASK], [GB_CIJ_MULTADD] from [GB_CIJ_CLEAR], and
    [GB_DOT_ADD] from [GB_DOT_CLEAR] or after [GB_DOT_COPY]; the value is
    a [uint8_t]. *)
Theorem max_rminus_uint8_kernels_agree (hiwater : Z)
    (S : Gustavson.GB_Sauna) (i a0 b0 : Z) (rest : list (Z * Z)) :
  Gustavson.in_bounds S i ->
  arr (Gustavson.Sauna_Mark S) i = hiwater ->
  let prods := (a0, b0) :: rest in
  let dot :=
    foldl (fun cij ab =>
             GB_AxB__max_rminus_uint8.GB_DOT_ADD cij
               (GB_AxB__max_rminus_uint8.GB_DOT_MULT ab.1 ab.2))
      (GB_AxB__max_rminus_uint8.GB_DOT_COPY
         (GB_AxB__max_rminus_uint8.GB_DOT_MULT a0 b0)) rest in
  (* Gustavson with a mask that admits (i,j) *)
  arr (Gustavson.Sauna_Work
         (Gustavson.GB_saxpy_vector Gustavson.rminus_uint8
            Gustavson.max_uint8 hiwater S
            ((fun ab : Z * Z => (i, ab.1, ab.2)) <$> prods))) i = dot /\
  (* Gustavson without mask, from a cleared slot *)
  arr (Gustavson.Sauna_Work
         (foldl (fun S ab =>
                   Gustavson.GB_MULTADD_NOMASK Gustavson.rminus_uint8
                     Gustavson.max_uint8 S i ab.1 ab.2)
            (GB_AxB__max_rminus_uint8.GB_CLEARW S i) prods)) i = dot /\
  (* heap *)
  foldl (fun cij ab =>
           GB_AxB__max_rminus_uint8.GB_CIJ_MULTADD cij ab.1 ab.2)
    GB_AxB__max_rminus_uint8.GB_CIJ_CLEAR prods = dot /\
  (* dot product started from the cleared value *)
  foldl (fun cij ab =>
           GB_AxB__max_rminus_uint8.GB_DOT_ADD cij
             (GB_AxB__max_rminus_uint8.GB_DOT_MULT ab.1 ab.2))
    GB_AxB__max_rminus_uint8.GB_DOT_CLEAR prods = dot /\
  0 <= dot <= GB_AxB__max_rminus_uint8.UINT8_MAX.
Proof.
  intros Hb Hmark prods dot.
  assert (Hfirst : forall c, c = 0 ->
            GB_IMAX c (Gustavson.uint8 (b0 - a0)) =
            Gustavson.uint8 (b0 - a0)).
  { intros c ->. rewrite GB_IMAX_max.
    pose proof (uint8_range (b0 - a0)). lia. }
  split; [|split; [|split; [|split]]].
  - pose proof (GustavsonFacts.saxpy_vector_unseen Gustavson.rminus_uint8
                  Gustavson.max_uint8 hiwater
                  ((fun ab : Z * Z => (i, ab.1, ab.2)) <$> prods) S i Hb)
      as H.
    cbv zeta in H. rewrite products_same in H.
    destruct H as [H _]; [|done|].
    + apply Forall_fmap, Forall_forall. intros ab _. cbn. apply Hb.
    + rewrite H. subst dot. apply foldl_fmap_pairs.
  - rewrite nomask_fold; [|apply Hb|].
    + unfold GB_AxB__max_rminus_uint8.GB_CLEARW. cbn [Gustavson.Sauna_Work].
      rewrite arr_store_eq by apply Hb.
      subst prods dot. cbn [foldl fst snd].
      unfold Gustavson.max_uint8 at 2, Gustavson.rminus_uint8 at 2.
      by rewrite Hfirst.
    + unfold GB_AxB__max_rminus_uint8.GB_CLEARW. cbn.
      rewrite length_store. apply Hb.
  - subst prods dot. cbn [foldl fst snd].
    unfold GB_AxB__max_rminus_uint8.GB_CIJ_MULTADD at 2.
    by rewrite Hfirst.
  - subst prods dot. cbn [foldl fst snd].
    unfold GB_AxB__max_rminus_uint8.GB_DOT_ADD at 2,
      GB_AxB__max_rminus_uint8.GB_DOT_MULT at 2.
    by rewrite Hfirst.
  - subst dot. apply max_rminus_uint8_fold_range.
    unfold GB_AxB__max_rminus_uint8.GB_DOT_COPY,
      GB_AxB__max_rminus_uint8.GB_DOT_MULT. apply uint8_range.
Qed.

Lemma max_rminus_uint8_kernels_agree_witness :
  let S := {| Gustavson.Sauna_Work := [77; 200; 13];
              Gustavson.Sauna_Mark := [3; 5; 0] |} in
  arr (Gustavson.Sauna_Work
         (Gustavson.GB_saxpy_vector Gustavson.rminus_uint8
            Gustavson.max_uint8 5 S [(1, 3, 10); (1, 9, 4); (1, 0, 6)])) 1
    = 251 /\
  foldl (fun cij ab =>
           GB_AxB__max_rminus_uint8.GB_CIJ_MULTADD cij ab.1 ab.2)
    GB_AxB__max_rminus_uint8.GB_CIJ_CLEAR [(3, 10); (9, 4); (0, 6)] = 251.
Proof.
  intros S.
  destruct (max_rminus_uint8_kernels_agree 5 S 1 3 10 [(9, 4); (0, 6)])
    as (Hgus & _ & Hheap & _).
  - unfold Gustavson.in_bounds. cbn. lia.
  - reflexivity.
  - split; [exact Hgus|exact Hheap].
Defined.

(** X6: in the semiring min_rdiv_int8, whatever [GB_IDIV_SIGNED]
    returns, the product is stored in an [int8_t]; hence the terminal
    value [INT8_MIN] absorbs every further multiply-add of the dot-product
    and heap kernels, and the identity [INT8_MAX] (the value of
    [GB_IDENTITY], [GB_DOT_CLEAR] and [GB_CIJ_CLEAR]) is neutral: adding
    the first product to a cleared value gives that product. *)
Theorem min_rdiv_int8_identity_and_terminal
    (GB_IDIV_SIGNED : Z -> Z -> Z -> Z) (cij : Z) (prods : list (Z * Z))
    (a b : Z) :
  GB_AxB__min_rdiv_int8.GB_DOT_TERMINAL cij = true ->
  foldl (fun cij ab =>
           GB_AxB__min_rdiv_int8.GB_DOT_ADD cij
             (GB_AxB__min_rdiv_int8.GB_DOT_MULT GB_IDIV_SIGNED ab.1 ab.2))
    cij prods = cij /\
  foldl (fun cij ab =>
           GB_AxB__min_rdiv_int8.GB_CIJ_MULTADD GB_IDIV_SIGNED cij
             ab.1 ab.2)
    cij prods = cij /\
  GB_AxB__min_rdiv_int8.GB_DOT_ADD GB_AxB__min_rdiv_int8.GB_DOT_CLEAR
      (GB_AxB__min_rdiv_int8.GB_DOT_MULT GB_IDIV_SIGNED a b) =
    GB_AxB__min_rdiv_int8.GB_DOT_COPY
      (GB_AxB__min_rdiv_int8.GB_DOT_MULT GB_IDIV_SIGNED a b) /\
  GB_AxB__min_rdiv_int8.GB_CIJ_MULTADD GB_IDIV_SIGNED
      GB_AxB__min_rdiv_int8.GB_CIJ_CLEAR a b =
    GB_AxB__min_rdiv_int8.GB_CIJ_MULT GB_IDIV_SIGNED a b /\
  GB_AxB__min_rdiv_int8.min_int8 GB_AxB__min_rdiv_int8.GB_IDENTITY
      (GB_AxB__min_rdiv_int8.rdiv_int8 GB_IDIV_SIGNED a b) =
    GB_AxB__min_rdiv_int8.rdiv_int8 GB_IDIV_SIGNED a b.
Proof.
  unfold GB_AxB__min_rdiv_int8.GB_DOT_TERMINAL,
    GB_AxB__min_rdiv_int8.INT8_MIN.
  intros Hterm. apply Z.eqb_eq in Hterm. subst cij.
  split; [|split; [|split; [|split]]].
  - induction prods as [|[x y] prods IH]; [done|].
    cbn [foldl fst snd].
    unfold GB_AxB__min_rdiv_int8.GB_DOT_ADD at 2,
      GB_AxB__min_rdiv_int8.GB_DOT_MULT at 2.
    rewrite GB_IMIN_min. pose proof (int8_range (GB_IDIV_SIGNED y x 8)).
    rewrite Z.min_l by lia. exact IH.
  - induction prods as [|[x y] prods IH]; [done|].
    cbn [foldl fst snd].
    unfold GB_AxB__min_rdiv_int8.GB_CIJ_MULTADD at 2.
    rewrite GB_IMIN_min. pose proof (int8_range (GB_IDIV_SIGNED y x 8)).
    rewrite Z.min_l by lia. exact IH.
  - unfold GB_AxB__min_rdiv_int8.GB_DOT_ADD,
      GB_AxB__min_rdiv_int8.GB_DOT_CLEAR, GB_AxB__min_rdiv_int8.GB_DOT_COPY,
      GB_AxB__min_rdiv_int8.GB_DOT_MULT, GB_AxB__min_rdiv_int8.INT8_MAX.
    rewrite GB_IMIN_min. pose proof (int8_range (GB_IDIV_SIGNED b a 8)). lia.
  - unfold GB_AxB__min_rdiv_int8.GB_CIJ_MULTADD,
      GB_AxB__min_rdiv_int8.GB_CIJ_CLEAR, GB_AxB__min_rdiv_int8.GB_CIJ_MULT,
      GB_AxB__min_rdiv_int8.INT8_MAX.
    rewrite GB_IMIN_min. pose proof (int8_range (GB_IDIV_SIGNED b a 8)). lia.
  - unfold GB_AxB__min_rdiv_int8.min_int8,
      GB_AxB__min_rdiv_int8.GB_IDENTITY, GB_AxB__min_rdiv_int8.rdiv_int8,
      GB_AxB__min_rdiv_int8.INT8_MAX.
    rewrite GB_IMIN_min. pose proof (int8_range (GB_IDIV_SIGNED b a 8)). lia.
Qed.

(** With the quotient of the integers standing for the macro. *)
Lemma min_rdiv_int8_identity_and_terminal_witness :
  foldl (fun cij ab =>
           GB_AxB__min_rdiv_int8.GB_DOT_ADD cij
             (GB_AxB__min_rdiv_int8.GB_DOT_MULT (fun x y _ => x `quot` y)
                ab.1 ab.2))
    (-128) [(3, 100); (-1, -128); (0, 5)] = -128.
Proof.
  exact (proj1 (min_rdiv_int8_identity_and_terminal
                  (fun x y _ => x `quot` y) (-128)
                  [(3, 100); (-1, -128); (0, 5)] 0 0 eq_refl)).
Defined.

(** X7: one expansion of [GB_MULTADD_WITH_MASK] for position [i], whose
    mark is [hiwater] or [hiwater+1], writes slot [i] only: the two
    arrays of the Sauna keep their lengths, every other slot keeps its
    value and its mark, and the mark of [i] is [hiwater+1] afterwards. *)
Theorem multadd_with_mask_touches_one_slot (mult add : Z -> Z -> Z)
    (S : Gustavson.GB_Sauna) (hiwater i aik bkj : Z) :
  Gustavson.in_bounds S i ->
  hiwater <= arr (Gustavson.Sauna_Mark S) i <= hiwater + 1 ->
  let S' := Gustavson.GB_MULTADD_WITH_MASK mult add S
              (arr (Gustavson.Sauna_Mark S) i) hiwater i aik bkj in
  length (Gustavson.Sauna_Work S') = length (Gustavson.Sauna_Work S) /\
  length (Gustavson.Sauna_Mark S') = length (Gustavson.Sauna_Mark S) /\
  arr (Gustavson.Sauna_Mark S') i = hiwater + 1 /\
  forall i', 0 <= i' -> i' <> i ->
    arr (Gustavson.Sauna_Work S') i' = arr (Gustavson.Sauna_Work S) i' /\
    arr (Gustavson.Sauna_Mark S') i' = arr (Gustavson.Sauna_Mark S) i'.
Proof.
  intros Hb Hmark S'. subst S'.
  unfold Gustavson.GB_MULTADD_WITH_MASK, Gustavson.GB_MULTADD_NOMASK.
  destruct (Z.eqb_spec (arr (Gustavson.Sauna_Mark S) i) hiwater) as [He|Hne];
    cbn [Gustavson.Sauna_Work Gustavson.Sauna_Mark].
  - rewrite !length_store. split; [done|]. split; [done|].
    split; [apply arr_store_eq, Hb|].
    intros i' Hi' Hne. rewrite !arr_store_ne by (done || apply Hb). done.
  - rewrite !length_store. split; [done|]. split; [done|].
    split; [lia|].
    intros i' Hi' Hne'. rewrite !arr_store_ne by (done || apply Hb). done.
Qed.

Lemma multadd_with_mask_touches_one_slot_witness :
  let S := {| Gustavson.Sauna_Work := [77; 200; 13];
              Gustavson.Sauna_Mark := [3; 5; 0] |} in
  Gustavson.GB_MULTADD_WITH_MASK__max_rminus_uint8 S 5 5 1 3 10 =
    {| Gustavson.Sauna_Work := [77; 7; 13];
       Gustavson.Sauna_Mark := [3; 6; 0] |} /\
  arr (Gustavson.Sauna_Mark
         (Gustavson.GB_MULTADD_WITH_MASK Gustavson.rminus_uint8
            Gustavson.max_uint8 S 5 5 1 3 10)) 1 = 6.
Proof.
  intros S. split; [reflexivity|].
  refine (proj1 (proj2 (proj2 (multadd_with_mask_touches_one_slot
            Gustavson.rminus_uint8 Gustavson.max_uint8 S 5 1 3 10 _ _)))).
  - unfold Gustavson.in_bounds. cbn. lia.
  - vm_compute. split; discriminate.
Defined.

(** ** GB_sel__triu_any *)

(** X8: [GB_SELECT_ENTRY (Cx, pC, Ax, pA)] copies the [asize] bytes of
    entry [pA] of [Ax] over entry [pC] of [Cx]: afterwards entry [pC] of
    [Cx] is entry [pA] of [Ax], every other entry of [Cx] is as before,
    and [Cx] has kept its length. *)
Theorem select_entry_moves_one_entry (asize : nat) (Cx Ax : GB_void)
    (pC pA : Z) :
  0 <= pC -> 0 <= pA ->
  ((Z.to_nat pC + 1) * asize <= length Cx)%nat ->
  ((Z.to_nat pA + 1) * asize <= length Ax)%nat ->
  let Cx' := GB_sel__triu_any.GB_SELECT_ENTRY asize Cx pC Ax pA in
  length Cx' = length Cx /\
  GB_sel__triu_any.entry asize Cx' pC = GB_sel__triu_any.entry asize Ax pA /\
  forall q, 0 <= q -> q <> pC ->
    GB_sel__triu_any.entry asize Cx' q = GB_sel__triu_any.entry asize Cx q.
Proof.
  intros HpC HpA HC HA Cx'. subst Cx'.
  unfold GB_sel__triu_any.GB_SELECT_ENTRY, GB_sel__triu_any.entry, memcpy.
  set (c := Z.to_nat pC) in *. set (a := Z.to_nat pA) in *.
  assert (Hlen1 : length (take (c * asize) Cx) = (c * asize)%nat)
    by (rewrite length_take; lia).
  assert (Hlen2 : length (take asize (drop (a * asize) Ax)) = asize)
    by (rewrite length_take, length_drop; lia).
  split; [|split].
  - rewrite !length_app, Hlen1, Hlen2, length_drop. lia.
  - rewrite drop_app_length' by done.
    by rewrite take_app_length' by done.
  - intros q Hq Hne. set (k := Z.to_nat q).
    assert (Hk : k <> c) by (unfold k, c; lia).
    apply list_eq. intros j.
    destruct (decide (j < asize)%nat) as [Hj|Hj];
      [|by rewrite !lookup_take_ge by lia].
    rewrite !lookup_take_lt, !lookup_drop by done.
    destruct (decide (k < c)%nat) as [Hlt|Hge].
    + assert (k * asize + j < c * asize)%nat by nia.
      rewrite lookup_app_l by lia. by rewrite lookup_take_lt.
    + assert (c * asize + asize <= k * asize + j)%nat by nia.
      rewrite lookup_app_r by lia. rewrite Hlen1.
      rewrite lookup_app_r by lia. rewrite Hlen2, lookup_drop.
      f_equal. lia.
Qed.

Lemma select_entry_moves_one_entry_witness :
  GB_sel__triu_any.GB_SELECT_ENTRY 2 (Ex.bytes [1; 2; 3; 4; 5; 6]%N) 1
    (Ex.bytes [10; 11; 12; 13]%N) 0 = Ex.bytes [1; 2; 10; 11; 5; 6]%N /\
  length (GB_sel__triu_any.GB_SELECT_ENTRY 2 (Ex.bytes [1; 2; 3; 4; 5; 6]%N)
            1 (Ex.bytes [10; 11; 12; 13]%N) 0) = 6%nat.
Proof.
  split; [reflexivity|].
  exact (proj1 (select_entry_moves_one_entry 2
           (Ex.bytes [1; 2; 3; 4; 5; 6]%N) (Ex.bytes [10; 11; 12; 13]%N)
           1 0 ltac:(lia) ltac:(lia) ltac:(cbn; lia) ltac:(cbn; lia))).
Defined.

(** ** gb_string_to_binop *)

Module MatlabFacts.
Import Matlab.

(** Writing a NUL inside a C string cuts it there. *)
Lemma cstring_cut (buf : list byte) : forall k : nat,
  (k < length (cstring buf))%nat ->
  cstring (<[k := NUL]> buf) = take k (cstring buf) /\
  cstring (drop (S k) (<[k := NUL]> buf)) = drop (S k) (cstring buf).
Proof.
  induction buf as [|c buf IH]; intros k Hk; [cbn in Hk; lia|].
  cbn [cstring] in *. destruct (decide (c = NUL)) as [->|Hc];
    [cbn in Hk; lia|].
  destruct k as [|k].
  - cbn. rewrite decide_True by done. by rewrite drop_0.
  - cbn [length] in Hk.
    change (<[S k := NUL]> (c :: buf)) with (c :: <[k := NUL]> buf).
    cbn [cstring drop take]. rewrite decide_False by done.
    destruct (IH k) as [H1 H2]; [lia|]. by rewrite H1, H2.
Qed.

End MatlabFacts.

(** X9: [gb_string_to_binop] splits the operator string at
    [position [0]]: when that position is inside the string, the operator
    is looked up under the text before it, with the type named by the
    text after it, and the types [atype] and [btype] of the operands play
    no part; the caller's buffer is cut there and holds the operator name
    only afterwards.  When the position is negative the whole string is
    the operator name, the type is the default type of [atype] and
    [btype], and the buffer is unchanged. *)
Theorem gb_string_to_binop_splits_at_position
    (gb_find_dot : list byte -> Z * Z)
    (gb_default_type : option GrB_Type -> option GrB_Type -> option GrB_Type)
    (gb_string_to_type : list byte -> option GrB_Type)
    (gb_string_and_type_to_binop :
       list byte -> option GrB_Type -> option GrB_BinaryOp)
    (opstring : list byte) (atype btype : option GrB_Type) :
  let s := Matlab.cstring opstring in
  let k := (gb_find_dot opstring).1 in
  let r := Matlab.gb_string_to_binop gb_find_dot gb_default_type
             gb_string_to_type gb_string_and_type_to_binop
             opstring atype btype in
  k < Z.of_nat (length s) ->
  if k <? 0 then
    r = (gb_string_and_type_to_binop s (gb_default_type atype btype),
         opstring)
  else
    r.1 = gb_string_and_type_to_binop (take (Z.to_nat k) s)
            (gb_string_to_type (drop (Z.to_nat k + 1) s)) /\
    Matlab.cstring r.2 = take (Z.to_nat k) s /\
    length r.2 = length opstring.
Proof.
  intros s k r Hk. subst r. unfold Matlab.gb_string_to_binop.
  fold k. cbv zeta.
  destruct (Z.ltb_spec k 0) as [Hneg|Hpos].
  - destruct (Z.leb_spec 0 k); [lia|]. by rewrite drop_0.
  - destruct (Z.leb_spec 0 k); [|lia]. cbn [fst snd]. rewrite drop_0.
    destruct (MatlabFacts.cstring_cut opstring (Z.to_nat k)) as [H1 H2];
      [fold s; lia|].
    replace (Z.to_nat (k + 1)) with (S (Z.to_nat k)) by lia.
    rewrite H1, H2, length_insert.
    by replace (Z.to_nat k + 1)%nat with (S (Z.to_nat k)) by lia.
Qed.

(** "+.double" on two UINT8 operands: the operator "+" over FP64, and
    the buffer reads "+" afterwards. *)
Lemma gb_string_to_binop_splits_at_position_witness :
  let r := Matlab.gb_string_to_binop Ex.gb_find_dot (fun a _ => a)
             Ex.gb_string_to_type Ex.gb_string_and_type_to_binop
             Ex.plus_double (Some Ex.GrB_UINT8) (Some Ex.GrB_UINT8) in
  ztype <$> r.1 = Some Ex.GrB_FP64 /\
  Matlab.cstring r.2 = Ex.bytes [43]%N /\
  Matlab.cstring Ex.plus_double =
    Ex.bytes [43; 46; 100; 111; 117; 98; 108; 101]%N.
Proof.
  intros r. split; [reflexivity|]. split; [|reflexivity].
  exact (proj1 (proj2 (gb_string_to_binop_splits_at_position
           Ex.gb_find_dot (fun a _ => a) Ex.gb_string_to_type
           Ex.gb_string_and_type_to_binop Ex.plus_double
           (Some Ex.GrB_UINT8) (Some Ex.GrB_UINT8)
           ltac:(vm_compute; reflexivity)))).
Defined.

(** ** GB_reduce_to_scalar: failure, workspace, inputs read *)

Lemma live_allocations_from (k : list GB_event) : forall a,
  foldl (fun n e => match e with
                    | Ev_malloc _ => n + 1
                    | Ev_free => n - 1
                    | _ => n
                    end) a k = a + GB_live_allocations k.
Proof.
  unfold GB_live_allocations.
  induction k as [|e k IH]; intros a; [cbn; lia|].
  cbn [foldl]. destruct e; rewrite IH.
  all: try (rewrite (IH (0 + 1)) || rewrite (IH (0 - 1)) || rewrite (IH 0)).
  all: lia.
Qed.

Lemma live_allocations_app l k :
  GB_live_allocations (l ++ k) =
  GB_live_allocations l + GB_live_allocations k.
Proof.
  unfold GB_live_allocations at 1. rewrite foldl_app.
  apply live_allocations_from.
Qed.

Lemma wait_events_only_wait A :
  Forall (fun e => e = Ev_wait) (GB_wait_events A).
Proof. unfold GB_wait_events. destruct (_ || _); repeat constructor. Qed.

Lemma live_wait_events A : GB_live_allocations (GB_wait_events A) = 0.
Proof. unfold GB_wait_events. by destruct (_ || _). Qed.

Lemma live_workers env rd A : GB_live_allocations (GB_workers_of env rd A) = 0.
Proof.
  unfold GB_workers_of. destruct (decide _); [|done].
  by destruct (GB_red_factory env _ _) as [[|]|].
Qed.

(** The events a call appends to the log. *)
Lemma reduce_run_log env sched ctype accum reduce Context st :
  let r := GB_run (GB_reduce_to_scalar env sched ctype accum reduce Context)
             st in
  exists evs,
    st_log r.2 = st_log st ++ evs /\
    GB_live_allocations evs = 0 /\
    (r.1 <> GrB_SUCCESS ->
       Forall (fun e => e = Ev_wait) evs /\
       st_c r.2 = st_c st /\ st_early_exit r.2 = st_early_exit st) /\
    (r.1 = GrB_SUCCESS ->
       exists pre n workers,
         evs = pre ++ [Ev_malloc n] ++ workers ++ [Ev_write; Ev_free] /\
         Forall (fun e => e = Ev_wait) pre /\
         Forall (fun e => exists w info, e = Ev_worker w info) workers).
Proof.
  intros r. subst r.
  destruct (GB_reduce_entry env ctype accum reduce st) as [info|] eqn:Hentry.
  - rewrite (reduce_entry_stops _ sched _ _ _ Context _ _ Hentry).
    exists []. cbn. rewrite app_nil_r. repeat split; try done.
    intros ->. apply reduce_entry_status in Hentry.
    apply list_elem_of_In in Hentry. cbn in Hentry. intuition discriminate.
  - destruct (reduce_entry_None _ _ _ _ _ Hentry) as (rd & c & -> & Hc).
    rewrite (reduce_entry_passes _ sched _ _ _ Context _ c Hentry Hc).
    unfold GB_reduce_outcome.
    destruct (GB_finalized env (st_A st)) as [A|].
    + destruct (GB_MALLOC env _).
      * destruct (GB_reduce_value _ _ _ _ _ _) as [s ee].
        cbn [fst snd st_log st_c st_early_exit].
        eexists. split; [reflexivity|]. split; [|split; [done|]].
        -- rewrite !live_allocations_app, live_wait_events.
           destruct (_ =? 0); rewrite ?live_workers; done.
        -- intros _. eexists _, _, _. split; [reflexivity|].
           split; [apply wait_events_only_wait|].
           destruct (_ =? 0); [constructor|].
           unfold GB_workers_of. destruct (decide _);
             [destruct (GB_red_factory env _ _) as [[|]|]|];
             repeat constructor; by eexists _, _.
      * cbn [fst snd st_log st_c st_early_exit].
        eexists. split; [reflexivity|]. split; [apply live_wait_events|].
        split; [|done]. intros _. split; [apply wait_events_only_wait|done].
    + exists []. cbn. rewrite app_nil_r. repeat split; done.
Qed.

(** X11: a call of [GB_reduce_to_scalar] that does not return
    [GrB_SUCCESS] (a failed entry check, or no memory for the pending
    work of [A] or for the workspace) leaves the scalar [c] and the
    early-exit flag as they were; it has allocated nothing that is still
    held, run no worker and written nothing: all it may have done is
    finalize [A]. *)
Theorem reduce_failure_writes_nothing (env : GB_env)
    (sched : nat -> nat -> bool) (ctype : GrB_Type)
    (accum : option GrB_BinaryOp) (reduce : option GrB_Monoid)
    (Context : GB_Context) (st : GB_reduce_state) :
  let r := GB_run (GB_reduce_to_scalar env sched ctype accum reduce Context)
             st in
  r.1 <> GrB_SUCCESS ->
  st_c r.2 = st_c st /\ st_early_exit r.2 = st_early_exit st /\
  exists evs,
    st_log r.2 = st_log st ++ evs /\ Forall (fun e => e = Ev_wait) evs.
Proof.
  intros r Hfail.
  destruct (reduce_run_log env sched ctype accum reduce Context st)
    as (evs & Hlog & _ & Hf & _).
  destruct (Hf Hfail) as (Hwait & Hc & Hee).
  split; [exact Hc|]. split; [exact Hee|]. by exists evs.
Qed.

(** No memory for the workspace: [c] is still 7. *)
Lemma reduce_failure_writes_nothing_witness :
  let env := GB_env_with_MALLOC Ex.env (fun _ => false) in
  let r := GB_run (GB_reduce_to_scalar env (fun _ _ => false) Ex.GrB_UINT8
                     None (Some Ex.GxB_PLUS_UINT8_MONOID) Ex.Context)
             (Ex.reduce_state Ex.A22_csc) in
  r.1 = GrB_OUT_OF_MEMORY /\ st_c r.2 = Some (Ex.u8 7).
Proof.
  intros env r. split; [reflexivity|].
  exact (proj1 (reduce_failure_writes_nothing env (fun _ _ => false)
                  Ex.GrB_UINT8 None (Some Ex.GxB_PLUS_UINT8_MONOID)
                  Ex.Context (Ex.reduce_state Ex.A22_csc)
                  ltac:(discriminate))).
Defined.

(** X12: on every path of [GB_reduce_to_scalar] the workspace [W] is
    released before the function returns: the allocations and the frees
    of a call balance.  A successful call, after finalizing [A] if
    needed, allocates [W] once, runs its workers, writes [c] once and then
    frees [W], in this order. *)
Theorem reduce_workspace_released (env : GB_env)
    (sched : nat -> nat -> bool) (ctype : GrB_Type)
    (accum : option GrB_BinaryOp) (reduce : option GrB_Monoid)
    (Context : GB_Context) (st : GB_reduce_state) :
  let r := GB_run (GB_reduce_to_scalar env sched ctype accum reduce Context)
             st in
  exists evs,
    st_log r.2 = st_log st ++ evs /\
    GB_live_allocations evs = 0 /\
    (r.1 = GrB_SUCCESS ->
       exists pre n workers,
         evs = pre ++ [Ev_malloc n] ++ workers ++ [Ev_write; Ev_free] /\
         Forall (fun e => e = Ev_wait) pre /\
         Forall (fun e => exists w info, e = Ev_worker w info) workers).
Proof.
  intros r.
  destruct (reduce_run_log env sched ctype accum reduce Context st)
    as (evs & Hlog & Hlive & _ & Hs).
  exists evs. split; [exact Hlog|]. split; [exact Hlive|exact Hs].
Qed.

Lemma finalized_settled env A :
  GB_settled A = true -> GB_finalized env A = Some A.
Proof.
  unfold GB_settled, GB_finalized. by destruct (_ || _).
Qed.

Lemma wait_events_settled A : GB_settled A = true -> GB_wait_events A = [].
Proof.
  unfold GB_settled, GB_wait_events. by destruct (_ || _).
Qed.

(** X13: [GB_reduce_to_scalar] reads of a matrix with no pending work
    only its type, its number of entries and the values of these entries,
    in the order they are stored: two such matrices that agree on these
    three give the same status, the same [c], the same early-exit flag
    and the same log, whatever their dimensions, their indices, their
    format (by row or by column, hypersparse or not) and whatever the
    monoid; the matrix is not modified. *)
Theorem reduce_reads_type_count_values (env : GB_env)
    (sched : nat -> nat -> bool) (ctype : GrB_Type)
    (accum : option GrB_BinaryOp) (reduce : option GrB_Monoid)
    (Context : GB_Context) (st st' : GB_reduce_state) :
  st_c st' = st_c st ->
  st_early_exit st' = st_early_exit st ->
  st_log st' = st_log st ->
  GB_settled (st_A st) = true -> GB_settled (st_A st') = true ->
  m_type (st_A st') = m_type (st_A st) ->
  GB_NNZ (st_A st') = GB_NNZ (st_A st) ->
  take (Z.to_nat (GB_NNZ (st_A st'))) (m_x (st_A st')) =
    take (Z.to_nat (GB_NNZ (st_A st))) (m_x (st_A st)) ->
  let r := GB_run (GB_reduce_to_scalar env sched ctype accum reduce Context)
             st in
  let r' := GB_run (GB_reduce_to_scalar env sched ctype accum reduce
                      Context) st' in
  r'.1 = r.1 /\ st_c r'.2 = st_c r.2 /\
  st_early_exit r'.2 = st_early_exit r.2 /\ st_log r'.2 = st_log r.2 /\
  st_A r.2 = st_A st /\ st_A r'.2 = st_A st'.
Proof.
  intros Hc Hee Hlog Hs Hs' Htype Hnnz Hx r r'. subst r r'.
  assert (Hentry : GB_reduce_entry env ctype accum reduce st' =
                   GB_reduce_entry env ctype accum reduce st).
  { unfold GB_reduce_entry. by rewrite Hc, Htype. }
  destruct (GB_reduce_entry env ctype accum reduce st) as [info|] eqn:He.
  - rewrite (reduce_entry_stops _ sched _ _ _ Context _ _ He).
    rewrite (reduce_entry_stops _ sched _ _ _ Context _ _ Hentry). done.
  - destruct (reduce_entry_None _ _ _ _ _ He) as (rd & c & -> & Hcst).
    rewrite (reduce_entry_passes _ sched _ _ _ Context _ c He Hcst).
    rewrite (reduce_entry_passes _ sched _ _ _ Context _ c Hentry)
      by congruence.
    unfold GB_reduce_outcome.
    rewrite (finalized_settled env _ Hs), (finalized_settled env _ Hs').
    rewrite (wait_events_settled _ Hs), (wait_events_settled _ Hs').
    unfold GB_ntasks_of, GB_reduce_value, GB_workers_of, GB_macros_of,
      GB_ntasks_of.
    rewrite Hnnz, Htype, Hee, Hlog. rewrite Hnnz in Hx. rewrite Hx.
    destruct (GB_MALLOC env _); [|done].
    destruct (GB_NNZ (st_A st) =? 0); [done|].
    by destruct (GB_reduce_to_scalar_template _ _ _ _ _ _ _).
Qed.


(** [[1 2] [3 4]] by column and the same arrays marked hypersparse. *)
Lemma reduce_reads_type_count_values_witness :
  let reduce := GB_reduce_to_scalar Ex.env (fun _ _ => false) Ex.GrB_UINT8
                  None (Some Ex.GxB_MAX_UINT8_MONOID) Ex.Context in
  Ex.A22_hyper <> Ex.A22_csc /\
  (GB_run reduce (Ex.reduce_state Ex.A22_hyper)).1 =
    (GB_run reduce (Ex.reduce_state Ex.A22_csc)).1 /\
  st_c (GB_run reduce (Ex.reduce_state Ex.A22_hyper)).2 =
    st_c (GB_run reduce (Ex.reduce_state Ex.A22_csc)).2.
Proof.
  intros reduce. split; [discriminate|].
  destruct (reduce_reads_type_count_values Ex.env (fun _ _ => false)
              Ex.GrB_UINT8 None (Some Ex.GxB_MAX_UINT8_MONOID) Ex.Context
              (Ex.reduce_state Ex.A22_csc) (Ex.reduce_state Ex.A22_hyper)
              eq_refl eq_refl eq_refl eq_refl eq_refl eq_refl eq_refl
              eq_refl) as (Hstatus & Hc & _).
  split; [exact Hstatus|exact Hc].
Defined.


(** X15: the scalar [c] that [GB_reduce_to_scalar] computes does not
    depend on the thread budget: under two contexts (other thread
    counts, hence other numbers of tasks and other shares of the
    entries) and whatever tasks stop early, a lawful monoid gives the
    same [c] for the same matrix. *)
Theorem reduce_thread_budget_independent (env : GB_env)
    (sched sched' : nat -> nat -> bool) (ctype : GrB_Type)
    (accum : option GrB_BinaryOp) (reduce : option GrB_Monoid)
    (Context Context' : GB_Context) (st : GB_reduce_state)
    (rd : GrB_Monoid) (c : GB_void) (A : GrB_Matrix) :
  GB_reduce_admitted env ctype accum reduce Context st rd c A ->
  GB_reduce_admitted env ctype accum reduce Context' st rd c A ->
  GB_monoid_lawful rd ->
  GB_matrix_ok A ->
  Forall (fun v => length (GB_entry_value env rd A v) = size (ztype (op rd)))
    (take (Z.to_nat (GB_NNZ A)) (m_x A)) ->
  let r := GB_run (GB_reduce_to_scalar env sched ctype accum reduce Context)
             st in
  let r' := GB_run (GB_reduce_to_scalar env sched' ctype accum reduce
                      Context') st in
  GB_sched_consistent sched r.2 ->
  GB_sched_consistent sched' r'.2 ->
  r.1 = GrB_SUCCESS /\ r'.1 = GrB_SUCCESS /\ st_c r'.2 = st_c r.2.
Proof.
  intros Hadm Hadm' Hlaw Hok HV r r'. subst r r'.
  rewrite (reduce_admitted_run _ sched _ _ _ _ _ _ _ _ Hadm).
  rewrite (reduce_admitted_run _ sched' _ _ _ _ _ _ _ _ Hadm').
  unfold GB_sched_consistent. cbn [fst snd st_c st_early_exit].
  intros Hsched Hsched'.
  rewrite (reduce_value_correct env rd A sched Context _ Hlaw Hok HV Hsched).
  rewrite (reduce_value_correct env rd A sched' Context' _ Hlaw Hok HV
             Hsched').
  done.
Qed.

Lemma reduce_thread_budget_independent_witness :
  let one := {| nthreads_max := 1; chunk := 4096 |} in
  let r := GB_run (GB_reduce_to_scalar Ex.env (fun _ _ => false)
                     Ex.GrB_UINT8 None (Some Ex.GxB_PLUS_UINT8_MONOID)
                     Ex.Context) (Ex.reduce_state Ex.A22_csc) in
  let r' := GB_run (GB_reduce_to_scalar Ex.env (fun _ _ => false)
                      Ex.GrB_UINT8 None (Some Ex.GxB_PLUS_UINT8_MONOID)
                      one) (Ex.reduce_state Ex.A22_csc) in
  GB_ntasks_of Ex.env Ex.Context Ex.A22_csc = 4 /\
  GB_ntasks_of Ex.env one Ex.A22_csc = 1 /\
  st_c r'.2 = st_c r.2.
Proof.
  intros one r r'. split; [reflexivity|]. split; [reflexivity|].
  refine (proj2 (proj2 (reduce_thread_budget_independent Ex.env
            (fun _ _ => false) (fun _ _ => false) Ex.GrB_UINT8 None
            (Some Ex.GxB_PLUS_UINT8_MONOID) Ex.Context one
            (Ex.reduce_state Ex.A22_csc) Ex.GxB_PLUS_UINT8_MONOID (Ex.u8 7)
            Ex.A22_csc _ _ plus_uint8_lawful A22_csc_ok _ _ _))).
  - split; reflexivity.
  - split; reflexivity.
  - vm_compute. repeat constructor.
  - intros tid b Hb. discriminate Hb.
  - intros tid b Hb. discriminate Hb.
Defined.

(** ** GrB_Monoid_wait *)

(** The run of [GrB_Monoid_wait] past [GB_WHERE]. *)
Lemma monoid_wait_run {S} (reduce : option GrB_Monoid) (st : S) :
  GB_run (GrB_Monoid_wait None (Some reduce)) st =
    (match reduce with
     | None => GrB_NULL_POINTER
     | Some rd => default GrB_SUCCESS (GB_faulty (monoid_magic rd))
     end, st).
Proof.
  unfold GrB_Monoid_wait. gb_unfold. destruct reduce as [rd|]; [|done].
  cbn. by destruct (GB_faulty (monoid_magic rd)).
Qed.

(** X10: [GrB_Monoid_wait] changes nothing and returns [GrB_SUCCESS]
    exactly for a monoid that is there and valid.  It agrees with the
    check [GB_reduce_to_scalar] starts with: a status other than success
    is the status the reduction returns for that monoid, with nothing
    done; and a monoid it accepts is never the reason for a reduction
    without accumulator to fail, which can then only end in success, a
    domain or dimension mismatch, or out of memory.  A NULL pointer
    instead of the handle gives [GrB_NULL_POINTER]. *)
Theorem monoid_wait_agrees_with_reduce (env : GB_env)
    (sched : nat -> nat -> bool) (ctype : GrB_Type)
    (accum : option GrB_BinaryOp) (reduce : option GrB_Monoid)
    (Context : GB_Context) (st : GB_reduce_state) :
  let w := GB_run (GrB_Monoid_wait None (Some reduce)) st in
  let r := GB_run (GB_reduce_to_scalar env sched ctype accum reduce Context)
             st in
  GB_run (GrB_Monoid_wait None (@None (option GrB_Monoid))) st =
    (GrB_NULL_POINTER, st) /\
  w.2 = st /\
  (w.1 = GrB_SUCCESS <->
     exists rd, reduce = Some rd /\ monoid_magic rd = GB_MAGIC) /\
  (w.1 <> GrB_SUCCESS -> r = w) /\
  (w.1 = GrB_SUCCESS -> accum = None -> is_Some (st_c st) ->
     r.1 ∈ [GrB_SUCCESS; GrB_DOMAIN_MISMATCH; GrB_DIMENSION_MISMATCH;
            GrB_OUT_OF_MEMORY]).
Proof.
  intros w r. subst w r. split; [done|].
  rewrite monoid_wait_run.
  destruct reduce as [rd|]; cbn [fst snd].
  - destruct (GB_faulty (monoid_magic rd)) as [info|] eqn:Hmagic.
    + assert (Hinfo : info <> GrB_SUCCESS)
        by (destruct (monoid_magic rd); by simplify_eq/=).
      split; [done|]. split.
      { split; [done|]. intros (rd' & ? & Hm). simplify_eq.
        by rewrite Hm in Hmagic. }
      split; [|done]. intros _.
      apply (reduce_entry_stops env sched). unfold GB_reduce_entry.
      by rewrite Hmagic.
    + split; [done|]. split.
      { split; [|done]. intros _. exists rd. split; [done|].
        by destruct (monoid_magic rd). }
      split; [done|]. intros _ -> [c Hc].
      destruct (GB_reduce_entry env ctype None (Some rd) st) as [info|]
        eqn:Hentry.
      * rewrite (reduce_entry_stops _ sched _ _ _ Context _ _ Hentry).
        unfold GB_reduce_entry in Hentry. rewrite Hmagic, Hc in Hentry.
        cbn in Hentry.
        destruct (GB_compatible env _ _ _ _ _);
          [destruct (GB_Type_compatible env _ _)|..];
          simplify_eq/=; in_list.
      * rewrite (reduce_entry_passes _ sched _ _ _ Context _ c Hentry Hc).
        pose proof (reduce_outcome_status env sched ctype None rd Context
                      st c) as Hin.
        apply list_elem_of_In in Hin. cbn in Hin.
        destruct Hin as [<-|[<-|[]]]; in_list.
  - split; [done|]. split; [split; [done|intros (? & ? & ?); congruence]|].
    split; [|done]. intros _. by apply (reduce_entry_stops env sched).
Qed.

(** X18: without accumulator the old content of [c] plays no part: two
    calls of [GB_reduce_to_scalar] that differ only in what [c] holds
    return the same status and, on success, leave the same value in
    [c]. *)
Theorem reduce_without_accum_overwrites_c (env : GB_env)
    (sched : nat -> nat -> bool) (ctype : GrB_Type)
    (reduce : option GrB_Monoid) (Context : GB_Context)
    (st : GB_reduce_state) (c' : GB_void) :
  is_Some (st_c st) ->
  let st' := {| st_c := Some c'; st_A := st_A st;
                st_early_exit := st_early_exit st; st_log := st_log st |} in
  let r := GB_run (GB_reduce_to_scalar env sched ctype None reduce Context)
             st in
  let r' := GB_run (GB_reduce_to_scalar env sched ctype None reduce Context)
              st' in
  r'.1 = r.1 /\ (r.1 = GrB_SUCCESS -> st_c r'.2 = st_c r.2).
Proof.
  intros [c Hc] st' r r'. subst r r'.
  assert (Hentry : GB_reduce_entry env ctype None reduce st' =
                   GB_reduce_entry env ctype None reduce st).
  { unfold GB_reduce_entry. subst st'. cbn [st_c st_A]. by rewrite Hc. }
  destruct (GB_reduce_entry env ctype None reduce st) as [info|] eqn:He.
  - rewrite (reduce_entry_stops _ sched _ _ _ Context _ _ He).
    rewrite (reduce_entry_stops _ sched _ _ _ Context _ _ Hentry).
    split; [done|]. cbn. intros ->.
    apply reduce_entry_status in He. apply list_elem_of_In in He.
    cbn in He. intuition discriminate.
  - destruct (reduce_entry_None _ _ _ _ _ He) as (rd & c0 & -> & Hc0).
    rewrite (reduce_entry_passes _ sched _ _ _ Context _ c He Hc).
    rewrite (reduce_entry_passes _ sched _ _ _ Context _ c' Hentry eq_refl).
    unfold GB_reduce_outcome. subst st'. cbn [st_A st_early_exit st_log st_c].
    destruct (GB_finalized env (st_A st)); [|done].
    destruct (GB_MALLOC env _); [|done].
    by destruct (GB_reduce_value _ _ _ _ _ _).
Qed.

(** [c] holding 7 or 99: the sum of [[1 2] [3 4]] is 10 either way. *)
Lemma reduce_without_accum_overwrites_c_witness :
  let reduce := GB_reduce_to_scalar Ex.env (fun _ _ => false) Ex.GrB_UINT8
                  None (Some Ex.GxB_PLUS_UINT8_MONOID) Ex.Context in
  let st := Ex.reduce_state Ex.A22_csc in
  let st' := {| st_c := Some (Ex.u8 99); st_A := st_A st;
                st_early_exit := st_early_exit st; st_log := st_log st |} in
  st_c (GB_run reduce st').2 = st_c (GB_run reduce st).2 /\
  st_c (GB_run reduce st).2 = Some (Ex.u8 10).
Proof.
  intros reduce st st'. split; [|reflexivity].
  exact (proj2 (reduce_without_accum_overwrites_c Ex.env (fun _ _ => false)
                  Ex.GrB_UINT8 (Some Ex.GxB_PLUS_UINT8_MONOID) Ex.Context st
                  (Ex.u8 99) (ex_intro _ (Ex.u8 7) eq_refl)) eq_refl).
Defined.

(** ** GB_eWise: when no transpose is made *)

(** [GB_WAIT] either runs out of memory or hands back a matrix in the
    format of its argument, when finalization keeps the format. *)
Lemma WAIT_cases env A store s :
  (forall X X', GB_Matrix_wait env X = Some X' -> is_csc X' = is_csc X) ->
  GB_WAIT env (Some A) store s = (inl GrB_OUT_OF_MEMORY, s) \/
  exists A1 s1,
    GB_WAIT env (Some A) store s = (inr (Some A1), s1) /\
    is_csc A1 = is_csc A.
Proof.
  intros Hwait. unfold GB_WAIT, GB_ew_log. gb_unfold.
  destruct (_ || _); [|right; by eexists _, _].
  destruct (GB_Matrix_wait env A) as [A1|] eqn:HA1; [|by left].
  right. eexists _, _. split; [reflexivity|]. by eapply Hwait.
Qed.

(** X16: [GB_eWise] conforms each input to the format of [C] by flipping
    its transpose flag when the formats differ.  When the two flags agree
    after that (both inputs used as they are, or both transposed, as in
    C=A'+B'), and the mask is absent or is in the format of [C] with
    neither input transposed, the call makes no transpose at all: its
    status and its result are the same whatever [GB_transpose] would
    return, [T] being computed from [A] and [B] themselves. *)
Theorem eWise_no_transpose_when_flags_agree (env : GB_env)
    (transpose : option GrB_Type -> bool -> GrB_Matrix -> option GrB_Matrix)
    (C_replace Mask_comp : bool) (accum : option GrB_BinaryOp)
    (op : GrB_BinaryOp) (A_transpose B_transpose eWiseAdd : bool)
    (st : GB_eWise_state) :
  (forall X X', GB_Matrix_wait env X = Some X' -> is_csc X' = is_csc X) ->
  GB_conformed_transpose (ew_C st) (ew_A st) A_transpose =
    GB_conformed_transpose (ew_C st) (ew_B st) B_transpose ->
  match ew_M st with
  | None => True
  | Some M =>
      is_csc M = is_csc (ew_C st) /\
      GB_conformed_transpose (ew_C st) (ew_A st) A_transpose = false
  end ->
  GB_run (GB_eWise (GB_env_with_transpose env transpose) C_replace Mask_comp
            accum op A_transpose B_transpose eWiseAdd) st =
  GB_run (GB_eWise env C_replace Mask_comp accum op A_transpose B_transpose
            eWiseAdd) st.
Proof.
  intros Hwait Hflags HM.
  unfold GB_conformed_transpose in *.
  unfold GB_eWise.
  change (GB_WAIT (GB_env_with_transpose env transpose))
    with (GB_WAIT env).
  change (GB_RETURN_IF_QUICK_MASK (GB_env_with_transpose env transpose))
    with (GB_RETURN_IF_QUICK_MASK env).
  gb_unfold.
  cbn [GB_Type_compatible GB_compatible GB_BinaryOp_compatible
       GB_env_with_transpose].
  destruct accum as [a|]; cbn -[GB_NROWS GB_NCOLS GB_WAIT
                                GB_RETURN_IF_QUICK_MASK];
    [destruct (GB_faulty (op_magic a)); [done|]|].
  all: destruct (GB_compatible env _ _ _ _ _);
         cbn -[GB_WAIT GB_RETURN_IF_QUICK_MASK]; [|done..].
  all: destruct (GB_BinaryOp_compatible env _ _ _ _ _);
         cbn -[GB_WAIT GB_RETURN_IF_QUICK_MASK]; [|done..].
  all: destruct (decide (GrB_SUCCESS = GrB_SUCCESS)); [|done];
         cbn -[GB_WAIT GB_RETURN_IF_QUICK_MASK].
  all: destruct eWiseAdd; cbn -[GB_WAIT GB_RETURN_IF_QUICK_MASK].
  all: try (destruct (GB_Type_compatible env (m_type (ew_C st))
                        (m_type (ew_A st)));
            cbn -[GB_WAIT GB_RETURN_IF_QUICK_MASK]; [|done]).
  all: try (destruct (GB_Type_compatible env (m_type (ew_C st))
                        (m_type (ew_B st)));
            cbn -[GB_WAIT GB_RETURN_IF_QUICK_MASK]; [|done]).
  all: destruct (_ || _); cbn -[GB_WAIT GB_RETURN_IF_QUICK_MASK]; [done|].
  all: destruct (GB_RETURN_IF_QUICK_MASK env C_replace Mask_comp st)
         as [[info|[]] st0] eqn:Hquick; [done|].
  all: assert (st0 = st) as ->
         by (unfold GB_RETURN_IF_QUICK_MASK, GB_ew_set_C in Hquick;
             gb_unfold; cbn in Hquick;
             repeat (case_match; simplify_eq/=); done).
  all: clear Hquick.
  all: destruct (ew_M st) as [M|] eqn:HMst;
         [destruct HM as [HMcsc HAf];
          destruct (WAIT_cases env M GB_ew_store_M st Hwait)
            as [-> | (M1 & s1 & -> & HM1)]; [done|]
         |change (GB_WAIT env None GB_ew_store_M st) with
            (@inr GrB_Info _ (@None GrB_Matrix), st)].
  all: cbv beta iota.
  all: match goal with |- context [GB_WAIT ?e (Some (ew_A ?t)) _ ?s] =>
         destruct (WAIT_cases e (ew_A t) GB_ew_store_A s Hwait)
           as [-> | (A1 & s2 & -> & HA1)]; [done|] end.
  all: cbv beta iota.
  all: match goal with |- context [GB_WAIT ?e (Some (ew_B ?t)) _ ?s] =>
         destruct (WAIT_cases e (ew_B t) GB_ew_store_B s Hwait)
           as [-> | (B1 & s3 & -> & HB1)]; [done|] end.
  all: cbv beta iota.
  all: cbn [default from_option id]; rewrite ?HA1, ?HB1, ?HM1, ?HMcsc.
  all: destruct (is_csc (ew_C st)), (is_csc (ew_A st)), (is_csc (ew_B st)),
         A_transpose, B_transpose; cbn in Hflags; try discriminate Hflags;
         try (cbn in HAf; discriminate HAf); reflexivity.
Qed.

(** C = A'+B' with [C] held by column and [A], [B] by row: nothing is
    transposed, and the call succeeds with a [GB_transpose] that always
    fails; C = A'+B needs one transpose and fails with it. *)
Lemma eWise_no_transpose_when_flags_agree_witness :
  let st := Ex.eWise_state Ex.A22_csc Ex.A22_csr Ex.A22_csr in
  let failing := GB_env_with_transpose Ex.env (fun _ _ _ => None) in
  GB_run (GB_eWise failing false false None Ex.GrB_PLUS_UINT8 true true
            true) st =
  GB_run (GB_eWise Ex.env false false None Ex.GrB_PLUS_UINT8 true true
            true) st /\
  (GB_run (GB_eWise failing false false None Ex.GrB_PLUS_UINT8 true true
             true) st).1 = GrB_SUCCESS /\
  (GB_run (GB_eWise failing false false None Ex.GrB_PLUS_UINT8 true false
             true) st).1 = GrB_OUT_OF_MEMORY.
Proof.
  intros st failing. split; [|split; reflexivity].
  apply (eWise_no_transpose_when_flags_agree Ex.env (fun _ _ _ => None)
           false false None Ex.GrB_PLUS_UINT8 true true true st).
  - intros X X' HX. by injection HX as <-.
  - reflexivity.
  - exact I.
Defined.

(** ** C<!M>=A'*B: the order of the entries computed *)



(** ** C<!M>=A'*B: every vector of B once for each slice of A *)

Module Dot2TasksFacts.
Import Dot2Tasks.

(** The slices of [B] put end to end are the vectors [0 .. bnvec-1]. *)
Lemma task_vectors_concat (B_slice : list Z) (nb : nat) :
  arr B_slice 0 = 0 ->
  (forall b, 0 <= b < Z.of_nat nb -> arr B_slice b <= arr B_slice (b + 1)) ->
  0 <= arr B_slice (Z.of_nat nb) /\
  (seqZ 0 (Z.of_nat nb) ≫= GB_task_vectors B_slice) =
    seqZ 0 (arr B_slice (Z.of_nat nb)).
Proof.
  intros H0 Hmono. induction nb as [|nb IH].
  - change (Z.of_nat 0) with 0. rewrite H0. split; [lia|done].
  - destruct IH as [Hpos IH]; [intros b Hb; apply Hmono; lia|].
    pose proof (Hmono (Z.of_nat nb) ltac:(lia)) as Hstep.
    replace (Z.of_nat nb + 1) with (Z.of_nat (S nb)) in Hstep by lia.
    split; [lia|].
    rewrite seqZ_S, bind_app, IH. cbn [mbind list_bind app].
    rewrite app_nil_r. unfold GB_task_vectors.
    rewrite Z.add_0_l.
    replace (Z.of_nat nb + 1) with (Z.of_nat (S nb)) by lia.
    rewrite <- (seqZ_app 0) by lia. f_equal. lia.
Qed.

Lemma bind_bind {X Y W} (f : X -> list Y) (g : Y -> list W) (l : list X) :
  (l ≫= f) ≫= g = l ≫= (fun x => f x ≫= g).
Proof.
  induction l as [|x l IH]; [done|].
  by rewrite !bind_cons, bind_app, IH.
Qed.

End Dot2TasksFacts.

(** X19: when [B_slice] starts at 0 and does not decrease, the tasks of
    [GB_AxB_dot2_compmask] go, for each slice of [A], through every vector
    [0 .. B_slice [nbslice] - 1] of [B] exactly once: the body is run
    once for each pair of a slice of [A] and a vector of [B], none
    skipped and none repeated. *)
Theorem dot2_tasks_cover_B_once (naslice nbslice : Z) (B_slice : list Z) :
  0 <= nbslice ->
  arr B_slice 0 = 0 ->
  (forall b, 0 <= b < nbslice -> arr B_slice b <= arr B_slice (b + 1)) ->
  Dot2Tasks.GB_iterations naslice nbslice B_slice =
    (a_taskid ← seqZ 0 naslice;
     Iter_k ← seqZ 0 (arr B_slice nbslice);
     [(a_taskid, Iter_k)]) /\
  NoDup (Dot2Tasks.GB_iterations naslice nbslice B_slice) /\
  forall a k,
    (a, k) ∈ Dot2Tasks.GB_iterations naslice nbslice B_slice <->
    0 <= a < naslice /\ 0 <= k < arr B_slice nbslice.
Proof.
  intros Hnb H0 Hmono.
  destruct (Dot2TasksFacts.task_vectors_concat B_slice (Z.to_nat nbslice) H0)
    as [_ Hcat].
  { intros b Hb. apply Hmono. lia. }
  rewrite Z2Nat.id in Hcat by done.
  assert (Heq : Dot2Tasks.GB_iterations naslice nbslice B_slice =
            (a_taskid ← seqZ 0 naslice;
             Iter_k ← seqZ 0 (arr B_slice nbslice);
             [(a_taskid, Iter_k)])).
  { unfold Dot2Tasks.GB_iterations. apply list_bind_ext; [|done].
    intros a. by rewrite <- Dot2TasksFacts.bind_bind, Hcat. }
  split; [exact Heq|]. rewrite Heq. split.
  - apply NoDup_bind; [| |apply NoDup_seqZ].
    + intros a1 a2 [a k] _ _ H1 H2.
      apply list_elem_of_bind in H1 as (k1 & H1 & _).
      apply list_elem_of_bind in H2 as (k2 & H2 & _).
      apply list_elem_of_singleton in H1, H2. congruence.
    + intros a _. apply NoDup_bind; [| |apply NoDup_seqZ].
      * intros k1 k2 [a' k] _ _ H1 H2.
        apply list_elem_of_singleton in H1, H2. congruence.
      * intros k _. apply NoDup_singleton.
  - intros a k. rewrite list_elem_of_bind. split.
    + intros (a' & Hin & Ha). apply list_elem_of_bind in Hin as (k' & Hin & Hk).
      apply list_elem_of_singleton in Hin. simplify_eq.
      apply elem_of_seqZ in Ha, Hk. lia.
    + intros [Ha Hk]. exists a. split; [|apply elem_of_seqZ; lia].
      apply list_elem_of_bind. exists k.
      split; [by apply list_elem_of_singleton|apply elem_of_seqZ; lia].
Qed.

Lemma dot2_tasks_cover_B_once_witness :
  Dot2Tasks.GB_iterations 2 3 [0; 2; 2; 5] =
    [(0, 0); (0, 1); (0, 2); (0, 3); (0, 4);
     (1, 0); (1, 1); (1, 2); (1, 3); (1, 4)].
Proof.
  refine (proj1 (dot2_tasks_cover_B_once 2 3 [0; 2; 2; 5] _ _ _)).
  - lia.
  - reflexivity.
  - intros b Hb.
    assert (Hcases : b = 0 \/ b = 1 \/ b = 2) by lia.
    destruct Hcases as [-> | [-> | ->]]; vm_compute; discriminate.
Defined.


